(** * rclone-reporter: the dual-cache refresh-and-serve engine of [app.js]

    A shallow embedding of the cache engine of [app.js] and the properties
    its specification states about it.

    Representation choices, fixed once for the whole development:

    - a JavaScript [Map] is an insertion-ordered association list ([JsMap]);
      [Array.from(m.keys())] is the list of its keys in insertion order;
    - an ISO-8601 time string produced by [toISOString()] is represented by
      the instant it denotes, in milliseconds since the epoch ([Z]); reading
      it back with [new Date(s)] is the identity on that representation;
    - a string is represented by the bytes of its UTF-8 encoding;
    - byte counts are integral JavaScript numbers, represented in [Z]; a
      property that is absent from an object ([undefined]) or [null] is
      [None]; where the source computes with them ([-], [/], [*], [+]) the
      operation is the binary64 one, on [spec_float];
    - the host clock and the file system are observations handed to each
      function, named after the variable that receives them in the source;
      so is the one value the language leaves to the host, the index that
      [formatBytes] computes through [Math.log];
    - an activation of the [async] function [updateRemoteCache] is suspended
      at each [await] on a child process; the pending activations are kept
      in the state ([tasks]), and every resumption is one transition.
      [getDirectorySize] only makes synchronous file-system calls, so the
      promises awaited by [updateLocalCache], [addToLocalCache] and the
      compare handler are settled without leaving the current turn of the
      event loop: these three run to completion as one transition. *)

From Stdlib Require Import ZArith List Bool String Ascii Lia DecimalString SpecFloat.
Import ListNotations.
Local Open Scope string_scope.
Local Open Scope list_scope.
Local Open Scope Z_scope.

(** String concatenation, JavaScript's [+] on strings. *)
Infix "^^" := String.append (at level 60, right associativity).

(** ** JavaScript [Map] with string keys *)

Module JsMap.

Definition t (V : Type) : Type := list (string * V).

Definition empty {V} : t V := [].

Fixpoint get {V} (k : string) (m : t V) : option V :=
  match m with
  | [] => None
  | (k', v) :: m' => if String.eqb k k' then Some v else get k m'
  end.

Definition has {V} (k : string) (m : t V) : bool :=
  match get k m with Some _ => true | None => false end.

(** [m.set(k, v)]: an existing key keeps its position, a new key goes last. *)
Fixpoint set {V} (k : string) (v : V) (m : t V) : t V :=
  match m with
  | [] => [(k, v)]
  | (k', v') :: m' =>
      if String.eqb k k' then (k', v) :: m' else (k', v') :: set k v m'
  end.

Definition keys {V} (m : t V) : list string := map fst m.

Definition size {V} (m : t V) : nat := List.length m.

(** [new Map(m)]: a fresh map with the same bindings. *)
Definition copy {V} (m : t V) : t V := m.

Definition clear {V} (m : t V) : t V := [].

End JsMap.

(** ** Numbers and their printed form *)

(** Decimal digits of an integer, as [Number.prototype.toString] prints it. *)
Definition string_of_Z (z : Z) : string := NilZero.string_of_int (Z.to_int z).

(** [x.toFixed(2)] for the exact rational [x = p / q] with [0 < q]: the
    integer [n] for which [n / 100] is nearest to [x], the one larger in
    magnitude when two are equally near.  The result is the number of
    hundredths printed. *)
Definition toFixed2 (p q : Z) : Z :=
  Z.sgn p * ((200 * Z.abs p + q) / (2 * q)).

(** [parseFloat(s) + ''] for the two-decimal string [s] of [n] hundredths,
    [0 <= n]: trailing zeros of the fraction are not printed. *)
Definition string_of_hundredths (n : Z) : string :=
  let ip := n / 100 in
  let fp := n mod 100 in
  if fp =? 0 then string_of_Z ip
  else if fp mod 10 =? 0 then string_of_Z ip ^^ "." ^^ string_of_Z (fp / 10)
  else string_of_Z ip ^^ "." ^^ string_of_Z (fp / 10) ^^ string_of_Z (fp mod 10).

(** IEEE-754 binary64, the format of JavaScript numbers. *)
Definition prec : Z := 53.
Definition emax : Z := 1024.

Definition number_of_Z (z : Z) : spec_float := binary_normalize prec emax z 0 false.

(** A property read as a number: [undefined] is [NaN] in arithmetic. *)
Definition number_of_opt (x : option Z) : spec_float :=
  match x with
  | Some z => number_of_Z z
  | None => S754_nan
  end.

(** The integer a number is.  [None] stands for [NaN] and the infinities,
    which [JSON.stringify] sends as [null] (and for a number with a
    fraction, which sums and differences of integers never are). *)
Definition integer_of_number (x : spec_float) : option Z :=
  match x with
  | S754_zero _ => Some 0
  | S754_finite s m e =>
      if 0 <=? e then Some (cond_Zopp s (Z.pos m * 2 ^ e))
      else if Z.pos m mod 2 ^ (- e) =? 0 then Some (cond_Zopp s (Z.pos m / 2 ^ (- e)))
      else None
  | S754_infinity _ => None
  | S754_nan => None
  end.

(** [x.toFixed(2)] on a binary64 value, [None] when [x] is not finite. *)
Definition toFixed2_float (x : spec_float) : option Z :=
  match x with
  | S754_zero _ => Some 0
  | S754_finite s m e =>
      let p := if s then Z.neg m else Z.pos m in
      Some (if 0 <=? e then 100 * p * 2 ^ e else toFixed2 p (2 ^ (- e)))
  | S754_infinity _ => None
  | S754_nan => None
  end.

(** ** [formatBytes] (app.js, lines 151-159) *)

Definition sizes : list string :=
  ["Bytes"; "KB"; "MB"; "GB"; "TB"; "PB"; "EB"; "ZB"; "YB"].

(** [sizes[i]] as it is concatenated into a string: [undefined] outside
    the array. *)
Definition sizes_at (i : Z) : string :=
  if i <? 0 then "undefined" else nth (Z.to_nat i) sizes "undefined".

(** [formatBytes(bytes)] for an integral [bytes].

    The index [i = Math.floor(Math.log(bytes) / Math.log(k))] of line 156
    is not determined by the source: ECMA-262 asks of [Math.log] an
    implementation-approximated value only, and the binary64 quotient of
    two such values can fall on either side of an integer when [bytes] is
    close to a power of 1024.  The index is therefore taken from the host:
    [floorLog bytes] is the integer the host computes for [0 < bytes].

    [Math.pow(k, i)] is the power of two [1024 ^ i] and the division by it
    is exact, so [toFixed] sees the rational [bytes / 1024 ^ i]; its two
    decimals are read back by [parseFloat] and printed without trailing
    zeros.  (The digits printed are those of the hundredths for an integer
    below [2 ^ 53] and for any number of at most fifteen significant
    digits, which covers every count below [2 ^ 53] at an index within
    [log_accurate]; longer numbers are not modelled.)  A negative argument
    makes [Math.log] return [NaN], which reaches the result as
    ["NaN undefined"]. *)
Definition formatBytes (floorLog : Z -> Z) (bytes : Z) : string :=
  if bytes =? 0 then "0 Bytes"
  else if bytes <? 0 then "NaN undefined"
  else
    let k := 1024 in
    let i := floorLog bytes in
    let hundredths :=
      if 0 <=? i then toFixed2 bytes (k ^ i) else toFixed2 (bytes * k ^ (- i)) 1 in
    string_of_hundredths hundredths ^^ " " ^^ sizes_at i.

(** [formatBytes] applied to a property that may be [undefined]. *)
Definition formatBytes_opt (floorLog : Z -> Z) (bytes : option Z) : string :=
  match bytes with
  | Some b => formatBytes floorLog b
  | None => "NaN undefined"
  end.

(** The index when the quotient of the two logarithms is computed without
    error, [floor (log2 bytes / 10)]: the host of the sample runs. *)
Definition exact_log1024 (bytes : Z) : Z := Z.log2 bytes / 10.

(** ** Dates

    The host is in a zone with a fixed offset [tz] from UTC, in
    milliseconds: local time is [t + tz]. *)

Definition msPerHour : Z := 60 * 60 * 1000.
Definition msPerDay : Z := 24 * msPerHour.

(** [d.setMinutes(0, 0, 0)]: minutes, seconds and milliseconds of the local
    time are set to zero. *)
Definition setMinutes000 (tz t : Z) : Z := t - (t + tz) mod msPerHour.

(** Year, month (1-12) and day of the month of the day [days] days after
    1970-01-01, in the proleptic Gregorian calendar used by [Date]. *)
Definition civil_of_days (days : Z) : Z * Z * Z :=
  let z := days + 719468 in
  let era := z / 146097 in
  let doe := z mod 146097 in
  let yoe := (doe - doe / 1460 + doe / 36524 - doe / 146096) / 365 in
  let doy := doe - (365 * yoe + yoe / 4 - yoe / 100) in
  let mp := (5 * doy + 2) / 153 in
  let d := doy - (153 * mp + 2) / 5 + 1 in
  let m := if mp <? 10 then mp + 3 else mp - 9 in
  let y := yoe + era * 400 + (if m <=? 2 then 1 else 0) in
  (y, m, d).

(** [s.padStart(2, '0')] on the decimal string of [0 <= n]. *)
Definition padStart2 (n : Z) : string :=
  let s := string_of_Z n in
  if (String.length s <? 2)%nat then "0" ^^ s else s.

(** [s.slice(-2)]: the last two characters of [s]. *)
Definition slice_last2 (s : string) : string :=
  substring (String.length s - 2) 2 s.

(** [formatDateToLocal] (app.js, lines 487-504): [DD/MM/YY H(AM|PM)] in the
    host zone; [null] for a missing date. *)
Definition formatDateToLocal (tz : Z) (isoDate : option Z) : option string :=
  match isoDate with
  | None => None
  | Some date =>
      let local := date + tz in
      let '(fullYear, month, day) := civil_of_days (local / msPerDay) in
      let day := padStart2 day in
      let month := padStart2 month in
      let year := slice_last2 (string_of_Z fullYear) in
      let hours := (local mod msPerDay) / msPerHour in
      let ampm := if 12 <=? hours then "PM" else "AM" in
      let hours := hours mod 12 in
      let hours := if hours =? 0 then 12 else hours in
      Some (day ^^ "/" ^^ month ^^ "/" ^^ year ^^ " " ^^ string_of_Z hours ^^ ampm)
  end.

(** ** Data model (app.js, lines 8-37) *)

Module Entry.
(** A cache entry: [{bytes, count, timestamp, calculationDurationMs}],
    with [error] once an entry has been marked. *)
Record t := mk {
  bytes : option Z;
  count : option Z;
  timestamp : Z;
  calculationDurationMs : option Z;
  error : option string
}.
End Entry.

Module Sample.
(** One element of a size history: [{timestamp, bytes}]. *)
Record t := mk { timestamp : Z; bytes : Z }.
End Sample.

Module Cache.
(** [remoteCache] and [localCache]. *)
Record t := mk {
  data : JsMap.t Entry.t;
  lastUpdated : option Z;
  updateInProgress : bool;
  updateStartTime : option Z
}.

Definition init : t := mk JsMap.empty None false None.

Definition with_data (d : JsMap.t Entry.t) (c : t) : t :=
  mk d (lastUpdated c) (updateInProgress c) (updateStartTime c).
Definition with_lastUpdated (u : option Z) (c : t) : t :=
  mk (data c) u (updateInProgress c) (updateStartTime c).
Definition with_progress (b : bool) (st : option Z) (c : t) : t :=
  mk (data c) (lastUpdated c) b st.
End Cache.

(** A suspended activation of [updateRemoteCache], with the local variables
    that are live across the [await]. *)
Inductive RemoteTask : Type :=
| AwaitListing (startTime : Z)
| AwaitSize (startTime : Z) (remotes : list string) (i : nat) (remoteStartTime : Z).

(** The module-level variables of app.js, and the pending activations of
    [updateRemoteCache] in the order they were started. *)
Record State := mkState {
  remoteCache : Cache.t;
  localCache : Cache.t;
  remoteCacheTemp : JsMap.t Entry.t;
  localCacheTemp : JsMap.t Entry.t;
  localSizeHistory : JsMap.t (list Sample.t);
  tasks : list RemoteTask
}.

Definition initial : State :=
  mkState Cache.init Cache.init JsMap.empty JsMap.empty JsMap.empty [].

Definition with_remoteCache (c : Cache.t) (s : State) : State :=
  mkState c (localCache s) (remoteCacheTemp s) (localCacheTemp s)
          (localSizeHistory s) (tasks s).
Definition with_localCache (c : Cache.t) (s : State) : State :=
  mkState (remoteCache s) c (remoteCacheTemp s) (localCacheTemp s)
          (localSizeHistory s) (tasks s).
Definition with_remoteCacheTemp (d : JsMap.t Entry.t) (s : State) : State :=
  mkState (remoteCache s) (localCache s) d (localCacheTemp s)
          (localSizeHistory s) (tasks s).
Definition with_localCacheTemp (d : JsMap.t Entry.t) (s : State) : State :=
  mkState (remoteCache s) (localCache s) (remoteCacheTemp s) d
          (localSizeHistory s) (tasks s).
Definition with_localSizeHistory (h : JsMap.t (list Sample.t)) (s : State) : State :=
  mkState (remoteCache s) (localCache s) (remoteCacheTemp s) (localCacheTemp s)
          h (tasks s).
Definition with_tasks (ts : list RemoteTask) (s : State) : State :=
  mkState (remoteCache s) (localCache s) (remoteCacheTemp s) (localCacheTemp s)
          (localSizeHistory s) ts.

(** ** [getAvailableRemotes] (app.js, lines 96-112) *)

(** White space removed by [String.prototype.trim]: the code points
    [WhiteSpace] and [LineTerminator] of ECMA-262, seen through their UTF-8
    encodings.  In one byte: tab, line feed, vertical tab, form feed,
    carriage return and space. *)
Definition is_space (c : ascii) : bool :=
  match nat_of_ascii c with
  | 9%nat | 10%nat | 11%nat | 12%nat | 13%nat | 32%nat => true
  | _ => false
  end.

(** In two bytes: U+00A0 (C2 A0). *)
Definition is_space2 (c1 c2 : ascii) : bool :=
  Ascii.eqb c1 "194"%char && Ascii.eqb c2 "160"%char.

(** In three bytes: U+1680 (E1 9A 80), U+2000 to U+200A (E2 80 80 to
    E2 80 8A), U+2028 and U+2029 (E2 80 A8, E2 80 A9), U+202F (E2 80 AF),
    U+205F (E2 81 9F), U+3000 (E3 80 80) and U+FEFF (EF BB BF). *)
Definition is_space3 (c1 c2 c3 : ascii) : bool :=
  (Ascii.eqb c1 "225"%char && Ascii.eqb c2 "154"%char && Ascii.eqb c3 "128"%char) ||
  (Ascii.eqb c1 "226"%char && Ascii.eqb c2 "128"%char &&
   ((128 <=? Z.of_N (N_of_ascii c3)) && (Z.of_N (N_of_ascii c3) <=? 138) ||
    Ascii.eqb c3 "168"%char || Ascii.eqb c3 "169"%char || Ascii.eqb c3 "175"%char)) ||
  (Ascii.eqb c1 "226"%char && Ascii.eqb c2 "129"%char && Ascii.eqb c3 "159"%char) ||
  (Ascii.eqb c1 "227"%char && Ascii.eqb c2 "128"%char && Ascii.eqb c3 "128"%char) ||
  (Ascii.eqb c1 "239"%char && Ascii.eqb c2 "187"%char && Ascii.eqb c3 "191"%char).

(** [s] is the encoding of one white-space code point. *)
Definition white_space (s : string) : bool :=
  match s with
  | String c1 EmptyString => is_space c1
  | String c1 (String c2 EmptyString) => is_space2 c1 c2
  | String c1 (String c2 (String c3 EmptyString)) => is_space3 c1 c2 c3
  | _ => false
  end.

Fixpoint trimStart (s : string) : string :=
  match s with
  | EmptyString => EmptyString
  | String c1 s1 =>
      if is_space c1 then trimStart s1
      else
        match s1 with
        | EmptyString => s
        | String c2 s2 =>
            if is_space2 c1 c2 then trimStart s2
            else
              match s2 with
              | EmptyString => s
              | String c3 s3 => if is_space3 c1 c2 c3 then trimStart s3 else s
              end
        end
  end.

(** The white space at the end is removed from the last code point
    backwards: what is left of the tail never ends with white space, so
    the string ends with a white-space code point only when it is one. *)
Fixpoint trimEnd (s : string) : string :=
  match s with
  | EmptyString => EmptyString
  | String c s' =>
      let r := String c (trimEnd s') in
      if white_space r then EmptyString else r
  end.

Definition trim (s : string) : string := trimEnd (trimStart s).

(** [s.split('\n')] *)
Fixpoint split_lines (s : string) : list string :=
  match s with
  | EmptyString => [EmptyString]
  | String c s' =>
      if Ascii.eqb c "010"%char then EmptyString :: split_lines s'
      else match split_lines s' with
           | l :: ls => String c l :: ls
           | [] => [String c EmptyString]
           end
  end.

(** [s.replace(/:$/, '')]: a colon that ends the string is removed. *)
Fixpoint strip_colon (s : string) : string :=
  match s with
  | EmptyString => EmptyString
  | String c EmptyString => if Ascii.eqb c ":"%char then EmptyString else s
  | String c s' => String c (strip_colon s')
  end.

(** The list [getAvailableRemotes] resolves with, from the output of
    [rclone listremotes]. *)
Definition parse_remotes (stdout : string) : list string :=
  map (fun remote => strip_colon (trim remote))
      (filter (fun line => negb (String.length (trim line) =? 0)%nat)
              (split_lines stdout)).

(** ** [getRcloneSize] (app.js, lines 119-143) *)

Module SizeInfo.
(** The object [getRcloneSize] resolves with: the parsed output of
    [rclone size --json], or [{error, stdout, stderr}]. *)
Record t := mk {
  error : option string;
  bytes : option Z;
  count : option Z
}.
End SizeInfo.

(** What [await getRcloneSize(remotePath)] yields: an object, or [null]
    when the tool printed the JSON text [null]. *)
Inductive RcloneSize : Type :=
| SizeObject (sizeInfo : SizeInfo.t)
| SizeNull.

(** [!sizeInfo.error] *)
Definition no_error (sizeInfo : SizeInfo.t) : bool :=
  match SizeInfo.error sizeInfo with
  | None => true
  | Some msg => (String.length msg =? 0)%nat
  end.

(** [x || 0] on a number that may be absent. *)
Definition or_zero (x : option Z) : Z :=
  match x with Some v => v | None => 0 end.

(** ** [updateRemoteCache] (app.js, lines 165-238) *)

(** The [finally] block: the temporary map replaces the cache, is emptied,
    and the refresh marks are reset. *)
Definition remote_finally (s : State) : State :=
  let s := with_remoteCache
             (Cache.with_data (JsMap.copy (remoteCacheTemp s)) (remoteCache s)) s in
  let s := with_remoteCacheTemp (JsMap.clear (remoteCacheTemp s)) s in
  with_remoteCache (Cache.with_progress false None (remoteCache s)) s.

(** The activation at position [task] leaves the pending ones. *)
Fixpoint remove_nth {A} (n : nat) (l : list A) : list A :=
  match l, n with
  | [], _ => []
  | _ :: l', O => l'
  | x :: l', S n' => x :: remove_nth n' l'
  end.

Fixpoint replace_nth {A} (n : nat) (y : A) (l : list A) : list A :=
  match l, n with
  | [], _ => []
  | _ :: l', O => y :: l'
  | x :: l', S n' => x :: replace_nth n' y l'
  end.

(** From the call up to [await getAvailableRemotes()]: the temporary map is
    seeded with a copy of the cache. *)
Definition updateRemoteCache_begin (startTime : Z) (s : State) : State :=
  let s := with_remoteCacheTemp (JsMap.copy (Cache.data (remoteCache s))) s in
  with_tasks (tasks s ++ [AwaitListing startTime]) s.

(** The head of the [for] loop over [remotes], entered with the clock
    reading [now]: either the next [await getRcloneSize(remotePath)], or the
    code after the loop followed by the [finally] block. *)
Definition remote_loop (task : nat) (startTime : Z) (remotes : list string)
    (i : nat) (now : Z) (s : State) : State :=
  if (i <? List.length remotes)%nat then
    let remoteStartTime := now in
    with_tasks (replace_nth task (AwaitSize startTime remotes i remoteStartTime) (tasks s)) s
  else
    let endTime := now in
    let s := with_remoteCache (Cache.with_lastUpdated (Some endTime) (remoteCache s)) s in
    remote_finally (with_tasks (remove_nth task (tasks s)) s).

(** [getAvailableRemotes()] settles: a rejection goes to the outer [catch]
    and then to [finally]; a listing enters the loop. *)
Definition resume_listing (task : nat) (result : string + string) (now : Z)
    (s : State) : option State :=
  match nth_error (tasks s) task with
  | Some (AwaitListing startTime) =>
      match result with
      | inl _error => Some (remote_finally (with_tasks (remove_nth task (tasks s)) s))
      | inr stdout => Some (remote_loop task startTime (parse_remotes stdout) 0 now s)
      end
  | _ => None
  end.

(** [getRcloneSize(remotePath)] settles.  A result without [error] is
    stored in the temporary map under [remotePath]; a result with [error]
    is logged; [null] makes [sizeInfo.error] throw, which the inner [catch]
    logs.  The loop goes on in all three cases. *)
Definition resume_size (task : nat) (result : RcloneSize)
    (remoteEndTime stamp now : Z) (s : State) : option State :=
  match nth_error (tasks s) task with
  | Some (AwaitSize startTime remotes i remoteStartTime) =>
      let remote := nth i remotes "" in
      let remotePath := remote ^^ ":" in
      let durationMs := remoteEndTime - remoteStartTime in
      let s :=
        match result with
        | SizeObject sizeInfo =>
            if no_error sizeInfo then
              with_remoteCacheTemp
                (JsMap.set remotePath
                   (Entry.mk (Some (or_zero (SizeInfo.bytes sizeInfo)))
                             (Some (or_zero (SizeInfo.count sizeInfo)))
                             stamp (Some durationMs) None)
                   (remoteCacheTemp s)) s
            else s
        | SizeNull => s
        end in
      Some (remote_loop task startTime remotes (S i) now s)
  | _ => None
  end.

(** ** Size history (app.js, lines 291-310 and 379-385) *)

Definition thirtyDays : Z := 30 * 24 * 60 * 60 * 1000.

(** [history[history.length - 1]] *)
Definition lastEntry (history : list Sample.t) : option Sample.t :=
  nth_error history (List.length history - 1).

(** [!lastEntry || lastEntry.bytes !== sizeBytes] *)
Definition size_changed (history : list Sample.t) (sizeBytes : Z) : bool :=
  match lastEntry history with
  | None => true
  | Some e => negb (Sample.bytes e =? sizeBytes)
  end.

(** [history.filter(entry => new Date(entry.timestamp) > thirtyDaysAgo)] *)
Definition filteredHistory (currentTime : Z) (history : list Sample.t) : list Sample.t :=
  let thirtyDaysAgo := currentTime - thirtyDays in
  filter (fun entry => thirtyDaysAgo <? Sample.timestamp entry) history.

(** [if (!h.has(k)) h.set(k, [])] *)
Definition ensure_history (k : string) (h : JsMap.t (list Sample.t))
  : JsMap.t (list Sample.t) :=
  if JsMap.has k h then h else JsMap.set k [] h.

Definition history_of (k : string) (h : JsMap.t (list Sample.t)) : list Sample.t :=
  match JsMap.get k h with Some a => a | None => [] end.

(** The history update of [updateLocalCache] (lines 291-310). *)
Definition record_size (localDir : string) (currentTime sizeBytes : Z)
    (h : JsMap.t (list Sample.t)) : JsMap.t (list Sample.t) :=
  let h := ensure_history localDir h in
  let history := history_of localDir h in
  if size_changed history sizeBytes then
    let history := history ++ [Sample.mk currentTime sizeBytes] in
    JsMap.set localDir (filteredHistory currentTime history) h
  else h.

(** The history update of [addToLocalCache] (lines 379-385) and of the
    fallback of the compare handler (lines 547-553). *)
Definition push_size (directoryPath : string) (time sizeBytes : Z)
    (h : JsMap.t (list Sample.t)) : JsMap.t (list Sample.t) :=
  let h := ensure_history directoryPath h in
  JsMap.set directoryPath (history_of directoryPath h ++ [Sample.mk time sizeBytes]) h.

(** ** [updateLocalCache] (app.js, lines 244-350) *)

Module DirObs.
(** What one iteration of the loop observes for [localDir]. *)
Record t := mk {
  dirStartTime : Z;
  existsSync : bool;
  getDirectorySize : string + Z;   (* rejection message, or size *)
  dirEndTime : Z;
  currentTime : Z;
  errorTime : Z                    (* [new Date()] of an error mark *)
}.
End DirObs.

Module LocalObs.
Record t := mk {
  startTime : Z;
  dir : string -> DirObs.t;
  endTime : Z
}.
End LocalObs.

(** [{...old, error: message, timestamp: time}] *)
Definition spread_error (old : option Entry.t) (message : string) (time : Z) : Entry.t :=
  match old with
  | Some e => Entry.mk (Entry.bytes e) (Entry.count e) time
                       (Entry.calculationDurationMs e) (Some message)
  | None => Entry.mk None None time None (Some message)
  end.

(** [localCache.data.set(localDir, {...localCache.data.get(localDir), error, timestamp})] *)
Definition mark_error (localDir message : string) (time : Z) (s : State) : State :=
  let d := Cache.data (localCache s) in
  with_localCache
    (Cache.with_data (JsMap.set localDir (spread_error (JsMap.get localDir d) message time) d)
                     (localCache s)) s.

(** The body of the [for] loop for one directory. *)
Definition local_dir (obs : string -> DirObs.t) (s : State) (localDir : string) : State :=
  let o := obs localDir in
  if negb (DirObs.existsSync o) then
    mark_error localDir "Directory no longer exists" (DirObs.errorTime o) s
  else
    match DirObs.getDirectorySize o with
    | inr sizeBytes =>
        let durationMs := DirObs.dirEndTime o - DirObs.dirStartTime o in
        let currentTime := DirObs.currentTime o in
        let s := with_localCacheTemp
                   (JsMap.set localDir
                      (Entry.mk (Some sizeBytes) None currentTime (Some durationMs) None)
                      (localCacheTemp s)) s in
        with_localSizeHistory
          (record_size localDir currentTime sizeBytes (localSizeHistory s)) s
    | inl message =>
        mark_error localDir message (DirObs.errorTime o) s
    end.

Definition local_finally (s : State) : State :=
  let s := with_localCache
             (Cache.with_data (JsMap.copy (localCacheTemp s)) (localCache s)) s in
  let s := with_localCacheTemp (JsMap.clear (localCacheTemp s)) s in
  with_localCache (Cache.with_progress false None (localCache s)) s.

Definition updateLocalCache (obs : LocalObs.t) (s : State) : State :=
  if (JsMap.size (Cache.data (localCache s)) =? 0)%nat then
    local_finally s                                   (* [return] inside [try] *)
  else
    let localDirs := JsMap.keys (Cache.data (localCache s)) in
    let s := fold_left (local_dir (LocalObs.dir obs)) localDirs s in
    let s := with_localCache
               (Cache.with_lastUpdated (Some (LocalObs.endTime obs)) (localCache s)) s in
    local_finally s.

(** ** [addToLocalCache] (app.js, lines 357-394) *)

Module AddObs.
Record t := mk {
  existsSync : bool;
  startTime : Z;
  getDirectorySize : string + Z;
  endTime : Z
}.
End AddObs.

(** The result is the message of the error thrown, or [dirInfo]. *)
Definition addToLocalCache (directoryPath : string) (obs : AddObs.t) (s : State)
  : (string + Entry.t) * State :=
  if negb (AddObs.existsSync obs) then
    (inl ("Directory does not exist: " ^^ directoryPath), s)
  else
    match AddObs.getDirectorySize obs with
    | inl message => (inl message, s)
    | inr sizeBytes =>
        let endTime := AddObs.endTime obs in
        let durationMs := endTime - AddObs.startTime obs in
        let dirInfo := Entry.mk (Some sizeBytes) None endTime (Some durationMs) None in
        let s := with_localCache
                   (Cache.with_data (JsMap.set directoryPath dirInfo (Cache.data (localCache s)))
                                    (localCache s)) s in
        let s := with_localSizeHistory
                   (push_size directoryPath endTime sizeBytes (localSizeHistory s)) s in
        (inr dirInfo, s)
    end.

(** ** [getLastModified] (app.js, lines 456-480) *)

(** The loop [for (i = start; i > 0; i--)]: the hour of the first [i] found
    with [history[i].bytes !== history[i-1].bytes].  The indices stay below
    [history.length]. *)
Fixpoint scan_change (tz : Z) (history : list Sample.t) (i : nat) : option Z :=
  match i with
  | O => None
  | S j =>
      match nth_error history i, nth_error history j with
      | Some cur, Some prev =>
          if negb (Sample.bytes cur =? Sample.bytes prev)
          then Some (setMinutes000 tz (Sample.timestamp cur))
          else scan_change tz history j
      | _, _ => scan_change tz history j
      end
  end.

Definition lastModified_of (tz : Z) (history : list Sample.t) : option Z :=
  if (List.length history =? 0)%nat then None
  else
    match scan_change tz history (List.length history - 1) with
    | Some changeTime => Some changeTime
    | None =>
        match history with
        | first :: _ => Some (setMinutes000 tz (Sample.timestamp first))
        | [] => None
        end
    end.

Definition getLastModified (tz : Z) (h : JsMap.t (list Sample.t)) (directoryPath : string)
  : option Z :=
  match JsMap.get directoryPath h with
  | None => None
  | Some history => lastModified_of tz history
  end.

(** ** [POST /api/compare] (app.js, lines 509-640) *)

Module Request.
(** The body of the request; a missing property is [None].  [forceDirect]
    is read from the body and not used. *)
Record t := mk {
  remotePath : option string;
  localPath : option string;
  forceDirect : option bool
}.
End Request.

Module CompareObs.
Record t := mk {
  existsSync : bool;                 (* line 520 *)
  add : AddObs.t;                    (* inside [addToLocalCache] *)
  getDirectorySize : string + Z;     (* the fallback, line 544 *)
  pushTime : Z;                      (* [new Date()] of line 551 *)
  timestamp : Z;                     (* [new Date()] of line 602 *)
  floorLog : Z -> Z                  (* the index of line 156, in [formatBytes] *)
}.
End CompareObs.

Module LocalView.
Record t := mk { bytes : option Z; formatted : string; cachedAt : option Z }.
End LocalView.

Module RemoteView.
Record t := mk { bytes : option Z; formatted : string; count : option Z; cachedAt : Z }.
End RemoteView.

Module RefreshStatus.
Record t := mk {
  lastFullUpdate : option Z;
  updateInProgress : bool;
  updateStartTime : option Z
}.
End RefreshStatus.

Module CacheMiss.
(** The body sent with status 404. *)
Record t := mk {
  status : string;
  message : string;
  remotePath : string;
  localPath : string;
  lastModified : option Z;
  lastModifiedFormatted : option string;
  local : LocalView.t;
  cacheStatus : RefreshStatus.t
}.
End CacheMiss.

Module Difference.
(** [bytes] is [None] where the number is [NaN] or infinite, sent as
    [null]. *)
Record t := mk { bytes : option Z; formatted : string; direction : string }.
End Difference.

Module SyncStatus.
(** [percentageSynced] in hundredths; [None] where the number is not
    finite, sent as [null]. *)
Record t := mk { percentageSynced : option Z; isSynced : bool }.
End SyncStatus.

Module LastUpdates.
Record t := mk { remoteLastUpdate : option Z; localLastUpdate : option Z }.
End LastUpdates.

Module Comparison.
(** The body sent with status 200. *)
Record t := mk {
  timestamp : Z;
  remotePath : string;
  localPath : string;
  lastModified : option Z;
  lastModifiedFormatted : option string;
  remote : RemoteView.t;
  local : LocalView.t;
  difference : Difference.t;
  syncStatus : SyncStatus.t;
  cacheStatus : LastUpdates.t
}.
End Comparison.

Inductive Response : Type :=
| Status400 (error : string)
| Status404 (body : CacheMiss.t)
| Status200 (body : Comparison.t)
| Status500 (error : string).

(** [!x] on a string property of the body. *)
Definition missing (x : option string) : bool :=
  match x with
  | None => true
  | Some v => (String.length v =? 0)%nat
  end.

Definition dquote : string := String (ascii_of_nat 34) EmptyString.

(** [remoteSizeBytes - localSizeBytes], the subtraction of two binary64
    numbers; [undefined] makes it [NaN]. *)
Definition number_sub (a b : option Z) : spec_float :=
  SFsub prec emax (number_of_opt a) (number_of_opt b).

(** [difference > 0 ? 'remote-larger' : difference < 0 ? 'local-larger' : 'equal'] *)
Definition direction_of (difference : spec_float) : string :=
  if SFltb (S754_zero false) difference then "remote-larger"
  else if SFltb difference (S754_zero false) then "local-larger"
  else "equal".

(** [parseFloat(remoteSizeBytes > 0
       ? ((localSizeBytes / remoteSizeBytes) * 100).toFixed(2) : 0)],
    the quotient and the product in binary64. *)
Definition percentageSynced_of (localSizeBytes remoteSizeBytes : option Z) : option Z :=
  match remoteSizeBytes with
  | Some r =>
      if 0 <? r then
        match localSizeBytes with
        | Some l =>
            toFixed2_float
              (SFmul prec emax
                 (SFdiv prec emax (number_of_Z l) (number_of_Z r))
                 (number_of_Z 100))
        | None => None
        end
      else Some 0
  | None => Some 0
  end.

(** [Math.abs(difference) === 0] *)
Definition isSynced_of (difference : spec_float) : bool :=
  SFeqb (SFabs difference) (S754_zero false).

(** Lines 528-555: the cached entry, or the entry just added, or after a
    failed insertion the size computed directly.  The result is
    [(localSizeData, localSizeBytes)], or the message of the error thrown
    by the fallback. *)
Definition resolve_local (localPath : string) (obs : CompareObs.t) (s : State)
  : (string + option Entry.t * option Z) * State :=
  if JsMap.has localPath (Cache.data (localCache s)) then
    let localSizeData := JsMap.get localPath (Cache.data (localCache s)) in
    (inr (localSizeData,
          match localSizeData with Some e => Entry.bytes e | None => None end), s)
  else
    match addToLocalCache localPath (CompareObs.add obs) s with
    | (inr dirInfo, s) => (inr (Some dirInfo, Entry.bytes dirInfo), s)
    | (inl _localError, s) =>
        match CompareObs.getDirectorySize obs with
        | inl message => (inl message, s)
        | inr localSizeBytes =>
            (inr (None, Some localSizeBytes),
             with_localSizeHistory
               (push_size localPath (CompareObs.pushTime obs) localSizeBytes
                          (localSizeHistory s)) s)
        end
    end.

Definition local_view (floorLog : Z -> Z) (localSizeData : option Entry.t)
    (localSizeBytes : option Z) : LocalView.t :=
  LocalView.mk localSizeBytes (formatBytes_opt floorLog localSizeBytes)
               (option_map Entry.timestamp localSizeData).

Definition compare (tz : Z) (req : Request.t) (obs : CompareObs.t) (s : State)
  : Response * State :=
  if missing (Request.remotePath req) || missing (Request.localPath req) then
    (Status400 "Both remotePath and localPath are required", s)
  else
    let remotePath := match Request.remotePath req with Some p => p | None => "" end in
    let localPath := match Request.localPath req with Some p => p | None => "" end in
    if negb (CompareObs.existsSync obs) then
      (Status400 ("Local path does not exist: " ^^ localPath), s)
    else
      match resolve_local localPath obs s with
      | (inl message, s) => (Status500 message, s)
      | (inr (localSizeData, localSizeBytes), s) =>
          let lastModified := getLastModified tz (localSizeHistory s) localPath in
          let lastModifiedFormatted := formatDateToLocal tz lastModified in
          match JsMap.get remotePath (Cache.data (remoteCache s)) with
          | None =>
              (Status404
                 (CacheMiss.mk
                    "cache-miss"
                    ("Remote path " ^^ dquote ^^ remotePath ^^ dquote ^^
                     " not found in cache. Use /api/cache/refresh to update the cache or set forceDirect=true in your request to fetch directly.")
                    remotePath localPath lastModified lastModifiedFormatted
                    (local_view (CompareObs.floorLog obs) localSizeData localSizeBytes)
                    (RefreshStatus.mk
                       (Cache.lastUpdated (remoteCache s))
                       (Cache.updateInProgress (remoteCache s))
                       (Cache.updateStartTime (remoteCache s)))), s)
          | Some remoteSizeData =>
              let remoteSizeBytes := Entry.bytes remoteSizeData in
              let difference := number_sub remoteSizeBytes localSizeBytes in
              let percentageSynced := percentageSynced_of localSizeBytes remoteSizeBytes in
              (Status200
                 (Comparison.mk
                    (CompareObs.timestamp obs)
                    remotePath localPath lastModified lastModifiedFormatted
                    (RemoteView.mk remoteSizeBytes
                                   (formatBytes_opt (CompareObs.floorLog obs) remoteSizeBytes)
                                   (Entry.count remoteSizeData)
                                   (Entry.timestamp remoteSizeData))
                    (local_view (CompareObs.floorLog obs) localSizeData localSizeBytes)
                    (Difference.mk (integer_of_number difference)
                                   (formatBytes_opt (CompareObs.floorLog obs)
                                      (integer_of_number (SFabs difference)))
                                   (direction_of difference))
                    (SyncStatus.mk percentageSynced (isSynced_of difference))
                    (LastUpdates.mk (Cache.lastUpdated (remoteCache s))
                                    (Cache.lastUpdated (localCache s)))), s)
          end
      end.

(** ** The event loop: timers, requests and settled child processes *)

(** [c.updateInProgress = true; c.updateStartTime = time] *)
Definition mark_started (time : Z) (c : Cache.t) : Cache.t :=
  Cache.with_progress true (Some time) c.

(** The callback of a timer on the remote cache (lines 405-409 and
    426-434): the marks are set and the cycle is started. *)
Definition start_remote (updateStartTime startTime : Z) (s : State) : State :=
  updateRemoteCache_begin startTime
    (with_remoteCache (mark_started updateStartTime (remoteCache s)) s).

(** The callback of a timer on the local cache (lines 412-416 and
    440-448). *)
Definition start_local (updateStartTime : Z) (obs : LocalObs.t) (s : State) : State :=
  updateLocalCache obs
    (with_localCache (mark_started updateStartTime (localCache s)) s).

(** [POST /api/cache/refresh] (lines 645-708), its effect on the state. *)
Definition refresh (remoteTime startTime localTime : Z) (obs : LocalObs.t) (s : State)
  : State :=
  let s :=
    if Cache.updateInProgress (remoteCache s) then s
    else start_remote remoteTime startTime s in
  if Cache.updateInProgress (localCache s) then s
  else if (0 <? JsMap.size (Cache.data (localCache s)))%nat then
    start_local localTime obs s
  else s.

Inductive Event : Type :=
| InitialUpdate (remoteTime startTime localTime : Z) (obs : LocalObs.t)
| RemoteInterval (nextUpdateTime startTime : Z)
| LocalInterval (nextUpdateTime : Z) (obs : LocalObs.t)
| RefreshRequest (remoteTime startTime localTime : Z) (obs : LocalObs.t)
| CompareRequest (req : Request.t) (obs : CompareObs.t)
| ListingSettled (task : nat) (result : string + string) (now : Z)
| SizeSettled (task : nat) (result : RcloneSize) (remoteEndTime stamp now : Z).

(** One turn of the event loop; [None] when the event cannot occur in [s]
    (no pending activation at [task] awaits that result). *)
Definition step (tz : Z) (e : Event) (s : State) : option State :=
  match e with
  | InitialUpdate remoteTime startTime localTime obs =>
      Some (start_local localTime obs (start_remote remoteTime startTime s))
  | RemoteInterval nextUpdateTime startTime =>
      Some (start_remote nextUpdateTime startTime s)
  | LocalInterval nextUpdateTime obs =>
      Some (start_local nextUpdateTime obs s)
  | RefreshRequest remoteTime startTime localTime obs =>
      Some (refresh remoteTime startTime localTime obs s)
  | CompareRequest req obs => Some (snd (compare tz req obs s))
  | ListingSettled task result now => resume_listing task result now s
  | SizeSettled task result remoteEndTime stamp now =>
      resume_size task result remoteEndTime stamp now s
  end.

Fixpoint run (tz : Z) (es : list Event) (s : State) : option State :=
  match es with
  | [] => Some s
  | e :: es' =>
      match step tz e s with
      | Some s' => run tz es' s'
      | None => None
      end
  end.

(** The states the service can be in. *)
Definition reachable (tz : Z) (s : State) : Prop :=
  exists es, run tz es initial = Some s.

(** ** Predicates used in the statements *)




(** [x] is the binary64 number that equals the integer [c], with
    [Z.abs c <= 2 ^ 53]: its sign, its exponent and its mantissa [q], the
    last one given on the scale [2 ^ 60] to stay within integers. *)
Definition represents (x : spec_float) (c : Z) : Prop :=
  match c with
  | 0 => x = S754_zero false
  | _ => exists q : positive,
      x = S754_finite (c <? 0) q (Z.log2 (Z.abs c) - 52) /\
      Z.pos q * 2 ^ (Z.log2 (Z.abs c) - 52 + 60) = Z.abs c * 2 ^ 60
  end.

(** The directory is there and [getDirectorySize] resolves. *)
Definition probe_succeeds (o : DirObs.t) : Prop :=
  DirObs.existsSync o = true /\ exists sizeBytes, DirObs.getDirectorySize o = inr sizeBytes.

(** ** Sample runs *)

Module Scenario.

Definition LF : string := String "010"%char EmptyString.

(** What a local cycle would observe: every directory is missing.  With an
    empty local cache no directory is visited. *)
Definition no_dirs : LocalObs.t :=
  LocalObs.mk 0 (fun _ => DirObs.mk 0 false (inl "ENOENT") 0 0 0) 0.

(** A manual refresh that lists one remote, [gdrive], of 5 GiB. *)
Definition remote_cycle : list Event :=
  [ RefreshRequest 1000 1001 1002 no_dirs;
    ListingSettled 0 (inr ("gdrive:" ^^ LF)) 1500;
    SizeSettled 0 (SizeObject (SizeInfo.mk None (Some 5368709120) (Some 150)))
                2500 2501 2502 ].

Definition after_remote_cycle : State :=
  mkState
    (Cache.mk [("gdrive:", Entry.mk (Some 5368709120) (Some 150) 2501 (Some 1000) None)]
              (Some 2502) false None)
    Cache.init [] [] [] [].

(** [/data] exists and holds 5 GiB. *)
Definition probe_data : CompareObs.t :=
  CompareObs.mk true (AddObs.mk true 3000 (inr 5368709120) 3010) (inr 5368709120)
                3020 3030 exact_log1024.

(** [/data] exists and cannot be read. *)
Definition unreadable_data : CompareObs.t :=
  CompareObs.mk true (AddObs.mk true 3000 (inl "EACCES: permission denied") 3010)
                (inl "EACCES: permission denied") 3020 3030 exact_log1024.


Definition compare_subpath : Request.t :=
  Request.mk (Some "gdrive:backup/photos") (Some "/data") None.

End Scenario.

Module LocalScenario.

(** [/data] holds 100 bytes when it is first compared. *)
Definition first_probe : CompareObs.t :=
  CompareObs.mk true (AddObs.mk true 3000 (inr 100) 3010) (inr 100) 3020 3030
                exact_log1024.

(** During the next local cycle [/data] is not there (an unmounted
    volume). *)
Definition data_missing : LocalObs.t :=
  LocalObs.mk 4000 (fun _ => DirObs.mk 4001 false (inl "ENOENT") 4002 4003 4004) 4005.

Definition forty_days : Z := 40 * 24 * 60 * 60 * 1000.

(** Forty days later [/data] is compared again and still holds 100
    bytes. *)
Definition second_probe : CompareObs.t :=
  CompareObs.mk true
    (AddObs.mk true (forty_days + 3000) (inr 100) (forty_days + 3010))
    (inr 100) (forty_days + 3020) (forty_days + 3030) exact_log1024.

Definition compare_data : Request.t :=
  Request.mk (Some "gdrive:") (Some "/data") None.

(** The traversal inside [addToLocalCache] fails on a file that vanishes
    while it runs, and the direct computation that follows finds 100
    bytes. *)
Definition transient_failure (time : Z) : CompareObs.t :=
  CompareObs.mk true
    (AddObs.mk true time (inl "ENOENT: no such file or directory") (time + 1))
    (inr 100) (time + 2) (time + 3) exact_log1024.

End LocalScenario.

Fixpoint has_colon (s : string) : bool :=
  match s with
  | EmptyString => false
  | String c s' => Ascii.eqb c ":"%char || has_colon s'
  end.

(** A key of the form [name:], the root of the remote [name]. *)
Definition bare_root (k : string) : Prop :=
  exists name, has_colon name = false /\ k = name ^^ ":".

(** What [rclone listremotes] prints are remote names, each followed by a
    colon: a name holds no colon. *)
Definition lists_remote_names (e : Event) : Prop :=
  match e with
  | ListingSettled _ (inr stdout) _ =>
      Forall (fun remote => has_colon remote = false) (parse_remotes stdout)
  | _ => True
  end.

Definition task_names (t : RemoteTask) : Prop :=
  match t with
  | AwaitListing _ => True
  | AwaitSize _ remotes _ _ => Forall (fun remote => has_colon remote = false) remotes
  end.

Definition remote_keys_inv (s : State) : Prop :=
  Forall bare_root (JsMap.keys (Cache.data (remoteCache s))) /\
  Forall bare_root (JsMap.keys (remoteCacheTemp s)) /\
  Forall task_names (tasks s).

(** The part of the state the remote cycle works on. *)
Definition remote_part (s : State) : Cache.t * JsMap.t Entry.t * list RemoteTask :=
  (remoteCache s, remoteCacheTemp s, tasks s).

(** [addToLocalCache] finds the directory and measures it. *)
Definition add_succeeds (o : AddObs.t) : Prop :=
  AddObs.existsSync o = true /\ exists sizeBytes, AddObs.getDirectorySize o = inr sizeBytes.

(** The handler obtains a local size: from the cache, from the on-demand
    insertion, or from the direct computation that follows a failed
    insertion. *)
Definition local_resolves (localPath : string) (obs : CompareObs.t) (s : State) : Prop :=
  JsMap.has localPath (Cache.data (localCache s)) = true \/
  add_succeeds (CompareObs.add obs) \/
  exists sizeBytes, CompareObs.getDirectorySize obs = inr sizeBytes.

(** Events that leave the remote cycle alone while the remote cache is
    marked as being updated: the local timer, a comparison, and the manual
    refresh (which then skips the remote cache). *)
Definition remote_quiet (e : Event) : bool :=
  match e with
  | LocalInterval _ _ | CompareRequest _ _ | RefreshRequest _ _ _ _ => true
  | _ => false
  end.

(** Events that call [updateRemoteCache] in state [s]. *)
Definition starts_remote (e : Event) (s : State) : Prop :=
  match e with
  | InitialUpdate _ _ _ _ | RemoteInterval _ _ => True
  | RefreshRequest _ _ _ _ => Cache.updateInProgress (remoteCache s) = false
  | _ => False
  end.

(** A settled child process: the event resumes an activation of
    [updateRemoteCache]. *)
Definition settles (e : Event) : Prop :=
  match e with
  | ListingSettled _ _ _ | SizeSettled _ _ _ _ _ => True
  | _ => False
  end.

(** The remote cache is not marked as being updated. *)
Definition marks_cleared (c : Cache.t) : Prop :=
  Cache.updateInProgress c = false /\ Cache.updateStartTime c = None.

(** The event that delivers one result of [getRcloneSize] to the activation
    at [task], with the three clock readings that follow it. *)
Definition size_event (task : nat) (x : RcloneSize * (Z * Z * Z)) : Event :=
  let '(result, (remoteEndTime, stamp, now)) := x in
  SizeSettled task result remoteEndTime stamp now.

(** An entry that carries a byte count. *)
Definition sized (e : Entry.t) : Prop := exists b, Entry.bytes e = Some b.

Definition values {V} (m : JsMap.t V) : list V := map snd m.

(** Every cached entry carries a byte count. *)
Definition sized_inv (s : State) : Prop :=
  Forall sized (values (Cache.data (remoteCache s))) /\
  Forall sized (values (remoteCacheTemp s)) /\
  Forall sized (values (Cache.data (localCache s))) /\
  Forall sized (values (localCacheTemp s)).

(** ** [getDirectorySize] (app.js, lines 47-90) *)

(** What the file system holds at a path, as [fs.statSync] and
    [fs.readdirSync] show it: an entry that is not a directory, with its
    [stats.size]; a directory with the entries [readdirSync] lists; a
    directory [readdirSync] throws on; an entry [statSync] throws on. *)
#[warnings="-register-all"]
Inductive FsNode : Type :=
| RegularFile (size : Z)
| Directory (files : list (string * FsNode))
| UnreadableDirectory
| StatFails.

(** The sizes of all entries under a path that are not directories. *)
Fixpoint file_sizes (node : FsNode) : list Z :=
  match node with
  | RegularFile size => [size]
  | Directory files =>
      (fix under (files : list (string * FsNode)) : list Z :=
         match files with
         | [] => []
         | (_, child) :: rest => file_sizes child ++ under rest
         end) files
  | _ => []
  end.

(** Every entry under the path can be [statSync]ed and every directory
    under it listed. *)
Fixpoint traversable (node : FsNode) : bool :=
  match node with
  | RegularFile _ => true
  | Directory files =>
      (fix all (files : list (string * FsNode)) : bool :=
         match files with
         | [] => true
         | (_, child) :: rest => traversable child && all rest
         end) files
  | UnreadableDirectory => false
  | StatFails => false
  end.

Definition is_directory (node : FsNode) : bool :=
  match node with Directory _ => true | _ => false end.

Definition sum_sizes (l : list Z) : Z := fold_right Z.add 0 l.

(** The nesting depth of a tree: one more than that of the deepest
    entry of a directory, [0] for anything else. *)
Fixpoint depth (node : FsNode) : nat :=
  match node with
  | Directory files =>
      S ((fix deepest (files : list (string * FsNode)) : nat :=
            match files with
            | [] => O
            | (_, child) :: rest => Nat.max (depth child) (deepest rest)
            end) files)
  | _ => O
  end.

(** The [then] callbacks that wait for the subdirectories of one
    directory, in the order they will run.  [getDirectorySize] makes only
    synchronous file-system calls, so the promise of a subdirectory that
    lists no directory is resolved inside its executor, before [then] is
    called on it, and the promise of any other subdirectory when the last
    callback of its own subdirectories has run.  Microtasks run first-in
    first-out: the callbacks of one directory run by increasing depth of
    the subdirectory, and in listing order among subdirectories of equal
    depth. *)
Fixpoint enqueue {A} (d : nat) (size : A) (pending : list (nat * A)) : list (nat * A) :=
  match pending with
  | [] => [(d, size)]
  | (d', size') :: rest =>
      if (d <? d')%nat then (d, size) :: pending
      else (d', size') :: enqueue d size rest
  end.

(** [files.forEach(...)] (lines 60-85), with [getSize] for the recursive
    call: each entry is [statSync]ed; the size of an entry that is not a
    directory is added to [totalSize] at once, in binary64; the size of a
    subdirectory is added by its callback, later.  A [statSync] that throws
    and a subdirectory whose promise is rejected both reject the promise. *)
Fixpoint forEach (getSize : FsNode -> option spec_float) (files : list (string * FsNode))
    (totalSize : spec_float) (pending : list (nat * spec_float))
  : option (spec_float * list (nat * spec_float)) :=
  match files with
  | [] => Some (totalSize, pending)
  | (file, stats) :: rest =>
      match stats with
      | StatFails => None
      | RegularFile size =>
          forEach getSize rest (SFadd prec emax totalSize (number_of_Z size)) pending
      | _ =>
          match getSize stats with
          | Some size => forEach getSize rest totalSize (enqueue (depth stats) size pending)
          | None => None
          end
      end
  end.

(** The callbacks run: each adds the size of its subdirectory. *)
Definition settle (totalSize : spec_float) (pending : list (nat * spec_float)) : spec_float :=
  fold_left (fun total settled => SFadd prec emax total (snd settled)) pending totalSize.

(** The number the promise of [getDirectorySize(directoryPath)] is resolved
    with, [None] when it is rejected (the reason is left out).  The path
    itself is handed to [readdirSync] without a [statSync]: on anything but
    a directory that can be listed the promise is rejected.  [totalSize]
    starts at [0]; the promise is resolved with it once every entry has
    been counted, that is when the last callback has run (or at the end of
    [forEach] when no subdirectory is listed, and at once for an empty
    directory). *)
Fixpoint getDirectorySize (directoryPath : FsNode) : option spec_float :=
  match directoryPath with
  | Directory files =>
      match forEach getDirectorySize files (S754_zero false) [] with
      | Some (totalSize, pending) => Some (settle totalSize pending)
      | None => None
      end
  | _ => None
  end.

(** A pending callback, with the size it will add given as an integer. *)
Definition exact_pending (x : nat * Z) : nat * spec_float := (fst x, number_of_Z (snd x)).

(** ** The output of [rclone listremotes] *)

Definition LF : string := String "010"%char EmptyString.

Fixpoint all_space (s : string) : bool :=
  match s with
  | EmptyString => true
  | String c s' => is_space c && all_space s'
  end.

Fixpoint has_line_feed (s : string) : bool :=
  match s with
  | EmptyString => false
  | String c s' => Ascii.eqb c "010"%char || has_line_feed s'
  end.

(** [s] begins with a white-space code point. *)
Definition begins_with_space (s : string) : bool :=
  match s with
  | EmptyString => false
  | String c1 s1 =>
      is_space c1 ||
      match s1 with
      | EmptyString => false
      | String c2 s2 =>
          is_space2 c1 c2 ||
          match s2 with
          | EmptyString => false
          | String c3 _ => is_space3 c1 c2 c3
          end
      end
  end.

(** A name that a line of the listing can carry: it holds no line feed and
    does not begin with white space. *)
Definition listable (name : string) : bool :=
  negb (has_line_feed name) && negb (begins_with_space name).

(** The listing of [names]: each name followed by a colon, by the padding
    [pad] (nothing, or a carriage return, or blanks) and by a line feed. *)
Fixpoint listremotes_output (pad : string) (names : list string) : string :=
  match names with
  | [] => EmptyString
  | name :: rest => name ^^ ":" ^^ pad ^^ LF ^^ listremotes_output pad rest
  end.

(** ** A remote cycle as a whole *)

(** [getRcloneSize] gave a size and no error. *)
Definition size_obtained (result : RcloneSize) : bool :=
  match result with
  | SizeObject sizeInfo => no_error sizeInfo
  | SizeNull => false
  end.

(** What one iteration of the loop of [updateRemoteCache] does to the
    temporary map: the iteration for [remote] was entered at
    [remoteStartTime] and is handed the result and the clock readings
    [x]. *)
Definition store_size (remote : string) (remoteStartTime : Z)
    (x : RcloneSize * (Z * Z * Z)) (temp : JsMap.t Entry.t) : JsMap.t Entry.t :=
  let '(result, (remoteEndTime, stamp, _)) := x in
  match result with
  | SizeObject sizeInfo =>
      if no_error sizeInfo then
        JsMap.set (remote ^^ ":")
          (Entry.mk (Some (or_zero (SizeInfo.bytes sizeInfo)))
                    (Some (or_zero (SizeInfo.count sizeInfo)))
                    stamp (Some (remoteEndTime - remoteStartTime)) None)
          temp
      else temp
  | SizeNull => temp
  end.

(** The loop over [remotes] with one result for each, entered at [now]:
    the temporary map it leaves, and the time read after the last
    iteration. *)
Fixpoint probe_all (remotes : list string) (sizes : list (RcloneSize * (Z * Z * Z)))
    (now : Z) (temp : JsMap.t Entry.t) : JsMap.t Entry.t * Z :=
  match remotes, sizes with
  | remote :: remotes', x :: sizes' =>
      probe_all remotes' sizes' (snd (snd x)) (store_size remote now x temp)
  | _, _ => (temp, now)
  end.

(** An entry written by a probe that gave a size. *)
Definition probed_entry (e : Entry.t) : Prop :=
  Entry.error e = None /\ exists b, Entry.bytes e = Some b.

(** ** The two stores *)

(** The part of the state the local cycle and the compare handler work
    on. *)
Definition local_part (s : State)
  : Cache.t * JsMap.t Entry.t * JsMap.t (list Sample.t) :=
  (localCache s, localCacheTemp s, localSizeHistory s).

(** Events of the remote cycle: its timer and its settled child
    processes. *)
Definition remote_event (e : Event) : bool :=
  match e with
  | RemoteInterval _ _ | ListingSettled _ _ _ | SizeSettled _ _ _ _ _ => true
  | _ => false
  end.

(** Events that only work on the local store: the local timer and the
    comparisons. *)
Definition local_event (e : Event) : bool :=
  match e with
  | LocalInterval _ _ | CompareRequest _ _ => true
  | _ => false
  end.

(** No activation of [updateRemoteCache] is pending and nothing of a cycle
    is left behind. *)
Definition remote_at_rest (s : State) : Prop :=
  marks_cleared (remoteCache s) /\ remoteCacheTemp s = [].

Definition local_at_rest (s : State) : Prop :=
  marks_cleared (localCache s) /\ localCacheTemp s = [].

(** Between two turns of the event loop: the local store is at rest, and
    so is the remote store when no activation is pending. *)
Definition rest_inv (s : State) : Prop :=
  (tasks s = [] -> remote_at_rest s) /\ local_at_rest s.

(** ** What a local cycle publishes *)

(** The size one iteration of the loop of [updateLocalCache] obtains:
    nothing when the directory is gone or [getDirectorySize] rejects. *)
Definition probe_result (o : DirObs.t) : option Z :=
  if DirObs.existsSync o then
    match DirObs.getDirectorySize o with
    | inr sizeBytes => Some sizeBytes
    | inl _ => None
    end
  else None.

(** The entry the iteration stores for that size. *)
Definition probed_dir_entry (o : DirObs.t) (sizeBytes : Z) : Entry.t :=
  Entry.mk (Some sizeBytes) None (DirObs.currentTime o)
           (Some (DirObs.dirEndTime o - DirObs.dirStartTime o)) None.

(** [k] is one of the keys. *)
Definition is_key (k : string) (keys : list string) : bool :=
  existsb (String.eqb k) keys.

(** ** Cache and history *)

(** The byte count of the newest sample of a record. *)
Definition last_bytes (history : list Sample.t) : option Z :=
  option_map Sample.bytes (lastEntry history).

(** Every entry of [m] that carries a byte count carries that of the newest
    sample recorded for its path. *)
Definition history_agrees (m : JsMap.t Entry.t) (h : JsMap.t (list Sample.t)) : Prop :=
  forall k e b,
    JsMap.get k m = Some e -> Entry.bytes e = Some b ->
    last_bytes (history_of k h) = Some b.

Definition history_inv (s : State) : Prop :=
  history_agrees (Cache.data (localCache s)) (localSizeHistory s) /\
  localCacheTemp s = [].

(** ** The answers of the compare handler *)

(** The HTTP status of an answer. *)
Definition status_code (r : Response) : Z :=
  match r with
  | Status400 _ => 400
  | Status404 _ => 404
  | Status200 _ => 200
  | Status500 _ => 500
  end.

(** [local_resolves], decided. *)
Definition local_resolves_b (localPath : string) (obs : CompareObs.t) (s : State) : bool :=
  JsMap.has localPath (Cache.data (localCache s)) ||
  (AddObs.existsSync (CompareObs.add obs) &&
   match AddObs.getDirectorySize (CompareObs.add obs) with inr _ => true | inl _ => false end) ||
  match CompareObs.getDirectorySize obs with inr _ => true | inl _ => false end.

(** The path a request names, [""] when it names none. *)
Definition path_of (x : option string) : string :=
  match x with Some p => p | None => "" end.

(** The last-modified fields of an answer that has them. *)
Definition lastModified_fields (r : Response) : option (option Z * option string) :=
  match r with
  | Status200 body =>
      Some (Comparison.lastModified body, Comparison.lastModifiedFormatted body)
  | Status404 body =>
      Some (CacheMiss.lastModified body, CacheMiss.lastModifiedFormatted body)
  | _ => None
  end.

(** ** The display form of a time *)

(** The hour of the day, [0] to [23], of the instant [t] in the host
    zone. *)
Definition local_hour (tz t : Z) : Z := ((t + tz) mod msPerDay) / msPerHour.

(** [getHours()] in the twelve-hour form of [formatDateToLocal]. *)
Definition hour12 (hours : Z) : Z := if hours mod 12 =? 0 then 12 else hours mod 12.

(** * Facts *)

(** ** [JsMap] *)

Module JsMapFacts.
Import JsMap.

Lemma get_set_same {V} (k : string) (v : V) (m : t V) :
  get k (set k v m) = Some v.
Proof.
  induction m as [|[k' v'] m IH]; simpl.
  - now rewrite String.eqb_refl.
  - destruct (String.eqb k k') eqn:E; simpl; rewrite E; auto.
Qed.

Lemma get_set_other {V} (k k0 : string) (v : V) (m : t V) :
  k0 <> k -> get k0 (set k v m) = get k0 m.
Proof.
  intros Hne. induction m as [|[k' v'] m IH]; simpl.
  - destruct (String.eqb_spec k0 k); congruence.
  - destruct (String.eqb_spec k k'); simpl.
    + subst k'. destruct (String.eqb_spec k0 k); congruence.
    + now rewrite IH.
Qed.

Lemma keys_set {V} (k k0 : string) (v : V) (m : t V) :
  In k0 (keys (set k v m)) <-> k0 = k \/ In k0 (keys m).
Proof.
  unfold keys. induction m as [|[k' v'] m IH]; simpl.
  - intuition.
  - destruct (String.eqb_spec k k'); simpl.
    + subst. intuition.
    + rewrite IH. intuition.
Qed.

Lemma get_Some_keys {V} (k : string) (v : V) (m : t V) :
  get k m = Some v -> In k (keys m).
Proof.
  unfold keys. induction m as [|[k' v'] m IH]; simpl; [discriminate|].
  destruct (String.eqb_spec k k'); auto.
Qed.

Lemma get_None_keys {V} (k : string) (m : t V) :
  get k m = None <-> ~ In k (keys m).
Proof.
  unfold keys. induction m as [|[k' v'] m IH]; simpl.
  - intuition.
  - destruct (String.eqb_spec k k').
    + subst. split; [discriminate | intuition].
    + rewrite IH. intuition.
Qed.

Lemma has_get {V} (k : string) (m : t V) :
  has k m = true <-> exists v, get k m = Some v.
Proof.
  unfold has. destruct (get k m).
  - split; eauto.
  - split; [discriminate | intros [? ?]; discriminate].
Qed.

Lemma has_false_get {V} (k : string) (m : t V) :
  has k m = false <-> get k m = None.
Proof.
  unfold has. destruct (get k m); split; congruence.
Qed.

End JsMapFacts.

(** ** Strings *)

Lemma append_assoc (a b c : string) : (a ^^ b) ^^ c = a ^^ b ^^ c.
Proof. induction a as [|x a IH]; [reflexivity|]. simpl. now rewrite IH. Qed.


(** ** Rounding to hundredths *)








(** ** [getLastModified] *)

Lemma setMinutes000_hour (tz t : Z) :
  let t' := setMinutes000 tz t in
  t' <= t < t' + msPerHour /\ (t' + tz) mod msPerHour = 0.
Proof.
  intros t'. subst t'. unfold setMinutes000.
  assert (Hh : 0 < msPerHour) by (unfold msPerHour; lia).
  pose proof (Z.mod_pos_bound (t + tz) msPerHour Hh) as Hb.
  split; [lia|].
  replace (t - (t + tz) mod msPerHour + tz)
    with ((t + tz) - (t + tz) mod msPerHour) by lia.
  rewrite Zminus_mod, Z.mod_mod, Z.sub_diag by lia.
  apply Z.mod_0_l. lia.
Qed.

Section Scan.
Variable tz : Z.

(** Below the newest change the scan finds it, whatever comes before. *)
Lemma scan_change_found (pre : list Sample.t) (a b : Sample.t) (post : list Sample.t) :
  Sample.bytes a <> Sample.bytes b ->
  Forall (fun e => Sample.bytes e = Sample.bytes b) post ->
  forall m, (m <= List.length post)%nat ->
    scan_change tz (pre ++ a :: b :: post) (List.length pre + 1 + m)
    = Some (setMinutes000 tz (Sample.timestamp b)).
Proof.
  intros Hab Hpost m. induction m as [|m IH]; intros Hm.
  - replace (List.length pre + 1 + 0)%nat with (S (List.length pre)) by lia.
    cbn [scan_change].
    replace (nth_error (pre ++ a :: b :: post) (S (List.length pre))) with (Some b).
    2:{ rewrite nth_error_app2 by lia.
        replace (S (List.length pre) - List.length pre)%nat with 1%nat by lia.
        reflexivity. }
    replace (nth_error (pre ++ a :: b :: post) (List.length pre)) with (Some a).
    2:{ rewrite nth_error_app2 by lia. rewrite Nat.sub_diag. reflexivity. }
    destruct (Z.eqb_spec (Sample.bytes b) (Sample.bytes a)); [congruence|reflexivity].
  - replace (List.length pre + 1 + S m)%nat with (S (List.length pre + 1 + m)) by lia.
    cbn [scan_change].
    assert (Hcur : exists cur, nth_error post m = Some cur).
    { destruct (nth_error post m) eqn:E; eauto.
      apply nth_error_None in E. lia. }
    destruct Hcur as [cur Hcur].
    assert (Hcb : Sample.bytes cur = Sample.bytes b).
    { rewrite Forall_forall in Hpost. apply Hpost. eapply nth_error_In; eauto. }
    replace (nth_error (pre ++ a :: b :: post) (S (List.length pre + 1 + m)))
      with (Some cur).
    2:{ rewrite nth_error_app2 by lia.
        replace (S (List.length pre + 1 + m) - List.length pre)%nat with (S (S m)) by lia.
        simpl. now rewrite Hcur. }
    assert (Hprev : exists prev, nth_error (pre ++ a :: b :: post) (List.length pre + 1 + m)
                                 = Some prev /\ Sample.bytes prev = Sample.bytes b).
    { rewrite nth_error_app2 by lia.
      replace (List.length pre + 1 + m - List.length pre)%nat with (S m) by lia.
      destruct m as [|m'].
      - exists b. split; reflexivity.
      - simpl. destruct (nth_error post m') eqn:E.
        + eexists; split; [reflexivity|].
          rewrite Forall_forall in Hpost. apply Hpost. eapply nth_error_In; eauto.
        + apply nth_error_None in E. lia. }
    destruct Hprev as [prev [Hprev Hpb]]. rewrite Hprev.
    destruct (Z.eqb_spec (Sample.bytes cur) (Sample.bytes prev)); [|congruence].
    simpl. apply IH. lia.
Qed.

(** Where all sizes agree the scan finds nothing. *)
Lemma scan_change_none (first : Sample.t) (rest : list Sample.t) :
  Forall (fun e => Sample.bytes e = Sample.bytes first) rest ->
  forall i, scan_change tz (first :: rest) i = None.
Proof.
  intros Hall i. induction i as [|i IH]; [reflexivity|].
  cbn [scan_change].
  assert (Hb : forall k e, nth_error (first :: rest) k = Some e ->
                           Sample.bytes e = Sample.bytes first).
  { intros k e Hk. apply nth_error_In in Hk. destruct Hk as [<-|Hin]; [reflexivity|].
    rewrite Forall_forall in Hall. now apply Hall. }
  destruct (nth_error (first :: rest) (S i)) as [cur|] eqn:Ec; [|exact IH].
  destruct (nth_error (first :: rest) i) as [prev|] eqn:Ep; [|exact IH].
  rewrite (Hb _ _ Ec), (Hb _ _ Ep), Z.eqb_refl. exact IH.
Qed.

Lemma lastModified_of_change (pre : list Sample.t) (a b : Sample.t) (post : list Sample.t) :
  Sample.bytes a <> Sample.bytes b ->
  Forall (fun e => Sample.bytes e = Sample.bytes b) post ->
  lastModified_of tz (pre ++ a :: b :: post)
  = Some (setMinutes000 tz (Sample.timestamp b)).
Proof.
  intros Hab Hpost. unfold lastModified_of.
  rewrite length_app. cbn [List.length].
  replace (List.length pre + S (S (List.length post)) =? 0)%nat with false
    by (symmetry; apply Nat.eqb_neq; lia).
  replace (List.length pre + S (S (List.length post)) - 1)%nat
    with (List.length pre + 1 + List.length post)%nat by lia.
  now rewrite (scan_change_found pre a b post Hab Hpost (List.length post) (le_n _)).
Qed.

Lemma lastModified_of_constant (first : Sample.t) (rest : list Sample.t) :
  Forall (fun e => Sample.bytes e = Sample.bytes first) rest ->
  lastModified_of tz (first :: rest)
  = Some (setMinutes000 tz (Sample.timestamp first)).
Proof.
  intros Hall. unfold lastModified_of. cbn [List.length Nat.eqb].
  now rewrite scan_change_none.
Qed.

Lemma lastModified_of_None (history : list Sample.t) :
  lastModified_of tz history = None <-> history = [].
Proof.
  unfold lastModified_of. destruct history as [|first rest]; [tauto|].
  cbn [List.length Nat.eqb].
  destruct (scan_change tz (first :: rest) (S (List.length rest) - 1));
    split; discriminate.
Qed.

(** Neighbours with equal sizes all along a record make all its sizes
    equal to the first. *)
Lemma neighbours_equal (b : Sample.t) (post : list Sample.t) :
  (forall j p c, nth_error (b :: post) j = Some p ->
                 nth_error (b :: post) (S j) = Some c ->
                 Sample.bytes c = Sample.bytes p) ->
  Forall (fun e => Sample.bytes e = Sample.bytes b) post.
Proof.
  revert b. induction post as [|x xs IH]; intros b H; constructor.
  - apply (H 0%nat b x); reflexivity.
  - assert (Hx : Sample.bytes x = Sample.bytes b) by (apply (H 0%nat b x); reflexivity).
    assert (Hxs : Forall (fun e => Sample.bytes e = Sample.bytes x) xs).
    { apply IH. intros j p c Hp Hc. apply (H (S j) p c); assumption. }
    rewrite Forall_forall in *. intros e He. rewrite <- Hx. now apply Hxs.
Qed.

(** A record split at two neighbours. *)
Lemma split_neighbours (history : list Sample.t) (i : nat) (prev cur : Sample.t) :
  nth_error history i = Some prev ->
  nth_error history (S i) = Some cur ->
  exists pre post, history = pre ++ prev :: cur :: post /\ List.length pre = i.
Proof.
  intros Hp Hc. destruct (nth_error_split _ _ Hp) as (pre & l2 & -> & Hlen).
  rewrite nth_error_app2 in Hc by lia.
  replace (S i - List.length pre)%nat with 1%nat in Hc by lia.
  destruct l2 as [|x post]; [discriminate|]. simpl in Hc. injection Hc as ->.
  eauto.
Qed.

(** C6.  [getLastModified] returns the time of the newest sample whose
    size differs from the sample before it, with minutes, seconds and
    milliseconds of its (local) hour set to zero; the time of the oldest
    sample, truncated alike, when no two neighbours differ; and nothing
    exactly when the path has no history or an empty one.  For
    [(t0,100), (t1,100), (t2,200), (t3,200)] it is the hour of [t2]. *)
Theorem getLastModified_newest_change (h : JsMap.t (list Sample.t)) (path : string) :
  (forall history i prev cur,
      JsMap.get path h = Some history ->
      nth_error history i = Some prev ->
      nth_error history (S i) = Some cur ->
      Sample.bytes cur <> Sample.bytes prev ->
      (forall j p c, (i < j)%nat ->
                     nth_error history j = Some p ->
                     nth_error history (S j) = Some c ->
                     Sample.bytes c = Sample.bytes p) ->
      getLastModified tz h path = Some (setMinutes000 tz (Sample.timestamp cur))) /\
  (forall first rest,
      JsMap.get path h = Some (first :: rest) ->
      (forall j p c, nth_error (first :: rest) j = Some p ->
                     nth_error (first :: rest) (S j) = Some c ->
                     Sample.bytes c = Sample.bytes p) ->
      getLastModified tz h path = Some (setMinutes000 tz (Sample.timestamp first))) /\
  (getLastModified tz h path = None <->
     JsMap.get path h = None \/ JsMap.get path h = Some []) /\
  (forall t, setMinutes000 tz t <= t < setMinutes000 tz t + 60 * 60 * 1000 /\
             (setMinutes000 tz t + tz) mod (60 * 60 * 1000) = 0) /\
  (forall t0 t1 t2 t3,
      JsMap.get path h = Some [Sample.mk t0 100; Sample.mk t1 100;
                               Sample.mk t2 200; Sample.mk t3 200] ->
      getLastModified tz h path = Some (setMinutes000 tz t2)).
Proof.
  unfold getLastModified. split; [|split; [|split; [|split]]].
  - intros history i prev cur Hget Hp Hc Hne Hlater. rewrite Hget.
    destruct (split_neighbours history i prev cur Hp Hc) as (pre & post & -> & Hlen).
    apply lastModified_of_change; [congruence|].
    apply neighbours_equal. intros j p c Hjp Hjc.
    apply (Hlater (S i + j)%nat p c); [lia| |].
    + rewrite nth_error_app2 by lia.
      replace (S i + j - List.length pre)%nat with (S j) by lia. exact Hjp.
    + rewrite nth_error_app2 by lia.
      replace (S (S i + j) - List.length pre)%nat with (S (S j)) by lia. exact Hjc.
  - intros first rest Hget Hall. rewrite Hget.
    apply lastModified_of_constant. now apply neighbours_equal.
  - destruct (JsMap.get path h) as [history|]; [|tauto].
    split.
    + intros H. apply lastModified_of_None in H. right. now subst.
    + intros [H|H]; [discriminate|]. injection H as ->. reflexivity.
  - intros t. apply (setMinutes000_hour tz t).
  - intros t0 t1 t2 t3 Hget. rewrite Hget.
    apply (lastModified_of_change [Sample.mk t0 100] (Sample.mk t1 100)
             (Sample.mk t2 200) [Sample.mk t3 200]).
    + simpl. lia.
    + repeat constructor.
Qed.

End Scan.

(** At UTC, a history with sizes 100, 100, 200, 200 sampled one hour and a
    bit apart. *)
Lemma getLastModified_newest_change_witness :
  getLastModified 0 [("/data", [Sample.mk 1000 100; Sample.mk 3700000 100;
                                Sample.mk 7300000 200; Sample.mk 10900000 200])] "/data"
  = Some 7200000.
Proof.
  apply (proj1 (getLastModified_newest_change 0
                  [("/data", [Sample.mk 1000 100; Sample.mk 3700000 100;
                              Sample.mk 7300000 200; Sample.mk 10900000 200])] "/data")
           [Sample.mk 1000 100; Sample.mk 3700000 100;
            Sample.mk 7300000 200; Sample.mk 10900000 200]
           1%nat (Sample.mk 3700000 100) (Sample.mk 7300000 200)
           eq_refl eq_refl eq_refl).
  - simpl. lia.
  - intros j p c Hj Hp Hc.
    destruct j as [|[|[|j]]]; try lia.
    + simpl in Hp, Hc. injection Hp as <-. injection Hc as <-. reflexivity.
    + simpl in Hc. destruct j; discriminate.
Defined.

(** ** Binary64 arithmetic on integers *)

Lemma digits2_pos_log2 (p : positive) : Z.pos (digits2_pos p) = Z.log2 (Z.pos p) + 1.
Proof.
  induction p as [p IH|p IH|]; simpl; try reflexivity.
  - rewrite Pos2Z.inj_succ. f_equal. destruct p; simpl in *; lia.
  - rewrite Pos2Z.inj_succ. f_equal. destruct p; simpl in *; lia.
Qed.

Lemma iter_xO_pow (d p : positive) : Z.pos (Pos.iter xO p d) = Z.pos p * 2 ^ Z.pos d.
Proof.
  induction d as [|d IH] using Pos.peano_ind.
  - simpl. lia.
  - rewrite Pos.iter_succ, Pos2Z.inj_xO, IH, Pos2Z.inj_succ, Z.pow_succ_r by lia. lia.
Qed.

Lemma iter_pos_iter {A} (f : A -> A) (n : positive) (x : A) :
  iter_pos f n x = Pos.iter f x n.
Proof.
  revert x. induction n as [n IH|n IH|]; intros x; simpl.
  - rewrite !IH. now rewrite <- !Pos.iter_swap.
  - now rewrite !IH.
  - reflexivity.
Qed.

Lemma shr_1_even (m : Z) :
  0 < m -> shr_1 (Build_shr_record (2 * m) false false) = Build_shr_record m false false.
Proof. destruct m; try lia. intros _. reflexivity. Qed.

Lemma iter_shr_1_exact (d : positive) (q : Z) :
  0 < q ->
  iter_pos shr_1 d (Build_shr_record (q * 2 ^ Z.pos d) false false)
  = Build_shr_record q false false.
Proof.
  intros Hq. rewrite iter_pos_iter. revert q Hq.
  induction d as [|d IH] using Pos.peano_ind; intros q Hq.
  - cbn [Pos.iter]. replace (q * 2 ^ 1) with (2 * q) by lia. now apply shr_1_even.
  - rewrite Pos.iter_succ, Pos2Z.inj_succ, Z.pow_succ_r by lia.
    replace (q * (2 * 2 ^ Z.pos d)) with ((2 * q) * 2 ^ Z.pos d) by lia.
    rewrite IH by lia. now apply shr_1_even.
Qed.

(** The digits of a positive integer shifted left. *)
Lemma digits2_pos_shift (p q : positive) (d : Z) :
  0 <= d -> Z.pos p = Z.pos q * 2 ^ d ->
  Z.pos (digits2_pos p) = Z.pos (digits2_pos q) + d.
Proof.
  intros Hd H. rewrite !digits2_pos_log2, H, Z.log2_mul_pow2 by lia. lia.
Qed.

(** A value that fits the format is returned as it is: [p * 2 ^ e] is
    [q * 2 ^ f] with [f] the exponent the format gives to numbers of that
    magnitude. *)
Lemma binary_round_exact (s : bool) (p q : positive) (e : Z) :
  let f := fexp prec emax (Z.pos (digits2_pos p) + e) in
  f <= emax - prec ->
  Z.pos p * 2 ^ Z.max 0 (e - f) = Z.pos q * 2 ^ Z.max 0 (f - e) ->
  binary_round prec emax s p e = S754_finite s q f.
Proof.
  intros f Hf Hv. unfold binary_round. fold f.
  assert (Hfin : forall m, Z.pos (digits2_pos m) + f = Z.pos (digits2_pos p) + e ->
                 binary_round_aux prec emax s (Z.pos m) f loc_Exact = S754_finite s m f).
  { intros m Hm. unfold binary_round_aux, shr_fexp. cbn [Zdigits2 shr_record_of_loc].
    rewrite Hm. fold f. rewrite Z.sub_diag. cbn [shr shr_m loc_of_shr_record round_nearest_even Zdigits2 shr_record_of_loc].
    rewrite Hm. fold f. rewrite Z.sub_diag. cbn [shr shr_m].
    destruct (Z.leb_spec f (emax - prec)); [reflexivity|lia]. }
  unfold shl_align.
  destruct (f - e) as [|d|d] eqn:Hd.
  - assert (He : e = f) by lia. replace (e - f) with 0 in Hv by lia.
    cbn [Z.max Z.compare] in Hv. rewrite Z.pow_0_r, !Z.mul_1_r in Hv.
    assert (p = q) by (injection Hv; auto). subst q.
    rewrite He. apply Hfin. lia.
  - replace (e - f) with (Z.neg d) in Hv by lia.
    cbn [Z.max Z.compare] in Hv. rewrite Z.pow_0_r, Z.mul_1_r in Hv.
    unfold binary_round_aux, shr_fexp. cbn [Zdigits2 shr_record_of_loc]. fold f.
    rewrite Hd. cbn [shr]. rewrite Hv, iter_shr_1_exact by lia.
    cbn [shr_m loc_of_shr_record round_nearest_even Zdigits2 shr_record_of_loc].
    assert (Hdig : Z.pos (digits2_pos q) + (e + Z.pos d) = Z.pos (digits2_pos p) + e).
    { rewrite (digits2_pos_shift p q (Z.pos d)) by lia. lia. }
    rewrite Hdig. fold f. replace (f - (e + Z.pos d)) with 0 by lia. cbn [shr shr_m].
    replace (e + Z.pos d) with f by lia.
    destruct (Z.leb_spec f (emax - prec)); [reflexivity|lia].
  - replace (e - f) with (Z.pos d) in Hv by lia.
    cbn [Z.max Z.compare] in Hv. rewrite Z.pow_0_r, Z.mul_1_r in Hv.
    assert (Hq : Pos.iter xO p d = q).
    { apply Pos2Z.inj. rewrite iter_xO_pow. exact Hv. }
    rewrite Hq. apply Hfin.
    rewrite (digits2_pos_shift q p (Z.pos d)) by lia. lia.
Qed.

Lemma fexp_binary64 (x : Z) : -1021 <= x -> fexp prec emax x = x - 53.
Proof. intros H. unfold fexp, emin, prec, emax. lia. Qed.

(** The same, with the two values compared after scaling by [2 ^ k]. *)
Lemma binary_round_scaled (s : bool) (p q : positive) (e f k : Z) :
  f = fexp prec emax (Z.pos (digits2_pos p) + e) ->
  f <= emax - prec ->
  0 <= e + k -> 0 <= f + k ->
  Z.pos p * 2 ^ (e + k) = Z.pos q * 2 ^ (f + k) ->
  binary_round prec emax s p e = S754_finite s q f.
Proof.
  intros Hfe Hf He Hk Hv. subst f.
  set (f := fexp prec emax (Z.pos (digits2_pos p) + e)) in *.
  apply binary_round_exact; fold f; [exact Hf|].
  destruct (Z.le_ge_cases e f) as [Hle|Hge].
  - rewrite Z.max_l, Z.max_r by lia. rewrite Z.pow_0_r, Z.mul_1_r.
    replace (f + k) with ((f - e) + (e + k)) in Hv by lia.
    rewrite (Z.pow_add_r 2 (f - e) (e + k)), Z.mul_assoc in Hv by lia.
    apply Z.mul_cancel_r in Hv; [exact Hv|].
    apply Z.pow_nonzero; lia.
  - rewrite Z.max_r, Z.max_l by lia. rewrite Z.pow_0_r, Z.mul_1_r.
    replace (e + k) with ((e - f) + (f + k)) in Hv by lia.
    rewrite (Z.pow_add_r 2 (e - f) (f + k)), Z.mul_assoc in Hv by lia.
    apply Z.mul_cancel_r in Hv; [exact Hv|].
    apply Z.pow_nonzero; lia.
Qed.

Lemma represents_unique (x y : spec_float) (c : Z) :
  represents x c -> represents y c -> x = y.
Proof.
  unfold represents. destruct c as [|p|p].
  - congruence.
  - intros (q & -> & Hq) (q' & -> & Hq'). f_equal.
    rewrite <- Hq' in Hq. apply Z.mul_cancel_r in Hq; [now injection Hq|].
    apply Z.pow_nonzero; [lia|].
    match goal with |- 0 <= Z.log2 ?t - 52 + 60 => pose proof (Z.log2_nonneg t) end. lia.
  - intros (q & -> & Hq) (q' & -> & Hq'). f_equal.
    rewrite <- Hq' in Hq. apply Z.mul_cancel_r in Hq; [now injection Hq|].
    apply Z.pow_nonzero; [lia|].
    match goal with |- 0 <= Z.log2 ?t - 52 + 60 => pose proof (Z.log2_nonneg t) end. lia.
Qed.

Lemma log2_scaled (m c e : Z) :
  0 < m -> 0 < c -> 0 <= e + 60 -> m * 2 ^ (e + 60) = c * 2 ^ 60 ->
  Z.log2 m + e = Z.log2 c.
Proof.
  intros Hm Hc He H.
  assert (Hl : Z.log2 (m * 2 ^ (e + 60)) = Z.log2 (c * 2 ^ 60)) by now rewrite H.
  rewrite !Z.log2_mul_pow2 in Hl by lia. lia.
Qed.

(** A positive integer of at most [2 ^ 53] has a mantissa. *)
Lemma mantissa_exists (c : Z) :
  0 < c <= 2 ^ 53 ->
  exists q : positive, Z.pos q * 2 ^ (Z.log2 c - 52 + 60) = c * 2 ^ 60.
Proof.
  intros [Hpos Hle].
  pose proof (Z.log2_nonneg c) as Hl0.
  destruct (Z.log2_spec c Hpos) as [Hlo Hhi].
  assert (Hl53 : Z.log2 c <= 53).
  { destruct (Z_le_gt_dec (Z.log2 c) 53) as [|Hgt]; [assumption|exfalso].
    assert (2 ^ 54 <= 2 ^ Z.log2 c) by (apply Z.pow_le_mono_r; lia). lia. }
  destruct (Z.eq_dec (Z.log2 c) 53) as [E|NE].
  - assert (c = 2 ^ 53) by (rewrite E in Hlo; lia). subst c.
    exists (Z.to_pos (2 ^ 52)). rewrite E. vm_compute. reflexivity.
  - exists (Z.to_pos (c * 2 ^ (52 - Z.log2 c))).
    assert (Hp : 0 < 2 ^ (52 - Z.log2 c)) by (apply Z.pow_pos_nonneg; lia).
    rewrite Z2Pos.id by nia.
    rewrite <- Z.mul_assoc, <- Z.pow_add_r by lia. f_equal. f_equal. lia.
Qed.

(** Normalising [m * 2 ^ e] when it is an integer [c] of at most
    [2 ^ 53] in magnitude gives the number [c]. *)
Lemma binary_normalize_represents (m e c : Z) :
  -60 <= e -> Z.abs c <= 2 ^ 53 ->
  m * 2 ^ (e + 60) = c * 2 ^ 60 ->
  represents (binary_normalize prec emax m e false) c.
Proof.
  intros He Hc Hv.
  assert (Hp : 0 < 2 ^ (e + 60)) by (apply Z.pow_pos_nonneg; lia).
  assert (Hsign : forall s (pm : positive) (c' : Z),
             0 < c' <= 2 ^ 53 ->
             Z.pos pm * 2 ^ (e + 60) = c' * 2 ^ 60 ->
             exists q : positive,
               binary_round prec emax s pm e
               = S754_finite s q (Z.log2 c' - 52) /\
               Z.pos q * 2 ^ (Z.log2 c' - 52 + 60) = c' * 2 ^ 60).
  { intros s pm c' Hc' Hv'.
    destruct (mantissa_exists c' Hc') as [q Hq].
    pose proof (Z.log2_nonneg c') as Hl0.
    pose proof (log2_scaled (Z.pos pm) c' e ltac:(lia) ltac:(lia) ltac:(lia) Hv') as Hlog.
    exists q. split; [|exact Hq].
    apply (binary_round_scaled s pm q e _ 60).
    - rewrite digits2_pos_log2, fexp_binary64 by lia. lia.
    - unfold emax, prec.
      assert (Z.log2 c' <= 53).
      { destruct (Z_le_gt_dec (Z.log2 c') 53) as [|Hgt]; [assumption|exfalso].
        destruct (Z.log2_spec c' ltac:(lia)) as [Hlo _].
        assert (2 ^ 54 <= 2 ^ Z.log2 c') by (apply Z.pow_le_mono_r; lia). lia. }
      lia.
    - lia.
    - lia.
    - rewrite Hv', Hq. reflexivity. }
  unfold represents. destruct c as [|pc|pc].
  - assert (m = 0) by nia. subst m. reflexivity.
  - destruct m as [|pm|pm]; try nia.
    destruct (Hsign false pm (Z.pos pc) ltac:(lia) Hv) as (q & Hb & Hq).
    exists q. split; [exact Hb|exact Hq].
  - destruct m as [|pm|pm]; try nia.
    assert (Hv' : Z.pos pm * 2 ^ (e + 60) = Z.pos pc * 2 ^ 60) by lia.
    destruct (Hsign true pm (Z.pos pc) ltac:(lia) Hv') as (q & Hb & Hq).
    exists q. split; [exact Hb|exact Hq].
Qed.

Lemma number_of_Z_represents (c : Z) :
  Z.abs c <= 2 ^ 53 -> represents (number_of_Z c) c.
Proof.
  intros Hc. apply binary_normalize_represents; [lia|exact Hc|reflexivity].
Qed.

Lemma shl_align_fst (q : positive) (f ez : Z) :
  ez <= f -> Z.pos (fst (shl_align q f ez)) = Z.pos q * 2 ^ (f - ez).
Proof.
  intros H. unfold shl_align.
  destruct (ez - f) as [|d|d] eqn:Hd; cbn [fst].
  - replace (f - ez) with 0 by lia. lia.
  - lia.
  - rewrite iter_xO_pow. f_equal. f_equal. lia.
Qed.

Lemma represents_exponent (c : Z) :
  0 < Z.abs c <= 2 ^ 53 -> -52 <= Z.log2 (Z.abs c) - 52 <= 1.
Proof.
  intros [Hpos Hle]. pose proof (Z.log2_nonneg (Z.abs c)).
  destruct (Z.log2_spec (Z.abs c) Hpos) as [Hlo _].
  destruct (Z_le_gt_dec (Z.log2 (Z.abs c)) 53) as [|Hgt]; [lia|exfalso].
  assert (2 ^ 54 <= 2 ^ Z.log2 (Z.abs c)) by (apply Z.pow_le_mono_r; lia). lia.
Qed.

(** The aligned mantissa of a represented integer, on the scale of
    [2 ^ (ez + 60)]. *)
Lemma aligned_value (c : Z) (q : positive) (ez : Z) :
  0 < Z.abs c <= 2 ^ 53 ->
  -60 <= ez <= Z.log2 (Z.abs c) - 52 ->
  Z.pos q * 2 ^ (Z.log2 (Z.abs c) - 52 + 60) = Z.abs c * 2 ^ 60 ->
  cond_Zopp (c <? 0) (Z.pos (fst (shl_align q (Z.log2 (Z.abs c) - 52) ez))) * 2 ^ (ez + 60)
  = c * 2 ^ 60.
Proof.
  intros Hc Hez Hq.
  rewrite shl_align_fst by lia.
  set (f := Z.log2 (Z.abs c) - 52) in *.
  assert (Hm : Z.pos q * 2 ^ (f - ez) * 2 ^ (ez + 60) = Z.abs c * 2 ^ 60).
  { rewrite <- Z.mul_assoc, <- Z.pow_add_r by lia.
    replace (f - ez + (ez + 60)) with (f + 60) by lia. exact Hq. }
  unfold cond_Zopp. destruct (Z.ltb_spec c 0).
  - rewrite Z.mul_opp_l, Hm. lia.
  - rewrite Hm. lia.
Qed.

(** Sums and differences of integers are exact in binary64 while the
    operands and the result stay within [2 ^ 53]. *)
Lemma SFadd_sub_exact (a b : Z) :
  Z.abs a <= 2 ^ 53 -> Z.abs b <= 2 ^ 53 ->
  (Z.abs (a + b) <= 2 ^ 53 ->
   SFadd prec emax (number_of_Z a) (number_of_Z b) = number_of_Z (a + b)) /\
  (Z.abs (a - b) <= 2 ^ 53 ->
   SFsub prec emax (number_of_Z a) (number_of_Z b) = number_of_Z (a - b)).
Proof.
  intros Ha Hb.
  pose proof (number_of_Z_represents a Ha) as Ra.
  pose proof (number_of_Z_represents b Hb) as Rb.
  assert (Hfin : forall c, c <> 0 -> represents (number_of_Z c) c ->
                 exists q : positive,
                   number_of_Z c = S754_finite (c <? 0) q (Z.log2 (Z.abs c) - 52) /\
                   Z.pos q * 2 ^ (Z.log2 (Z.abs c) - 52 + 60) = Z.abs c * 2 ^ 60).
  { intros c Hc R. unfold represents in R. destruct c; [lia|exact R|exact R]. }
  destruct (Z.eq_dec a 0) as [->|Ha0]; [|destruct (Z.eq_dec b 0) as [->|Hb0]].
  - change (number_of_Z 0) with (S754_zero false).
    destruct (Z.eq_dec b 0) as [->|Hb0]; [split; reflexivity|].
    destruct (Hfin b Hb0 Rb) as (q & Eb & Hq). simpl. split; intros _.
    + rewrite Eb. reflexivity.
    + rewrite Eb. cbn [SFsub].
      apply (represents_unique _ _ (- b)); [|apply number_of_Z_represents; lia].
      unfold represents. destruct b as [|pb|pb]; [lia| |];
        cbn [Z.opp Z.abs Z.ltb Z.compare negb] in *; exists q; split; auto.
  - change (number_of_Z 0) with (S754_zero false).
    destruct (Hfin a Ha0 Ra) as (q & Ea & Hq).
    rewrite Z.add_0_r, Z.sub_0_r, Ea. split; reflexivity.
  - destruct (Hfin a Ha0 Ra) as (qa & Ea & Hqa).
    destruct (Hfin b Hb0 Rb) as (qb & Eb & Hqb).
    pose proof (represents_exponent a ltac:(lia)) as Hfa.
    pose proof (represents_exponent b ltac:(lia)) as Hfb.
    rewrite Ea, Eb. cbn [SFadd SFsub].
    set (fa := Z.log2 (Z.abs a) - 52) in *. set (fb := Z.log2 (Z.abs b) - 52) in *.
    set (ez := Z.min fa fb).
    pose proof (aligned_value a qa ez ltac:(lia) ltac:(unfold ez; fold fa; lia) Hqa) as Va.
    pose proof (aligned_value b qb ez ltac:(lia) ltac:(unfold ez; fold fb; lia) Hqb) as Vb.
    fold fa in Va. fold fb in Vb.
    split; intros Hc.
    + apply (represents_unique _ _ (a + b)); [|apply number_of_Z_represents; exact Hc].
      apply binary_normalize_represents; [unfold ez; lia|exact Hc|].
      rewrite Z.mul_add_distr_r, Va, Vb. lia.
    + apply (represents_unique _ _ (a - b)); [|apply number_of_Z_represents; exact Hc].
      apply binary_normalize_represents; [unfold ez; lia|exact Hc|].
      rewrite Z.mul_sub_distr_r, Va, Vb. lia.
Qed.

Lemma integer_of_number_of_Z (c : Z) :
  Z.abs c <= 2 ^ 53 -> integer_of_number (number_of_Z c) = Some c.
Proof.
  intros Hc. pose proof (number_of_Z_represents c Hc) as R.
  unfold represents in R.
  assert (Hgen : forall q : positive,
             0 < Z.abs c ->
             number_of_Z c = S754_finite (c <? 0) q (Z.log2 (Z.abs c) - 52) ->
             Z.pos q * 2 ^ (Z.log2 (Z.abs c) - 52 + 60) = Z.abs c * 2 ^ 60 ->
             integer_of_number (number_of_Z c) = Some c).
  { intros q Hpos E Hq. rewrite E.
    pose proof (represents_exponent c ltac:(lia)) as Hf.
    set (f := Z.log2 (Z.abs c) - 52) in *. cbn [integer_of_number].
    assert (Hs : cond_Zopp (c <? 0) (Z.abs c) = c)
      by (unfold cond_Zopp; destruct (Z.ltb_spec c 0); lia).
    destruct (Z.leb_spec 0 f) as [H0|H0].
    - replace (f + 60) with (f + 60)%Z in Hq by reflexivity.
      rewrite Z.pow_add_r, Z.mul_assoc in Hq by lia.
      apply Z.mul_cancel_r in Hq; [|lia]. now rewrite Hq, Hs.
    - assert (Hq' : Z.pos q = Z.abs c * 2 ^ (- f)).
      { replace 60 with (- f + (f + 60)) in Hq at 2 by lia.
        rewrite (Z.pow_add_r 2 (- f) (f + 60)), Z.mul_assoc in Hq by lia.
        apply Z.mul_cancel_r in Hq; [exact Hq|]. apply Z.pow_nonzero; lia. }
      assert (Hp : 0 < 2 ^ (- f)) by (apply Z.pow_pos_nonneg; lia).
      rewrite Hq', Z.mod_mul, Z.div_mul by lia. cbn [Z.eqb]. now rewrite Hs. }
  destruct c as [|p|p]; [now rewrite R| |];
    destruct R as (q & E & Hq); apply (Hgen q); auto; simpl; lia.
Qed.


(** ** The comparison payload *)




Lemma addToLocalCache_remote (path : string) (obs : AddObs.t) (s : State) :
  remoteCache (snd (addToLocalCache path obs s)) = remoteCache s /\
  remoteCacheTemp (snd (addToLocalCache path obs s)) = remoteCacheTemp s /\
  tasks (snd (addToLocalCache path obs s)) = tasks s.
Proof.
  unfold addToLocalCache.
  destruct (AddObs.existsSync obs); simpl; auto.
  destruct (AddObs.getDirectorySize obs); simpl; auto.
Qed.

Lemma resolve_local_remote (localPath : string) (obs : CompareObs.t) (s : State) :
  remoteCache (snd (resolve_local localPath obs s)) = remoteCache s /\
  remoteCacheTemp (snd (resolve_local localPath obs s)) = remoteCacheTemp s /\
  tasks (snd (resolve_local localPath obs s)) = tasks s.
Proof.
  unfold resolve_local.
  destruct (JsMap.has localPath (Cache.data (localCache s))); simpl; auto.
  pose proof (addToLocalCache_remote localPath (CompareObs.add obs) s) as H.
  destruct (addToLocalCache localPath (CompareObs.add obs) s) as [[message|dirInfo] s1];
    simpl in *; auto.
  destruct (CompareObs.getDirectorySize obs); simpl; auto.
Qed.

(** The shape of a request that is answered with status 200. *)
Lemma compare_200_inv (tz : Z) (req : Request.t) (obs : CompareObs.t) (s s' : State)
    (body : Comparison.t) :
  compare tz req obs s = (Status200 body, s') ->
  exists remotePath localPath localSizeData localSizeBytes remoteSizeData,
    Request.remotePath req = Some remotePath /\
    Request.localPath req = Some localPath /\
    resolve_local localPath obs s = (inr (localSizeData, localSizeBytes), s') /\
    JsMap.get remotePath (Cache.data (remoteCache s)) = Some remoteSizeData /\
    Comparison.remote body
    = RemoteView.mk (Entry.bytes remoteSizeData)
                    (formatBytes_opt (CompareObs.floorLog obs) (Entry.bytes remoteSizeData))
                    (Entry.count remoteSizeData) (Entry.timestamp remoteSizeData) /\
    Comparison.local body = local_view (CompareObs.floorLog obs) localSizeData localSizeBytes /\
    Comparison.difference body
    = (let difference := number_sub (Entry.bytes remoteSizeData) localSizeBytes in
       Difference.mk (integer_of_number difference)
                     (formatBytes_opt (CompareObs.floorLog obs)
                                      (integer_of_number (SFabs difference)))
                     (direction_of difference)) /\
    Comparison.syncStatus body
    = SyncStatus.mk (percentageSynced_of localSizeBytes (Entry.bytes remoteSizeData))
                    (isSynced_of (number_sub (Entry.bytes remoteSizeData) localSizeBytes)).
Proof.
  unfold compare. intros H.
  destruct (Request.remotePath req) as [remotePath|]; [|discriminate].
  destruct (Request.localPath req) as [localPath|];
    [|rewrite orb_true_r in H; discriminate].
  destruct (missing (Some remotePath) || missing (Some localPath)); [discriminate|].
  destruct (negb (CompareObs.existsSync obs)); [discriminate|].
  pose proof (resolve_local_remote localPath obs s) as [Hr _].
  destruct (resolve_local localPath obs s)
    as [[message|[localSizeData localSizeBytes]] s1] eqn:Hres; [discriminate|].
  simpl in Hr. rewrite Hr in H.
  destruct (JsMap.get remotePath (Cache.data (remoteCache s))) as [remoteSizeData|] eqn:Hget;
    [|discriminate].
  injection H as <- <-.
  exists remotePath, localPath, localSizeData, localSizeBytes, remoteSizeData.
  repeat split; reflexivity || assumption.
Qed.


Lemma after_remote_cycle_reachable (tz : Z) :
  run tz Scenario.remote_cycle initial = Some Scenario.after_remote_cycle.
Proof. reflexivity. Qed.

(** ** Starting a cycle *)

(** The manual refresh leaves the pending activations alone while the
    remote cache is marked as being updated. *)
Lemma refresh_skips_running_remote (remoteTime startTime localTime : Z)
    (obs : LocalObs.t) (s : State) :
  Cache.updateInProgress (remoteCache s) = true ->
  Cache.updateInProgress (localCache s) = true ->
  refresh remoteTime startTime localTime obs s = s.
Proof.
  intros Hr Hl. unfold refresh. now rewrite Hr, Hl.
Qed.

(** The timer callback starts an activation whatever the marks say. *)
Lemma start_remote_tasks (updateStartTime startTime : Z) (s : State) :
  tasks (start_remote updateStartTime startTime s) = tasks s ++ [AwaitListing startTime].
Proof. reflexivity. Qed.

(** C1.  The code at the input that breaks the claim: a manual refresh
    starts a remote cycle, and while its listing is pending the 24-hour
    timer fires.  The timer callback does not test [updateInProgress]: a
    second activation of [updateRemoteCache] is started, and both are in
    flight on the remote cache; a manual refresh at the same point starts
    none.  When the first of the two returns it resets the marks while the
    second is still pending. *)
Theorem remote_interval_overlaps :
  exists s1 s2 s3,
    run 0 [RefreshRequest 1000 1001 1002 Scenario.no_dirs] initial = Some s1 /\
    Cache.updateInProgress (remoteCache s1) = true /\
    tasks s1 = [AwaitListing 1001] /\
    step 0 (RefreshRequest 2000 2001 2002 Scenario.no_dirs) s1 = Some s1 /\
    step 0 (RemoteInterval 2000 2001) s1 = Some s2 /\
    tasks s2 = [AwaitListing 1001; AwaitListing 2001] /\
    step 0 (ListingSettled 0 (inl "rclone: command not found") 3000) s2 = Some s3 /\
    Cache.updateInProgress (remoteCache s3) = false /\
    tasks s3 = [AwaitListing 2001].
Proof.
  do 3 eexists. repeat split; reflexivity.
Qed.

(** ** The local cycle *)

Lemma mark_error_frame (localDir message : string) (time : Z) (s : State) :
  localCacheTemp (mark_error localDir message time s) = localCacheTemp s /\
  localSizeHistory (mark_error localDir message time s) = localSizeHistory s /\
  remoteCache (mark_error localDir message time s) = remoteCache s /\
  remoteCacheTemp (mark_error localDir message time s) = remoteCacheTemp s /\
  tasks (mark_error localDir message time s) = tasks s.
Proof. repeat split. Qed.

Lemma local_dir_temp_keys (obs : string -> DirObs.t) (s : State) (localDir k : string) :
  In k (JsMap.keys (localCacheTemp (local_dir obs s localDir))) ->
  In k (JsMap.keys (localCacheTemp s)) \/ (k = localDir /\ probe_succeeds (obs k)).
Proof.
  unfold local_dir, probe_succeeds.
  destruct (DirObs.existsSync (obs localDir)) eqn:Hex; simpl; auto.
  destruct (DirObs.getDirectorySize (obs localDir)) as [message|sizeBytes] eqn:Hsz;
    simpl; auto.
  intros Hin. apply JsMapFacts.keys_set in Hin. destruct Hin as [->|Hin]; auto.
  right. rewrite Hex, Hsz. eauto.
Qed.

Lemma local_loop_temp_keys (obs : string -> DirObs.t) (localDirs : list string)
    (s : State) (k : string) :
  In k (JsMap.keys (localCacheTemp (fold_left (local_dir obs) localDirs s))) ->
  In k (JsMap.keys (localCacheTemp s)) \/ (In k localDirs /\ probe_succeeds (obs k)).
Proof.
  revert s. induction localDirs as [|d ds IH]; intros s; simpl; auto.
  intros Hin. apply IH in Hin. destruct Hin as [Hin|[Hin Hp]]; [|tauto].
  apply local_dir_temp_keys in Hin. destruct Hin as [Hin|[-> Hp]]; auto.
Qed.

(** What a local cycle publishes holds only directories probed with
    success during that cycle. *)
Lemma updateLocalCache_publishes_probed (obs : LocalObs.t) (s : State) (k : string) :
  localCacheTemp s = [] ->
  In k (JsMap.keys (Cache.data (localCache (updateLocalCache obs s)))) ->
  In k (JsMap.keys (Cache.data (localCache s))) /\ probe_succeeds (LocalObs.dir obs k).
Proof.
  intros Htemp. unfold updateLocalCache.
  destruct (JsMap.size (Cache.data (localCache s)) =? 0)%nat.
  - simpl. rewrite Htemp. simpl. tauto.
  - simpl. unfold JsMap.copy. intros Hin.
    apply local_loop_temp_keys in Hin. rewrite Htemp in Hin. simpl in Hin. tauto.
Qed.

(** C2.  The code at the input that breaks the claim: [/data] is tracked
    with an entry, and during the next local cycle it cannot be probed.
    [updateLocalCache] does not seed [localCacheTemp] from the cache, so the
    map it publishes has no entry for [/data]: the prior entry is dropped,
    not retained. *)
Theorem local_cycle_drops_unprobed :
  exists s1 s2 e,
    run 0 [CompareRequest LocalScenario.compare_data LocalScenario.first_probe] initial
      = Some s1 /\
    JsMap.get "/data" (Cache.data (localCache s1)) = Some e /\
    Entry.bytes e = Some 100 /\
    step 0 (LocalInterval 4000 LocalScenario.data_missing) s1 = Some s2 /\
    JsMap.get "/data" (Cache.data (localCache s2)) = None /\
    Cache.data (localCache s2) = [].
Proof.
  do 3 eexists. repeat split; reflexivity.
Qed.

(** ** Size history *)

(** In [updateLocalCache] a size equal to the last one recorded leaves the
    record as it is; another size is appended, and what is kept is strictly
    newer than thirty days before it. *)
Lemma record_size_dedup_prune (k : string) (currentTime sizeBytes : Z)
    (h : JsMap.t (list Sample.t)) :
  let before := history_of k h in
  let after := history_of k (record_size k currentTime sizeBytes h) in
  (size_changed before sizeBytes = false -> after = before) /\
  (size_changed before sizeBytes = true ->
     after = filter (fun e => currentTime - thirtyDays <? Sample.timestamp e)
                    (before ++ [Sample.mk currentTime sizeBytes]) /\
     In (Sample.mk currentTime sizeBytes) after /\
     Forall (fun e => currentTime - thirtyDays < Sample.timestamp e) after).
Proof.
  intros before after.
  assert (Hens : history_of k (ensure_history k h) = before).
  { subst before. unfold ensure_history, history_of.
    destruct (JsMap.has k h) eqn:Hhas; [reflexivity|].
    rewrite JsMapFacts.get_set_same.
    apply JsMapFacts.has_false_get in Hhas. now rewrite Hhas. }
  subst after. unfold record_size. rewrite Hens. split; intros Hc; rewrite Hc.
  - exact Hens.
  - unfold history_of at 1 2 3. rewrite JsMapFacts.get_set_same.
    unfold filteredHistory. split; [reflexivity|]. split.
    + apply filter_In. split.
      * apply in_or_app. right. now left.
      * simpl. apply Z.ltb_lt. unfold thirtyDays. lia.
    + apply Forall_forall. intros e He. apply filter_In in He.
      destruct He as [_ He]. now apply Z.ltb_lt in He.
Qed.

(** Between two turns of the event loop [localCacheTemp] is empty. *)
Lemma step_localCacheTemp (tz : Z) (e : Event) (s s' : State) :
  step tz e s = Some s' -> localCacheTemp s = [] -> localCacheTemp s' = [].
Proof.
  assert (Hlocal : forall obs s0, localCacheTemp (updateLocalCache obs s0) = []).
  { intros obs s0. unfold updateLocalCache.
    destruct (JsMap.size (Cache.data (localCache s0)) =? 0)%nat; reflexivity. }
  assert (Hloop : forall task st rs i now s0,
             localCacheTemp (remote_loop task st rs i now s0) = localCacheTemp s0).
  { intros. unfold remote_loop. destruct (i <? List.length rs)%nat; reflexivity. }
  intros Hstep Hempty. destruct e; simpl in Hstep.
  - injection Hstep as <-. apply Hlocal.
  - injection Hstep as <-. exact Hempty.
  - injection Hstep as <-. apply Hlocal.
  - injection Hstep as <-. unfold refresh.
    destruct (Cache.updateInProgress (remoteCache s));
      match goal with
      | |- context [Cache.updateInProgress (localCache ?s1)] =>
          destruct (Cache.updateInProgress (localCache s1)); [exact Hempty|];
          destruct (0 <? JsMap.size (Cache.data (localCache s1)))%nat;
          [apply Hlocal|exact Hempty]
      end.
  - injection Hstep as <-. unfold compare.
    destruct (missing (Request.remotePath req) || missing (Request.localPath req));
      [exact Hempty|].
    destruct (negb (CompareObs.existsSync obs)); [exact Hempty|].
    set (localPath := match Request.localPath req with Some p => p | None => "" end).
    assert (Hres : localCacheTemp (snd (resolve_local localPath obs s)) = []).
    { unfold resolve_local, addToLocalCache.
      destruct (JsMap.has localPath (Cache.data (localCache s))); [exact Hempty|].
      destruct (negb (AddObs.existsSync (CompareObs.add obs)));
        [destruct (CompareObs.getDirectorySize obs); exact Hempty|].
      destruct (AddObs.getDirectorySize (CompareObs.add obs)); [|exact Hempty].
      destruct (CompareObs.getDirectorySize obs); exact Hempty. }
    destruct (resolve_local localPath obs s) as [[m|[d b]] s1]; simpl in *;
      [exact Hres|].
    destruct (JsMap.get _ (Cache.data (remoteCache s1))); exact Hres.
  - unfold resume_listing in Hstep.
    destruct (nth_error (tasks s) task) as [[startTime|]|]; try discriminate.
    destruct result; injection Hstep as <-; [exact Hempty|].
    now rewrite Hloop.
  - unfold resume_size in Hstep.
    destruct (nth_error (tasks s) task) as [[|startTime remotes i remoteStartTime]|];
      try discriminate.
    injection Hstep as <-. rewrite Hloop.
    destruct result as [sizeInfo|]; [destruct (no_error sizeInfo)|]; exact Hempty.
Qed.

Lemma reachable_localCacheTemp (tz : Z) (s : State) :
  reachable tz s -> localCacheTemp s = [].
Proof.
  intros [es Hrun].
  assert (H : forall es s0, localCacheTemp s0 = [] -> run tz es s0 = Some s ->
                            localCacheTemp s = []).
  { clear. intros es. induction es as [|e es IH]; intros s0 H0 Hrun; simpl in Hrun.
    - now injection Hrun as <-.
    - destruct (step tz e s0) as [s1|] eqn:Hstep; [|discriminate].
      eapply IH; [|exact Hrun]. eapply step_localCacheTemp; eauto. }
  apply (H es initial); [reflexivity|exact Hrun].
Qed.

(** In every state of the service, a tracked directory that is not probed
    with success during a local cycle has no entry once the cycle has
    published. *)
Lemma local_cycle_keeps_only_probed (tz : Z) (obs : LocalObs.t) (s : State) (k : string) :
  reachable tz s ->
  ~ probe_succeeds (LocalObs.dir obs k) ->
  JsMap.get k (Cache.data (localCache (updateLocalCache obs s))) = None.
Proof.
  intros Hreach Hfail. apply JsMapFacts.get_None_keys. intros Hin.
  apply (updateLocalCache_publishes_probed obs s k
           (reachable_localCacheTemp tz s Hreach)) in Hin.
  tauto.
Qed.

(** C3.  The code at two inputs that break the claim.  First: [/data] is
    sampled at 100 bytes by an on-demand insert, leaves the cache in a
    local cycle that could not probe it, and forty days later is inserted
    on demand again, still at 100 bytes.  [addToLocalCache] pushes the
    sample without comparing it with the last one and without pruning: the
    record holds two consecutive samples of 100 bytes, the older one more
    than thirty days older than the newest.  Second: two comparisons whose
    on-demand insert fails and whose direct computation finds 100 bytes;
    the fallback pushes both samples. *)
Theorem on_demand_insert_appends_duplicate :
  (exists s,
      run 0 [CompareRequest LocalScenario.compare_data LocalScenario.first_probe;
             LocalInterval 4000 LocalScenario.data_missing;
             CompareRequest LocalScenario.compare_data LocalScenario.second_probe] initial
        = Some s /\
      JsMap.get "/data" (localSizeHistory s)
        = Some [Sample.mk 3010 100; Sample.mk (LocalScenario.forty_days + 3010) 100] /\
      3010 < (LocalScenario.forty_days + 3010) - thirtyDays) /\
  (exists s,
      run 0 [CompareRequest LocalScenario.compare_data
                            (LocalScenario.transient_failure 3000);
             CompareRequest LocalScenario.compare_data
                            (LocalScenario.transient_failure 9000)] initial
        = Some s /\
      JsMap.get "/data" (localSizeHistory s)
        = Some [Sample.mk 3002 100; Sample.mk 9002 100]).
Proof.
  split; eexists; repeat split; reflexivity.
Qed.

(** ** Keys of the remote cache *)

Lemma Forall_remove_nth {A} (P : A -> Prop) (n : nat) (l : list A) :
  Forall P l -> Forall P (remove_nth n l).
Proof.
  intros H. revert n. induction H as [|x l Hx Hl IH]; intros n; simpl.
  - destruct n; constructor.
  - destruct n; [assumption|]. constructor; auto.
Qed.

Lemma Forall_replace_nth {A} (P : A -> Prop) (n : nat) (y : A) (l : list A) :
  P y -> Forall P l -> Forall P (replace_nth n y l).
Proof.
  intros Hy H. revert n. induction H as [|x l Hx Hl IH]; intros n; simpl.
  - destruct n; constructor.
  - destruct n; constructor; auto.
Qed.

Lemma Forall_keys_set {V} (P : string -> Prop) (k : string) (v : V) (m : JsMap.t V) :
  P k -> Forall P (JsMap.keys m) -> Forall P (JsMap.keys (JsMap.set k v m)).
Proof.
  intros Hk Hm. apply Forall_forall. intros k0 Hin.
  apply JsMapFacts.keys_set in Hin. destruct Hin as [->|Hin]; [assumption|].
  rewrite Forall_forall in Hm. now apply Hm.
Qed.

Lemma local_dir_remote (obs : string -> DirObs.t) (s : State) (localDir : string) :
  remote_part (local_dir obs s localDir) = remote_part s.
Proof.
  unfold local_dir.
  destruct (negb (DirObs.existsSync (obs localDir))); [reflexivity|].
  destruct (DirObs.getDirectorySize (obs localDir)); reflexivity.
Qed.

Lemma local_loop_remote (obs : string -> DirObs.t) (localDirs : list string) (s : State) :
  remote_part (fold_left (local_dir obs) localDirs s) = remote_part s.
Proof.
  revert s. induction localDirs as [|d ds IH]; intros s; simpl; [reflexivity|].
  now rewrite IH, local_dir_remote.
Qed.

Lemma updateLocalCache_remote (obs : LocalObs.t) (s : State) :
  remote_part (updateLocalCache obs s) = remote_part s.
Proof.
  unfold updateLocalCache.
  destruct (JsMap.size (Cache.data (localCache s)) =? 0)%nat; [reflexivity|].
  change (remote_part (fold_left (local_dir (LocalObs.dir obs))
                         (JsMap.keys (Cache.data (localCache s))) s) = remote_part s).
  apply local_loop_remote.
Qed.

Lemma start_local_remote (time : Z) (obs : LocalObs.t) (s : State) :
  remote_part (start_local time obs s) = remote_part s.
Proof.
  unfold start_local. now rewrite updateLocalCache_remote.
Qed.

Lemma compare_remote (tz : Z) (req : Request.t) (obs : CompareObs.t) (s : State) :
  remote_part (snd (compare tz req obs s)) = remote_part s.
Proof.
  unfold compare.
  destruct (missing (Request.remotePath req) || missing (Request.localPath req));
    [reflexivity|].
  destruct (negb (CompareObs.existsSync obs)); [reflexivity|].
  set (localPath := match Request.localPath req with Some p => p | None => "" end).
  destruct (resolve_local_remote localPath obs s) as (H1 & H2 & H3).
  destruct (resolve_local localPath obs s) as [[message|[localSizeData localSizeBytes]] s1];
    simpl in *.
  - unfold remote_part. now rewrite H1, H2, H3.
  - destruct (JsMap.get _ (Cache.data (remoteCache s1))); simpl;
      unfold remote_part; now rewrite H1, H2, H3.
Qed.

Lemma remote_keys_inv_part (s s' : State) :
  remote_part s' = remote_part s -> remote_keys_inv s -> remote_keys_inv s'.
Proof.
  unfold remote_part, remote_keys_inv. intros H. injection H as -> -> ->. auto.
Qed.

Lemma start_remote_inv (updateStartTime startTime : Z) (s : State) :
  remote_keys_inv s -> remote_keys_inv (start_remote updateStartTime startTime s).
Proof.
  intros (Hd & Ht & Hk). unfold remote_keys_inv. simpl. unfold JsMap.copy.
  repeat split; auto.
  apply Forall_app. split; [assumption|]. repeat constructor.
Qed.

Lemma remote_finally_inv (s : State) :
  remote_keys_inv s -> remote_keys_inv (remote_finally s).
Proof.
  intros (Hd & Ht & Hk). unfold remote_keys_inv. simpl. unfold JsMap.copy.
  repeat split; auto.
Qed.

Lemma remote_loop_inv (task : nat) (startTime : Z) (remotes : list string) (i : nat)
    (now : Z) (s : State) :
  Forall (fun remote => has_colon remote = false) remotes ->
  remote_keys_inv s -> remote_keys_inv (remote_loop task startTime remotes i now s).
Proof.
  intros Hr (Hd & Ht & Hk). unfold remote_loop.
  destruct (i <? List.length remotes)%nat.
  - unfold remote_keys_inv. simpl. repeat split; auto.
    apply Forall_replace_nth; assumption.
  - apply remote_finally_inv. unfold remote_keys_inv. simpl. repeat split; auto.
    now apply Forall_remove_nth.
Qed.

Lemma nth_names (i : nat) (remotes : list string) :
  Forall (fun remote => has_colon remote = false) remotes ->
  has_colon (nth i remotes "") = false.
Proof.
  intros H. destruct (nth_in_or_default i remotes "") as [Hin | ->]; [|reflexivity].
  rewrite Forall_forall in H. now apply H.
Qed.

Lemma step_inv (tz : Z) (e : Event) (s s' : State) :
  lists_remote_names e -> step tz e s = Some s' ->
  remote_keys_inv s -> remote_keys_inv s'.
Proof.
  intros He Hstep Hinv. destruct e; simpl in Hstep.
  - injection Hstep as <-.
    eapply remote_keys_inv_part; [apply start_local_remote|].
    now apply start_remote_inv.
  - injection Hstep as <-. now apply start_remote_inv.
  - injection Hstep as <-.
    eapply remote_keys_inv_part; [apply start_local_remote|assumption].
  - injection Hstep as <-. unfold refresh.
    set (s1 := if Cache.updateInProgress (remoteCache s) then s
               else start_remote remoteTime startTime s).
    assert (H1 : remote_keys_inv s1).
    { subst s1. destruct (Cache.updateInProgress (remoteCache s)); [assumption|].
      now apply start_remote_inv. }
    destruct (Cache.updateInProgress (localCache s1)); [assumption|].
    destruct (0 <? JsMap.size (Cache.data (localCache s1)))%nat; [|assumption].
    eapply remote_keys_inv_part; [apply start_local_remote|assumption].
  - injection Hstep as <-.
    eapply remote_keys_inv_part; [apply compare_remote|assumption].
  - unfold resume_listing in Hstep.
    destruct (nth_error (tasks s) task) as [[startTime|]|]; try discriminate.
    destruct Hinv as (Hd & Ht & Hk).
    destruct result as [err|stdout]; injection Hstep as <-.
    + apply remote_finally_inv. unfold remote_keys_inv. simpl. repeat split; auto.
      now apply Forall_remove_nth.
    + apply remote_loop_inv; [exact He|]. unfold remote_keys_inv. auto.
  - unfold resume_size in Hstep.
    destruct (nth_error (tasks s) task) as [[|startTime remotes i remoteStartTime]|] eqn:Hnth;
      try discriminate.
    injection Hstep as <-.
    destruct Hinv as (Hd & Ht & Hk).
    assert (Hnames : Forall (fun remote => has_colon remote = false) remotes).
    { rewrite Forall_forall in Hk. apply (Hk _ (nth_error_In _ _ Hnth)). }
    apply remote_loop_inv; [assumption|].
    destruct result as [sizeInfo|]; [|unfold remote_keys_inv; auto].
    destruct (no_error sizeInfo); [|unfold remote_keys_inv; auto].
    unfold remote_keys_inv. simpl. repeat split; auto.
    apply Forall_keys_set; [|assumption].
    exists (nth i remotes ""). split; [now apply nth_names|reflexivity].
Qed.

Lemma run_inv (tz : Z) (es : list Event) (s s' : State) :
  Forall lists_remote_names es -> run tz es s = Some s' ->
  remote_keys_inv s -> remote_keys_inv s'.
Proof.
  revert s. induction es as [|e es IH]; intros s Hes Hrun Hinv; simpl in Hrun.
  - now injection Hrun as <-.
  - inversion Hes as [|? ? He Hes']; subst.
    destruct (step tz e s) as [s1|] eqn:Hstep; [|discriminate].
    eapply IH; eauto. eapply step_inv; eauto.
Qed.

Lemma initial_inv : remote_keys_inv initial.
Proof. unfold remote_keys_inv. simpl. repeat split; constructor. Qed.

(** A path with a sub-path is the root of no remote. *)
Lemma subpath_not_root (name sub n : string) :
  has_colon name = false -> has_colon n = false ->
  name ^^ ":" ^^ sub = n ^^ ":" -> sub = "".
Proof.
  revert n. induction name as [|c name IH]; intros n Hname Hn Heq.
  - destruct n as [|c' n']; simpl in *.
    + now injection Heq.
    + injection Heq as <- _. simpl in Hn. discriminate.
  - destruct n as [|c' n']; simpl in *.
    + injection Heq as -> _. simpl in Hname. discriminate.
    + injection Heq as -> Heq. apply orb_false_elim in Hname, Hn.
      eapply IH; [apply Hname|apply Hn|exact Heq].
Qed.

(** ** The cache-miss answer *)

Lemma add_succeeds_dec (o : AddObs.t) : add_succeeds o \/ ~ add_succeeds o.
Proof.
  unfold add_succeeds. destruct (AddObs.existsSync o).
  - destruct (AddObs.getDirectorySize o) as [message|sizeBytes].
    + right. intros [_ [sz H]]. discriminate.
    + left. eauto.
  - right. intros [H _]. discriminate.
Qed.

Lemma addToLocalCache_ok (path : string) (o : AddObs.t) (s : State) (sizeBytes : Z) :
  AddObs.existsSync o = true -> AddObs.getDirectorySize o = inr sizeBytes ->
  let dirInfo := Entry.mk (Some sizeBytes) None (AddObs.endTime o)
                          (Some (AddObs.endTime o - AddObs.startTime o)) None in
  exists s',
    addToLocalCache path o s = (inr dirInfo, s') /\
    JsMap.get path (Cache.data (localCache s')) = Some dirInfo /\
    localSizeHistory s'
    = push_size path (AddObs.endTime o) sizeBytes (localSizeHistory s).
Proof.
  intros Hex Hsz dirInfo. unfold addToLocalCache. rewrite Hex, Hsz. simpl.
  eexists. split; [reflexivity|]. simpl. split; [|reflexivity].
  apply JsMapFacts.get_set_same.
Qed.

Lemma addToLocalCache_fails (path : string) (o : AddObs.t) (s : State) :
  ~ add_succeeds o -> exists message, addToLocalCache path o s = (inl message, s).
Proof.
  unfold add_succeeds, addToLocalCache. intros Hn.
  destruct (AddObs.existsSync o); simpl; eauto.
  destruct (AddObs.getDirectorySize o) as [message|sizeBytes]; eauto.
  exfalso. apply Hn. eauto.
Qed.

Lemma resolve_local_fails (localPath : string) (obs : CompareObs.t) (s : State) :
  ~ local_resolves localPath obs s ->
  exists message,
    CompareObs.getDirectorySize obs = inl message /\
    resolve_local localPath obs s = (inl message, s).
Proof.
  unfold local_resolves, resolve_local. intros Hn.
  destruct (JsMap.has localPath (Cache.data (localCache s))); [tauto|].
  destruct (addToLocalCache_fails localPath (CompareObs.add obs) s) as [m ->]; [tauto|].
  destruct (CompareObs.getDirectorySize obs) as [message|sizeBytes]; eauto.
  exfalso. apply Hn. eauto.
Qed.

Lemma resolve_local_resolves (localPath : string) (obs : CompareObs.t) (s : State) :
  local_resolves localPath obs s ->
  exists localSizeData localSizeBytes s',
    resolve_local localPath obs s = (inr (localSizeData, localSizeBytes), s').
Proof.
  unfold local_resolves, resolve_local. intros H.
  destruct (JsMap.has localPath (Cache.data (localCache s))); [eauto|].
  destruct (add_succeeds_dec (CompareObs.add obs)) as [[Hex [sz Hsz]]|Hadd].
  - destruct (addToLocalCache_ok localPath _ s sz Hex Hsz) as (s' & -> & _). eauto.
  - destruct (addToLocalCache_fails localPath _ s Hadd) as [m ->].
    destruct H as [H|[H|[sz ->]]]; [discriminate|tauto|eauto].
Qed.

Lemma scan_change_truncated (tz : Z) (history : list Sample.t) (i : nat) (t : Z) :
  scan_change tz history i = Some t -> exists t0, t = setMinutes000 tz t0.
Proof.
  induction i as [|i IH]; [discriminate|]. cbn [scan_change].
  destruct (nth_error history (S i)) as [cur|]; [|exact IH].
  destruct (nth_error history i) as [prev|]; [|exact IH].
  destruct (negb (Sample.bytes cur =? Sample.bytes prev)); [|exact IH].
  intros H. injection H as <-. eauto.
Qed.

Lemma getLastModified_truncated (tz : Z) (h : JsMap.t (list Sample.t)) (path : string)
    (t : Z) :
  getLastModified tz h path = Some t -> (t + tz) mod msPerHour = 0.
Proof.
  unfold getLastModified, lastModified_of.
  destruct (JsMap.get path h) as [history|]; [|discriminate].
  destruct (List.length history =? 0)%nat; [discriminate|].
  destruct (scan_change tz history (List.length history - 1)) as [t1|] eqn:Hscan.
  - intros H. injection H as <-.
    destruct (scan_change_truncated _ _ _ _ Hscan) as [t0 ->].
    apply (setMinutes000_hour tz t0).
  - destruct history as [|first rest]; [discriminate|].
    intros H. injection H as <-. apply (setMinutes000_hour tz).
Qed.

Lemma missing_false (x : option string) (v : string) :
  x = Some v -> v <> "" -> missing x = false.
Proof.
  intros -> Hv. destruct v; [congruence|reflexivity].
Qed.

(** The answer to a request whose remote path is not cached. *)
Lemma compare_miss (tz : Z) (req : Request.t) (obs : CompareObs.t) (s : State)
    (remotePath localPath : string) :
  Request.remotePath req = Some remotePath -> remotePath <> "" ->
  Request.localPath req = Some localPath -> localPath <> "" ->
  CompareObs.existsSync obs = true ->
  JsMap.get remotePath (Cache.data (remoteCache s)) = None ->
  match resolve_local localPath obs s with
  | (inl message, s') => compare tz req obs s = (Status500 message, s')
  | (inr (localSizeData, localSizeBytes), s') =>
      exists body,
        compare tz req obs s = (Status404 body, s') /\
        CacheMiss.status body = "cache-miss" /\
        CacheMiss.remotePath body = remotePath /\
        CacheMiss.localPath body = localPath /\
        CacheMiss.lastModified body = getLastModified tz (localSizeHistory s') localPath /\
        CacheMiss.lastModifiedFormatted body
        = formatDateToLocal tz (CacheMiss.lastModified body) /\
        CacheMiss.local body = local_view (CompareObs.floorLog obs) localSizeData localSizeBytes /\
        CacheMiss.cacheStatus body
        = RefreshStatus.mk (Cache.lastUpdated (remoteCache s))
                           (Cache.updateInProgress (remoteCache s))
                           (Cache.updateStartTime (remoteCache s))
  end.
Proof.
  intros Hrp Hrne Hlp Hlne Hex Hget. unfold compare.
  rewrite (missing_false _ _ Hrp Hrne), (missing_false _ _ Hlp Hlne), Hrp, Hlp, Hex.
  simpl.
  destruct (resolve_local_remote localPath obs s) as (H1 & _ & _).
  destruct (resolve_local localPath obs s) as [[message|[localSizeData localSizeBytes]] s'];
    [reflexivity|].
  simpl in H1. rewrite H1, Hget.
  eexists. split; [reflexivity|]. repeat split.
Qed.

Lemma resolve_local_cases (localPath : string) (obs : CompareObs.t) (s : State) :
  (forall e, JsMap.get localPath (Cache.data (localCache s)) = Some e ->
     resolve_local localPath obs s = (inr (Some e, Entry.bytes e), s)) /\
  (JsMap.get localPath (Cache.data (localCache s)) = None ->
   forall sizeBytes,
     AddObs.existsSync (CompareObs.add obs) = true ->
     AddObs.getDirectorySize (CompareObs.add obs) = inr sizeBytes ->
     exists dirInfo s',
       resolve_local localPath obs s = (inr (Some dirInfo, Some sizeBytes), s') /\
       Entry.bytes dirInfo = Some sizeBytes /\
       JsMap.get localPath (Cache.data (localCache s')) = Some dirInfo) /\
  (JsMap.get localPath (Cache.data (localCache s)) = None ->
   ~ add_succeeds (CompareObs.add obs) ->
   forall sizeBytes,
     CompareObs.getDirectorySize obs = inr sizeBytes ->
     exists s',
       resolve_local localPath obs s = (inr (None, Some sizeBytes), s') /\
       localCache s' = localCache s).
Proof.
  unfold resolve_local. split; [|split].
  - intros e He. unfold JsMap.has. now rewrite He.
  - intros Hget sizeBytes Hex Hsz.
    apply JsMapFacts.has_false_get in Hget. rewrite Hget.
    destruct (addToLocalCache_ok localPath _ s sizeBytes Hex Hsz) as (s' & -> & Hg & _).
    eauto.
  - intros Hget Hadd sizeBytes Hsz.
    apply JsMapFacts.has_false_get in Hget. rewrite Hget.
    destruct (addToLocalCache_fails localPath _ s Hadd) as [m ->].
    rewrite Hsz. eauto.
Qed.

(** C4.  When every listing names remotes (names without a colon), every
    key of the remote cache is [name:] for a remote [name]; so a remote
    path [name:sub] with a sub-path is not a key, and a comparison that
    asks for it is not answered from the cache: it gets the cache-miss
    answer as soon as its local size is resolved. *)
Theorem remote_keys_are_roots (tz : Z) (es : list Event) (s : State) :
  Forall lists_remote_names es ->
  run tz es initial = Some s ->
  (forall k, In k (JsMap.keys (Cache.data (remoteCache s))) -> bare_root k) /\
  (forall name sub,
      has_colon name = false -> sub <> "" ->
      JsMap.get (name ^^ ":" ^^ sub) (Cache.data (remoteCache s)) = None /\
      forall req obs,
        Request.remotePath req = Some (name ^^ ":" ^^ sub) ->
        (forall body, fst (compare tz req obs s) <> Status200 body) /\
        (forall localPath,
            Request.localPath req = Some localPath -> localPath <> "" ->
            CompareObs.existsSync obs = true ->
            local_resolves localPath obs s ->
            exists body, fst (compare tz req obs s) = Status404 body)).
Proof.
  intros Hes Hrun.
  destruct (run_inv tz es initial s Hes Hrun initial_inv) as (Hkeys & _ & _).
  rewrite Forall_forall in Hkeys.
  split; [exact Hkeys|].
  intros name sub Hname Hsub.
  assert (Hget : JsMap.get (name ^^ ":" ^^ sub) (Cache.data (remoteCache s)) = None).
  { apply JsMapFacts.get_None_keys. intros Hin.
    destruct (Hkeys _ Hin) as (n & Hn & Heq).
    apply Hsub. exact (subpath_not_root name sub n Hname Hn Heq). }
  split; [exact Hget|].
  intros req obs Hrp. split.
  - intros body Hfst.
    destruct (compare tz req obs s) as [resp s'] eqn:Hc. simpl in Hfst. subst resp.
    destruct (compare_200_inv _ _ _ _ _ _ Hc)
      as (remotePath & lp & d & b & e & Hrp' & _ & _ & Hhit & _).
    rewrite Hrp in Hrp'.
    assert (Heq : remotePath = name ^^ ":" ^^ sub) by (injection Hrp'; auto).
    rewrite Heq, Hget in Hhit. discriminate Hhit.
  - intros localPath Hlp Hlne Hex Hres.
    assert (Hrne : name ^^ ":" ^^ sub <> "") by (destruct name; discriminate).
    pose proof (compare_miss tz req obs s _ _ Hrp Hrne Hlp Hlne Hex Hget) as Hm.
    destruct (resolve_local_resolves _ _ _ Hres) as (d & b & s' & Hr).
    rewrite Hr in Hm. destruct Hm as (body & Hc & _).
    exists body. now rewrite Hc.
Qed.

(** After the refresh that cached [gdrive:], a comparison with
    [gdrive:backup/photos] is a cache miss. *)
Lemma remote_keys_are_roots_witness :
  bare_root "gdrive:" /\
  JsMap.get "gdrive:backup/photos" (Cache.data (remoteCache Scenario.after_remote_cycle))
  = None /\
  exists body,
    fst (compare 0 Scenario.compare_subpath Scenario.probe_data
                 Scenario.after_remote_cycle) = Status404 body.
Proof.
  assert (Hes : Forall lists_remote_names Scenario.remote_cycle)
    by (repeat constructor).
  destruct (remote_keys_are_roots 0 Scenario.remote_cycle Scenario.after_remote_cycle
              Hes eq_refl) as [Hkeys Hsub].
  split; [apply Hkeys; simpl; auto|].
  destruct (Hsub "gdrive" "backup/photos" eq_refl ltac:(discriminate)) as [Hget Hreq].
  split; [exact Hget|].
  destruct (Hreq Scenario.compare_subpath Scenario.probe_data eq_refl) as [_ Hmiss].
  apply (Hmiss "/data" eq_refl ltac:(discriminate) eq_refl).
  right. left. split; [reflexivity|]. eexists. reflexivity.
Defined.

(** C9, as stated, fails: [/data] exists and the remote path is not
    cached, but [/data] cannot be read; the on-demand insertion and the
    direct computation both throw, and the answer is status 500. *)
Lemma compare_miss_unreadable_local :
  ~ (forall tz req obs s remotePath localPath,
        reachable tz s ->
        Request.remotePath req = Some remotePath -> remotePath <> "" ->
        Request.localPath req = Some localPath -> localPath <> "" ->
        CompareObs.existsSync obs = true ->
        JsMap.get remotePath (Cache.data (remoteCache s)) = None ->
        exists body, fst (compare tz req obs s) = Status404 body).
Proof.
  intros H.
  destruct (H 0 Scenario.compare_subpath Scenario.unreadable_data
              Scenario.after_remote_cycle "gdrive:backup/photos" "/data"
              (ex_intro _ Scenario.remote_cycle eq_refl)
              eq_refl ltac:(discriminate) eq_refl ltac:(discriminate) eq_refl eq_refl)
    as [body Hbody].
  discriminate Hbody.
Qed.

(** C9, amended.  For a request with both paths, an existing local path and
    a remote path that is not cached: when the local size is resolved the
    answer is the 404 cache-miss body, with the local size (the cached
    entry; or the entry probed and inserted on demand; or, after a failed
    insertion, the size computed directly, with no entry inserted and no
    [cachedAt]), the last-changed time at the start of its hour and its
    display form, and the refresh marks of the remote cache; the body has
    no remote size.  When the local size cannot be resolved the answer is
    status 500, with the message of the error that the direct computation
    threw, and the state is left as it was. *)
Theorem compare_miss_payload (tz : Z) (req : Request.t) (obs : CompareObs.t) (s : State)
    (remotePath localPath : string) :
  Request.remotePath req = Some remotePath -> remotePath <> "" ->
  Request.localPath req = Some localPath -> localPath <> "" ->
  CompareObs.existsSync obs = true ->
  JsMap.get remotePath (Cache.data (remoteCache s)) = None ->
  (local_resolves localPath obs s ->
   exists body s',
     compare tz req obs s = (Status404 body, s') /\
     CacheMiss.status body = "cache-miss" /\
     CacheMiss.lastModified body = getLastModified tz (localSizeHistory s') localPath /\
     (forall t, CacheMiss.lastModified body = Some t -> (t + tz) mod (60 * 60 * 1000) = 0) /\
     CacheMiss.lastModifiedFormatted body
     = formatDateToLocal tz (CacheMiss.lastModified body) /\
     CacheMiss.cacheStatus body
     = RefreshStatus.mk (Cache.lastUpdated (remoteCache s))
                        (Cache.updateInProgress (remoteCache s))
                        (Cache.updateStartTime (remoteCache s)) /\
     LocalView.formatted (CacheMiss.local body)
     = formatBytes_opt (CompareObs.floorLog obs) (LocalView.bytes (CacheMiss.local body)) /\
     (forall e,
         JsMap.get localPath (Cache.data (localCache s)) = Some e ->
         s' = s /\
         LocalView.bytes (CacheMiss.local body) = Entry.bytes e /\
         LocalView.cachedAt (CacheMiss.local body) = Some (Entry.timestamp e)) /\
     (JsMap.get localPath (Cache.data (localCache s)) = None ->
      forall sizeBytes,
        AddObs.existsSync (CompareObs.add obs) = true ->
        AddObs.getDirectorySize (CompareObs.add obs) = inr sizeBytes ->
        exists dirInfo,
          JsMap.get localPath (Cache.data (localCache s')) = Some dirInfo /\
          Entry.bytes dirInfo = Some sizeBytes /\
          LocalView.bytes (CacheMiss.local body) = Some sizeBytes /\
          LocalView.cachedAt (CacheMiss.local body) = Some (Entry.timestamp dirInfo)) /\
     (JsMap.get localPath (Cache.data (localCache s)) = None ->
      ~ add_succeeds (CompareObs.add obs) ->
      forall sizeBytes,
        CompareObs.getDirectorySize obs = inr sizeBytes ->
        localCache s' = localCache s /\
        LocalView.bytes (CacheMiss.local body) = Some sizeBytes /\
        LocalView.cachedAt (CacheMiss.local body) = None)) /\
  (~ local_resolves localPath obs s ->
   exists message,
     CompareObs.getDirectorySize obs = inl message /\
     compare tz req obs s = (Status500 message, s)).
Proof.
  intros Hrp Hrne Hlp Hlne Hex Hget.
  pose proof (compare_miss tz req obs s _ _ Hrp Hrne Hlp Hlne Hex Hget) as Hm.
  destruct (resolve_local_cases localPath obs s) as (Hcached & Hadd & Hfall).
  split.
  - intros Hres.
    destruct (resolve_local_resolves _ _ _ Hres) as (d & b & s' & Hr).
    rewrite Hr in Hm.
    destruct Hm as (body & Hc & Hst & _ & _ & Hlm & Hlmf & Hloc & Hcs).
    exists body, s'. split; [exact Hc|]. split; [exact Hst|]. split; [exact Hlm|].
    split.
    { intros t Ht. rewrite Hlm in Ht.
      apply (getLastModified_truncated _ _ _ _ Ht). }
    split; [exact Hlmf|]. split; [exact Hcs|].
    split; [rewrite Hloc; reflexivity|].
    rewrite Hloc. split; [|split].
    + intros e He. rewrite (Hcached e He) in Hr. injection Hr as <- <- <-. auto.
    + intros Hnone sizeBytes Hx Hsz.
      destruct (Hadd Hnone sizeBytes Hx Hsz) as (dirInfo & s1 & Hr1 & Hb & Hg).
      rewrite Hr1 in Hr. injection Hr as <- <- <-. exists dirInfo. auto.
    + intros Hnone Hnadd sizeBytes Hsz.
      destruct (Hfall Hnone Hnadd sizeBytes Hsz) as (s1 & Hr1 & Hl).
      rewrite Hr1 in Hr. injection Hr as <- <- <-. auto.
  - intros Hn. destruct (resolve_local_fails _ _ _ Hn) as (message & Hd & Hr).
    rewrite Hr in Hm. eauto.
Qed.

(** The cache-miss answer for [gdrive:backup/photos] and a readable
    [/data]. *)
Lemma compare_miss_payload_witness :
  exists body s',
    compare 0 Scenario.compare_subpath Scenario.probe_data
            Scenario.after_remote_cycle = (Status404 body, s') /\
    CacheMiss.status body = "cache-miss" /\
    LocalView.bytes (CacheMiss.local body) = Some 5368709120 /\
    CacheMiss.lastModifiedFormatted body = Some "01/01/70 12AM".
Proof.
  destruct (compare_miss_payload 0 Scenario.compare_subpath Scenario.probe_data
              Scenario.after_remote_cycle "gdrive:backup/photos" "/data"
              eq_refl ltac:(discriminate) eq_refl ltac:(discriminate) eq_refl eq_refl)
    as [Hok _].
  destruct Hok as (body & s' & Hc & Hst & Hlm & _ & Hlmf & _ & _ & _ & Hadd & _).
  { right. left. split; [reflexivity|]. eexists. reflexivity. }
  exists body, s'. split; [exact Hc|]. split; [exact Hst|].
  destruct (Hadd eq_refl 5368709120 eq_refl eq_refl) as (dirInfo & _ & _ & Hb & _).
  split; [exact Hb|].
  rewrite Hlmf. injection Hc as <- _. reflexivity.
Defined.

(** ** A failed listing *)

Lemma starts_remote_part (tz : Z) (e : Event) (s s0 : State) :
  starts_remote e s -> step tz e s = Some s0 ->
  exists updateStartTime startTime,
    remote_part s0 = remote_part (start_remote updateStartTime startTime s).
Proof.
  intros Hstart Hstep. destruct e; simpl in Hstart; try contradiction;
    simpl in Hstep; injection Hstep as <-.
  - exists remoteTime, startTime. apply start_local_remote.
  - exists nextUpdateTime, startTime. reflexivity.
  - exists remoteTime, startTime. unfold refresh. rewrite Hstart.
    set (s1 := start_remote remoteTime startTime s).
    destruct (Cache.updateInProgress (localCache s1)); [reflexivity|].
    destruct (0 <? JsMap.size (Cache.data (localCache s1)))%nat; [|reflexivity].
    apply start_local_remote.
Qed.

Lemma quiet_step_remote (tz : Z) (e : Event) (s s' : State) :
  remote_quiet e = true ->
  Cache.updateInProgress (remoteCache s) = true ->
  step tz e s = Some s' -> remote_part s' = remote_part s.
Proof.
  intros Hq Hflag Hstep. destruct e; try discriminate; simpl in Hstep;
    injection Hstep as <-.
  - apply start_local_remote.
  - unfold refresh. rewrite Hflag.
    destruct (Cache.updateInProgress (localCache s)); [reflexivity|].
    destruct (0 <? JsMap.size (Cache.data (localCache s)))%nat; [|reflexivity].
    apply start_local_remote.
  - apply compare_remote.
Qed.

Lemma quiet_run_remote (tz : Z) (es : list Event) (s s' : State) :
  forallb remote_quiet es = true ->
  Cache.updateInProgress (remoteCache s) = true ->
  run tz es s = Some s' -> remote_part s' = remote_part s.
Proof.
  revert s. induction es as [|e es IH]; intros s Hq Hflag Hrun; simpl in *.
  - now injection Hrun as <-.
  - apply andb_prop in Hq. destruct Hq as [He Hes].
    destruct (step tz e s) as [s1|] eqn:Hstep; [|discriminate].
    pose proof (quiet_step_remote tz e s s1 He Hflag Hstep) as H1.
    rewrite <- H1. apply IH; auto.
    unfold remote_part in H1. injection H1 as -> _ _. exact Hflag.
Qed.

Lemma run_cons (tz : Z) (e : Event) (es : list Event) (s s' : State) :
  run tz (e :: es) s = Some s' ->
  exists s0, step tz e s = Some s0 /\ run tz es s0 = Some s'.
Proof.
  simpl. destruct (step tz e s) as [s0|]; [eauto|discriminate].
Qed.

(** X19.  A remote cycle is started (by a timer, or by a manual refresh
    that finds none marked as running) and its listing fails, while only
    local cycles, comparisons and manual refreshes occur in between, so
    that no other activation of [updateRemoteCache] is started or resumed:
    the cycle ends, every key of the remote cache maps to what it mapped
    to before the cycle, no key is added, and [lastUpdated] is
    unchanged. *)
Theorem listing_error_keeps_snapshot (tz : Z) (e : Event) (es : list Event)
    (s s1 : State) (error : string) (now : Z) :
  starts_remote e s ->
  forallb remote_quiet es = true ->
  run tz (e :: es) s = Some s1 ->
  exists s2,
    step tz (ListingSettled (List.length (tasks s)) (inl error) now) s1 = Some s2 /\
    Cache.data (remoteCache s2) = Cache.data (remoteCache s) /\
    (forall k, JsMap.get k (Cache.data (remoteCache s2))
               = JsMap.get k (Cache.data (remoteCache s))) /\
    Cache.lastUpdated (remoteCache s2) = Cache.lastUpdated (remoteCache s) /\
    tasks s2 = tasks s.
Proof.
  intros Hstart Hq Hrun.
  destruct (run_cons _ _ _ _ _ Hrun) as (s0 & Hstep & Hes).
  destruct (starts_remote_part tz e s s0 Hstart Hstep) as (t & t' & H0).
  assert (Hflag : Cache.updateInProgress (remoteCache s0) = true).
  { unfold remote_part in H0. injection H0 as -> _ _. reflexivity. }
  pose proof (quiet_run_remote tz es s0 s1 Hq Hflag Hes) as H1.
  rewrite H0 in H1. unfold remote_part in H1. simpl in H1.
  injection H1 as Hc Ht Hk.
  assert (Hnth : nth_error (tasks s1) (List.length (tasks s)) = Some (AwaitListing t')).
  { rewrite Hk, nth_error_app2 by lia. now rewrite Nat.sub_diag. }
  assert (Hrm : remove_nth (List.length (tasks s)) (tasks s1) = tasks s).
  { rewrite Hk. clear. induction (tasks s) as [|x l IH]; simpl; [reflexivity|].
    now rewrite IH. }
  simpl. unfold resume_listing. rewrite Hnth.
  eexists. split; [reflexivity|]. simpl. unfold JsMap.copy.
  rewrite Ht, Hc, Hrm. simpl. unfold JsMap.copy. auto.
Qed.

(** The hourly timer fires while the listing is pending, then the listing
    fails. *)
Lemma listing_error_keeps_snapshot_witness :
  exists s2,
    run 0 [RemoteInterval 5000 5001; LocalInterval 6000 Scenario.no_dirs;
           ListingSettled 0 (inl "rclone: command not found") 7000]
        Scenario.after_remote_cycle = Some s2 /\
    Cache.data (remoteCache s2) = Cache.data (remoteCache Scenario.after_remote_cycle) /\
    Cache.lastUpdated (remoteCache s2) = Some 2502.
Proof.
  destruct (listing_error_keeps_snapshot 0 (RemoteInterval 5000 5001)
              [LocalInterval 6000 Scenario.no_dirs]
              Scenario.after_remote_cycle _ "rclone: command not found" 7000
              I eq_refl eq_refl) as (s2 & Hstep & Hdata & _ & Hlu & _).
  exists s2. split; [exact Hstep|]. split; [exact Hdata|exact Hlu].
Defined.

(** C7.  The code at the input that breaks the claim.  The remote cache
    holds [gdrive:].  A manual refresh starts a remote cycle, and while its
    listing is pending the 24-hour timer starts a second one, which the
    timer callback does without testing [updateInProgress]; both work on
    the one [remoteCacheTemp].  The first cycle lists [gdrive], obtains its
    size and returns: its [finally] publishes the temporary map and clears
    it.  Then the listing of the second cycle fails: its [finally]
    publishes the cleared map, and the remote cache, which held [gdrive:]
    when that cycle began, is left empty.  With no second cycle in flight
    the same failure leaves the cache as it was. *)
Theorem listing_error_after_overlap_empties_cache :
  let fresh := SizeObject (SizeInfo.mk None (Some 5368709120) (Some 150)) in
  exists s2 s4 s5 kept old,
    run 0 (Scenario.remote_cycle
           ++ [RefreshRequest 5000 5001 5002 Scenario.no_dirs; RemoteInterval 6000 6001])
        initial = Some s2 /\
    tasks s2 = [AwaitListing 5001; AwaitListing 6001] /\
    JsMap.get "gdrive:" (Cache.data (remoteCache s2)) = Some old /\
    run 0 [ListingSettled 0 (inr ("gdrive:" ^^ Scenario.LF)) 7000;
           SizeSettled 0 fresh 8000 8001 8002] s2 = Some s4 /\
    tasks s4 = [AwaitListing 6001] /\
    JsMap.has "gdrive:" (Cache.data (remoteCache s4)) = true /\
    step 0 (ListingSettled 0 (inl "rclone: command not found") 9000) s4 = Some s5 /\
    tasks s5 = [] /\
    Cache.data (remoteCache s5) = [] /\
    JsMap.get "gdrive:" (Cache.data (remoteCache s5)) = None /\
    run 0 (Scenario.remote_cycle
           ++ [RemoteInterval 6000 6001;
               ListingSettled 0 (inl "rclone: command not found") 9000])
        initial = Some kept /\
    JsMap.get "gdrive:" (Cache.data (remoteCache kept)) = Some old /\
    Cache.lastUpdated (remoteCache kept) = Some 2502.
Proof.
  intros fresh. do 5 eexists.
  split; [vm_compute; reflexivity|].
  do 2 (split; [reflexivity|]).
  split; [vm_compute; reflexivity|].
  do 2 (split; [reflexivity|]).
  split; [vm_compute; reflexivity|].
  do 3 (split; [reflexivity|]).
  split; [vm_compute; reflexivity|].
  split; reflexivity.
Qed.

(** ** Release of the refresh marks *)

Lemma length_replace_nth {A} (n : nat) (y : A) (l : list A) :
  List.length (replace_nth n y l) = List.length l.
Proof.
  revert n. induction l as [|x l IH]; intros [|n]; simpl; auto.
Qed.

Lemma length_remove_nth {A} (n : nat) (l : list A) :
  (n < List.length l)%nat -> S (List.length (remove_nth n l)) = List.length l.
Proof.
  revert n. induction l as [|x l IH]; intros [|n]; simpl; intros H; try lia.
  rewrite IH; lia.
Qed.

Lemma nth_error_replace_nth {A} (n : nat) (y : A) (l : list A) :
  (n < List.length l)%nat -> nth_error (replace_nth n y l) n = Some y.
Proof.
  revert n. induction l as [|x l IH]; intros [|n]; simpl; intros H; try lia; auto.
  apply IH. lia.
Qed.

Lemma remove_replace_nth {A} (n : nat) (y : A) (l : list A) :
  remove_nth n (replace_nth n y l) = remove_nth n l.
Proof.
  revert n. induction l as [|x l IH]; intros [|n]; simpl; auto.
  now rewrite IH.
Qed.

Lemma nth_error_length {A} (n : nat) (l : list A) (x : A) :
  nth_error l n = Some x -> (n < List.length l)%nat.
Proof.
  intros H. apply nth_error_Some. congruence.
Qed.

Lemma remote_finally_marks (s : State) :
  marks_cleared (remoteCache (remote_finally s)) /\ tasks (remote_finally s) = tasks s.
Proof. repeat split. Qed.

Lemma updateLocalCache_marks (obs : LocalObs.t) (s : State) :
  marks_cleared (localCache (updateLocalCache obs s)).
Proof.
  unfold updateLocalCache.
  destruct (JsMap.size (Cache.data (localCache s)) =? 0)%nat; split; reflexivity.
Qed.

(** The loop head either suspends the activation or returns from it. *)
Lemma remote_loop_cases (task : nat) (startTime : Z) (remotes : list string) (i : nat)
    (now : Z) (s : State) :
  let s' := remote_loop task startTime remotes i now s in
  ((i < List.length remotes)%nat /\
   tasks s' = replace_nth task (AwaitSize startTime remotes i now) (tasks s)) \/
  ((List.length remotes <= i)%nat /\
   tasks s' = remove_nth task (tasks s) /\ marks_cleared (remoteCache s')).
Proof.
  unfold remote_loop. destruct (Nat.ltb_spec i (List.length remotes)).
  - left. split; [assumption|reflexivity].
  - right. split; [assumption|]. repeat split.
Qed.

Lemma settled_return (tz : Z) (e : Event) (s s' : State) :
  settles e -> step tz e s = Some s' ->
  (List.length (tasks s') = List.length (tasks s) \/
   (S (List.length (tasks s')) = List.length (tasks s) /\
    marks_cleared (remoteCache s'))).
Proof.
  intros He Hstep. destruct e; simpl in He; try contradiction; simpl in Hstep.
  - unfold resume_listing in Hstep.
    destruct (nth_error (tasks s) task) as [[startTime|]|] eqn:Hnth; try discriminate.
    apply nth_error_length in Hnth.
    destruct result as [err|stdout]; injection Hstep as <-.
    + right. split; [|repeat split]. simpl. now apply length_remove_nth.
    + destruct (remote_loop_cases task startTime (parse_remotes stdout) 0 now s)
        as [[_ Ht]|[_ [Ht Hm]]]; rewrite Ht.
      * left. apply length_replace_nth.
      * right. split; [now apply length_remove_nth|exact Hm].
  - unfold resume_size in Hstep.
    destruct (nth_error (tasks s) task) as [[|startTime remotes i remoteStartTime]|] eqn:Hnth;
      try discriminate.
    apply nth_error_length in Hnth.
    injection Hstep as <-.
    match goal with
    | |- context [remote_loop task startTime remotes (S i) now ?s1] =>
        assert (Hts : tasks s1 = tasks s)
          by (destruct result as [sizeInfo|]; [destruct (no_error sizeInfo)|]; reflexivity);
        destruct (remote_loop_cases task startTime remotes (S i) now s1)
          as [[_ Ht]|[_ [Ht Hm]]]; rewrite Ht, Hts
    end.
    + left. apply length_replace_nth.
    + right. split; [now apply length_remove_nth|exact Hm].
Qed.

(** Once the listing is there, one result per remote ends the cycle. *)
Lemma size_results_complete (tz : Z) (task : nat) (remotes : list string)
    (sizes : list (RcloneSize * (Z * Z * Z))) :
  forall (i : nat) (s : State) (startTime remoteStartTime : Z),
    nth_error (tasks s) task = Some (AwaitSize startTime remotes i remoteStartTime) ->
    (i < List.length remotes)%nat ->
    List.length sizes = (List.length remotes - i)%nat ->
    exists s',
      run tz (map (size_event task) sizes) s = Some s' /\
      tasks s' = remove_nth task (tasks s) /\
      marks_cleared (remoteCache s').
Proof.
  induction sizes as [|[result [[remoteEndTime stamp] now]] sizes IH];
    intros i s startTime remoteStartTime Hnth Hi Hlen; simpl in Hlen; [lia|].
  pose proof (nth_error_length _ _ _ Hnth) as Htask.
  cbn [map size_event run step]. unfold resume_size. rewrite Hnth.
  match goal with
  | |- context [remote_loop task startTime remotes (S i) now ?s1] =>
      assert (Hts : tasks s1 = tasks s)
        by (destruct result as [sizeInfo|]; [destruct (no_error sizeInfo)|]; reflexivity);
      destruct (remote_loop_cases task startTime remotes (S i) now s1)
        as [[Hlt Ht]|[Hge [Ht Hm]]];
      set (s2 := remote_loop task startTime remotes (S i) now s1) in *
  end.
  - rewrite Hts in Ht.
    destruct (IH (S i) s2 startTime now) as (s' & Hrun & Htasks & Hmarks).
    + rewrite Ht. now apply nth_error_replace_nth.
    + exact Hlt.
    + lia.
    + exists s'. split; [exact Hrun|]. split; [|exact Hmarks].
      now rewrite Htasks, Ht, remove_replace_nth.
  - assert (sizes = []) by (destruct sizes; [reflexivity|simpl in Hlen; lia]).
    subst sizes. simpl. exists s2. split; [reflexivity|].
    split; [now rewrite Ht, Hts|exact Hm].
Qed.

(** C8.  The refresh marks of a cache ([updateInProgress] and
    [updateStartTime]) are reset whenever its cycle function returns.  The
    local cycle: after [updateLocalCache], whatever its probes did.  The
    remote cycle: a settled child process either leaves the number of
    pending activations as it is, or makes one return with the marks reset;
    a rejected listing makes the activation return at once, and a listing
    followed by one result for each remote, of whatever kind, makes it
    return. *)
Theorem marks_cleared_on_return (tz : Z) :
  (forall obs s, marks_cleared (localCache (updateLocalCache obs s))) /\
  (forall e s s',
      settles e -> step tz e s = Some s' ->
      List.length (tasks s') = List.length (tasks s) \/
      (S (List.length (tasks s')) = List.length (tasks s) /\
       marks_cleared (remoteCache s'))) /\
  (forall s task startTime error now,
      nth_error (tasks s) task = Some (AwaitListing startTime) ->
      exists s',
        step tz (ListingSettled task (inl error) now) s = Some s' /\
        tasks s' = remove_nth task (tasks s) /\
        marks_cleared (remoteCache s')) /\
  (forall s task startTime stdout now sizes,
      nth_error (tasks s) task = Some (AwaitListing startTime) ->
      List.length sizes = List.length (parse_remotes stdout) ->
      exists s',
        run tz (ListingSettled task (inr stdout) now :: map (size_event task) sizes) s
        = Some s' /\
        tasks s' = remove_nth task (tasks s) /\
        marks_cleared (remoteCache s')).
Proof.
  split; [apply updateLocalCache_marks|].
  split; [apply settled_return|].
  split.
  - intros s task startTime error now Hnth. simpl. unfold resume_listing.
    rewrite Hnth. eexists. split; [reflexivity|]. repeat split.
  - intros s task startTime stdout now sizes Hnth Hlen.
    pose proof (nth_error_length _ _ _ Hnth) as Htask.
    cbn [run step]. unfold resume_listing. rewrite Hnth.
    destruct (remote_loop_cases task startTime (parse_remotes stdout) 0 now s)
      as [[Hlt Ht]|[Hge [Ht Hm]]];
      set (s1 := remote_loop task startTime (parse_remotes stdout) 0 now s) in *.
    + destruct (size_results_complete tz task (parse_remotes stdout) sizes 0 s1 startTime now)
        as (s' & Hrun & Htasks & Hmarks).
      * rewrite Ht. now apply nth_error_replace_nth.
      * exact Hlt.
      * lia.
      * exists s'. split; [exact Hrun|]. split; [|exact Hmarks].
        now rewrite Htasks, Ht, remove_replace_nth.
    + assert (sizes = []) by (destruct sizes; [reflexivity|simpl in Hlen; lia]).
      subst sizes. simpl. exists s1. auto.
Qed.

(** A cycle over one remote whose size cannot be obtained still returns
    with the marks reset. *)
Lemma marks_cleared_on_return_witness :
  exists s',
    run 0 [ListingSettled 0 (inr ("gdrive:" ^^ Scenario.LF)) 1500;
           SizeSettled 0 SizeNull 2500 2501 2502]
        (start_remote 1000 1001 initial) = Some s' /\
    tasks s' = [] /\
    marks_cleared (remoteCache s').
Proof.
  destruct (marks_cleared_on_return 0) as (_ & _ & _ & Hreturn).
  apply (Hreturn (start_remote 1000 1001 initial) 0%nat 1001
                 ("gdrive:" ^^ Scenario.LF) 1500
                 [(SizeNull, (2500, 2501, 2502))] eq_refl eq_refl).
Defined.

(** ** Every cached entry carries a byte count *)

Lemma values_get {V} (P : V -> Prop) (k : string) (v : V) (m : JsMap.t V) :
  Forall P (values m) -> JsMap.get k m = Some v -> P v.
Proof.
  unfold values. induction m as [|[k' v'] m IH]; simpl; [discriminate|].
  intros H. inversion H as [|? ? Hv Hm]; subst.
  destruct (String.eqb k k'); [intros E; now injection E as <-|auto].
Qed.

Lemma values_set {V} (P : V -> Prop) (k : string) (v : V) (m : JsMap.t V) :
  P v -> Forall P (values m) -> Forall P (values (JsMap.set k v m)).
Proof.
  unfold values. intros Hv. induction m as [|[k' v'] m IH]; simpl; intros H.
  - repeat constructor. exact Hv.
  - inversion H as [|? ? Hv' Hm]; subst.
    destruct (String.eqb k k'); simpl; constructor; auto.
Qed.

Lemma keys_get {V} (k : string) (m : JsMap.t V) :
  In k (JsMap.keys m) -> exists v, JsMap.get k m = Some v.
Proof.
  intros Hin. destruct (JsMap.get k m) as [v|] eqn:E; [eauto|].
  apply JsMapFacts.get_None_keys in E. contradiction.
Qed.

Lemma local_dir_sized (obs : string -> DirObs.t) (s : State) (localDir : string) :
  In localDir (JsMap.keys (Cache.data (localCache s))) ->
  sized_inv s ->
  sized_inv (local_dir obs s localDir) /\
  (forall k, In k (JsMap.keys (Cache.data (localCache s))) ->
             In k (JsMap.keys (Cache.data (localCache (local_dir obs s localDir))))).
Proof.
  intros Hin (Hr & Hrt & Hl & Hlt).
  destruct (keys_get _ _ Hin) as [e He].
  assert (Hmark : forall message time,
             sized_inv (mark_error localDir message time s) /\
             (forall k, In k (JsMap.keys (Cache.data (localCache s))) ->
                        In k (JsMap.keys (Cache.data
                                (localCache (mark_error localDir message time s)))))).
  { intros message time. unfold sized_inv, mark_error. simpl. rewrite He. simpl.
    split.
    - repeat split; auto. apply values_set; [|assumption].
      destruct (values_get sized _ _ _ Hl He) as [b Hb]. exists b. exact Hb.
    - intros k Hk. apply JsMapFacts.keys_set. now right. }
  unfold local_dir.
  destruct (negb (DirObs.existsSync (obs localDir))); [apply Hmark|].
  destruct (DirObs.getDirectorySize (obs localDir)) as [message|sizeBytes];
    [apply Hmark|].
  split; [|auto]. unfold sized_inv. simpl. repeat split; auto.
  apply values_set; [|assumption]. exists sizeBytes. reflexivity.
Qed.

Lemma local_loop_sized (obs : string -> DirObs.t) (localDirs : list string) (s : State) :
  (forall d, In d localDirs -> In d (JsMap.keys (Cache.data (localCache s)))) ->
  sized_inv s ->
  sized_inv (fold_left (local_dir obs) localDirs s).
Proof.
  revert s. induction localDirs as [|d ds IH]; intros s Hkeys Hinv; simpl; [assumption|].
  destruct (local_dir_sized obs s d (Hkeys d (or_introl eq_refl)) Hinv) as [H1 H2].
  apply IH; [|exact H1].
  intros d' Hd'. apply H2, Hkeys. now right.
Qed.

Lemma local_finally_sized (s : State) : sized_inv s -> sized_inv (local_finally s).
Proof.
  intros (Hr & Hrt & Hl & Hlt). unfold sized_inv. simpl. unfold JsMap.copy.
  repeat split; auto.
Qed.

Lemma updateLocalCache_sized (obs : LocalObs.t) (s : State) :
  sized_inv s -> sized_inv (updateLocalCache obs s).
Proof.
  intros Hinv. unfold updateLocalCache.
  destruct (JsMap.size (Cache.data (localCache s)) =? 0)%nat.
  - now apply local_finally_sized.
  - apply local_finally_sized.
    pose proof (local_loop_sized (LocalObs.dir obs)
                  (JsMap.keys (Cache.data (localCache s))) s (fun d H => H) Hinv)
      as (Hr & Hrt & Hl & Hlt).
    unfold sized_inv. simpl. auto.
Qed.

Lemma start_local_sized (time : Z) (obs : LocalObs.t) (s : State) :
  sized_inv s -> sized_inv (start_local time obs s).
Proof.
  intros (Hr & Hrt & Hl & Hlt). apply updateLocalCache_sized.
  unfold sized_inv. simpl. auto.
Qed.

Lemma start_remote_sized (updateStartTime startTime : Z) (s : State) :
  sized_inv s -> sized_inv (start_remote updateStartTime startTime s).
Proof.
  intros (Hr & Hrt & Hl & Hlt). unfold sized_inv. simpl. unfold JsMap.copy. auto.
Qed.

Lemma remote_loop_sized (task : nat) (startTime : Z) (remotes : list string) (i : nat)
    (now : Z) (s : State) :
  sized_inv s -> sized_inv (remote_loop task startTime remotes i now s).
Proof.
  intros (Hr & Hrt & Hl & Hlt). unfold remote_loop.
  destruct (i <? List.length remotes)%nat; unfold sized_inv; simpl;
    unfold JsMap.copy; repeat split; auto.
Qed.

Lemma addToLocalCache_sized (path : string) (o : AddObs.t) (s : State) :
  sized_inv s -> sized_inv (snd (addToLocalCache path o s)).
Proof.
  intros (Hr & Hrt & Hl & Hlt). unfold addToLocalCache.
  destruct (negb (AddObs.existsSync o)); [repeat split; assumption|].
  destruct (AddObs.getDirectorySize o) as [message|sizeBytes];
    [repeat split; assumption|].
  unfold sized_inv. simpl. repeat split; auto.
  apply values_set; [|assumption]. exists sizeBytes. reflexivity.
Qed.

Lemma resolve_local_sized (localPath : string) (obs : CompareObs.t) (s : State) :
  sized_inv s -> sized_inv (snd (resolve_local localPath obs s)).
Proof.
  intros Hinv. unfold resolve_local.
  destruct (JsMap.has localPath (Cache.data (localCache s))); [exact Hinv|].
  pose proof (addToLocalCache_sized localPath (CompareObs.add obs) s Hinv) as H.
  destruct (addToLocalCache localPath (CompareObs.add obs) s) as [[m|dirInfo] s1];
    simpl in *; [|exact H].
  destruct (CompareObs.getDirectorySize obs); simpl; [exact H|].
  destruct H as (Hr & Hrt & Hl & Hlt). repeat split; assumption.
Qed.

Lemma compare_sized (tz : Z) (req : Request.t) (obs : CompareObs.t) (s : State) :
  sized_inv s -> sized_inv (snd (compare tz req obs s)).
Proof.
  intros Hinv. unfold compare.
  destruct (missing (Request.remotePath req) || missing (Request.localPath req));
    [exact Hinv|].
  destruct (negb (CompareObs.existsSync obs)); [exact Hinv|].
  set (localPath := match Request.localPath req with Some p => p | None => "" end).
  pose proof (resolve_local_sized localPath obs s Hinv) as H.
  destruct (resolve_local localPath obs s) as [[message|[localSizeData localSizeBytes]] s1];
    simpl in *; [exact H|].
  destruct (JsMap.get _ (Cache.data (remoteCache s1))); exact H.
Qed.

Lemma step_sized (tz : Z) (e : Event) (s s' : State) :
  step tz e s = Some s' -> sized_inv s -> sized_inv s'.
Proof.
  intros Hstep Hinv. destruct e; simpl in Hstep.
  - injection Hstep as <-. now apply start_local_sized, start_remote_sized.
  - injection Hstep as <-. now apply start_remote_sized.
  - injection Hstep as <-. now apply start_local_sized.
  - injection Hstep as <-. unfold refresh.
    set (s1 := if Cache.updateInProgress (remoteCache s) then s
               else start_remote remoteTime startTime s).
    assert (H1 : sized_inv s1).
    { subst s1. destruct (Cache.updateInProgress (remoteCache s)); [assumption|].
      now apply start_remote_sized. }
    destruct (Cache.updateInProgress (localCache s1)); [assumption|].
    destruct (0 <? JsMap.size (Cache.data (localCache s1)))%nat; [|assumption].
    now apply start_local_sized.
  - injection Hstep as <-. now apply compare_sized.
  - unfold resume_listing in Hstep.
    destruct (nth_error (tasks s) task) as [[startTime|]|]; try discriminate.
    destruct Hinv as (Hr & Hrt & Hl & Hlt).
    destruct result as [err|stdout]; injection Hstep as <-.
    + unfold sized_inv. simpl. unfold JsMap.copy. repeat split; auto.
    + apply remote_loop_sized. repeat split; assumption.
  - unfold resume_size in Hstep.
    destruct (nth_error (tasks s) task) as [[|startTime remotes i remoteStartTime]|];
      try discriminate.
    injection Hstep as <-. apply remote_loop_sized.
    destruct result as [sizeInfo|]; [|exact Hinv].
    destruct (no_error sizeInfo); [|exact Hinv].
    destruct Hinv as (Hr & Hrt & Hl & Hlt).
    unfold sized_inv. simpl. repeat split; auto.
    apply values_set; [|assumption]. eexists. reflexivity.
Qed.

Lemma reachable_sized (tz : Z) (s : State) : reachable tz s -> sized_inv s.
Proof.
  intros [es Hrun].
  assert (H : forall es s0, sized_inv s0 -> run tz es s0 = Some s -> sized_inv s).
  { clear. intros es. induction es as [|e es IH]; intros s0 Hinv Hrun; simpl in Hrun.
    - now injection Hrun as <-.
    - destruct (step tz e s0) as [s1|] eqn:Hstep; [|discriminate].
      eapply IH; [|exact Hrun]. eapply step_sized; eauto. }
  apply (H es initial); [|exact Hrun].
  unfold sized_inv. simpl. repeat split; constructor.
Qed.

(** ** The comparison of a cached remote *)





(** * Further facts *)

(** ** [getDirectorySize] *)

Lemma sum_sizes_app (a b : list Z) : sum_sizes (a ++ b) = sum_sizes a + sum_sizes b.
Proof.
  unfold sum_sizes. induction a as [|x a IH]; simpl; [reflexivity|]. rewrite IH. lia.
Qed.

Lemma file_sizes_cons (file : string) (child : FsNode) (rest : list (string * FsNode)) :
  file_sizes (Directory ((file, child) :: rest))
  = file_sizes child ++ file_sizes (Directory rest).
Proof. reflexivity. Qed.

Lemma traversable_cons (file : string) (child : FsNode) (rest : list (string * FsNode)) :
  traversable (Directory ((file, child) :: rest))
  = traversable child && traversable (Directory rest).
Proof. reflexivity. Qed.

Lemma depth_cons (file : string) (child : FsNode) (rest : list (string * FsNode)) :
  depth (Directory ((file, child) :: rest))
  = S (Nat.max (depth child) (Nat.pred (depth (Directory rest)))).
Proof. reflexivity. Qed.

Lemma enqueue_map {A B} (g : A -> B) (d : nat) (size : A) (pending : list (nat * A)) :
  map (fun x => (fst x, g (snd x))) (enqueue d size pending)
  = enqueue d (g size) (map (fun x => (fst x, g (snd x))) pending).
Proof.
  induction pending as [|[d' size'] rest IH]; [reflexivity|].
  cbn [enqueue map fst snd]. destruct (d <? d')%nat; [reflexivity|].
  cbn [map fst snd]. now rewrite IH.
Qed.

Lemma enqueue_sum (d : nat) (size : Z) (pending : list (nat * Z)) :
  sum_sizes (map snd (enqueue d size pending)) = size + sum_sizes (map snd pending).
Proof.
  induction pending as [|[d' size'] rest IH]; [reflexivity|].
  cbn [enqueue]. destruct (d <? d')%nat; [reflexivity|].
  cbn [map snd]. unfold sum_sizes in *. cbn [fold_right]. rewrite IH. lia.
Qed.

Lemma enqueue_Forall {A} (P : nat * A -> Prop) (d : nat) (size : A) (pending : list (nat * A)) :
  P (d, size) -> Forall P pending -> Forall P (enqueue d size pending).
Proof.
  intros Hx H. induction H as [|[d' size'] rest Hy Hrest IH]; cbn [enqueue].
  - constructor; [exact Hx|constructor].
  - destruct (d <? d')%nat; repeat constructor; assumption.
Qed.

Lemma sum_sizes_nonneg (l : list Z) : Forall (fun z => 0 <= z) l -> 0 <= sum_sizes l.
Proof.
  unfold sum_sizes. induction 1 as [|z l Hz _ IH]; cbn [fold_right]; lia.
Qed.

Lemma number_add_exact (a b : Z) :
  0 <= a -> 0 <= b -> a + b <= 2 ^ 53 ->
  SFadd prec emax (number_of_Z a) (number_of_Z b) = number_of_Z (a + b).
Proof.
  intros Ha Hb Hab. apply (proj1 (SFadd_sub_exact a b ltac:(lia) ltac:(lia))). lia.
Qed.

(** The callbacks add exactly while the total stays within [2 ^ 53]. *)
Lemma settle_exact (pending : list (nat * Z)) :
  forall t, 0 <= t -> Forall (fun x => 0 <= snd x) pending ->
    t + sum_sizes (map snd pending) <= 2 ^ 53 ->
    settle (number_of_Z t) (map exact_pending pending)
    = number_of_Z (t + sum_sizes (map snd pending)).
Proof.
  unfold settle. induction pending as [|[d size] rest IH]; intros t Ht Hp Hsum.
  - cbn. f_equal. unfold sum_sizes. simpl. lia.
  - inversion Hp as [|? ? Hsize Hrest]; subst. cbn [snd] in Hsize.
    pose proof (sum_sizes_nonneg (map snd rest)) as Hnn.
    assert (Hr : Forall (fun z => 0 <= z) (map snd rest)).
    { clear -Hrest. induction Hrest; constructor; auto. }
    specialize (Hnn Hr).
    cbn [map fold_left exact_pending fst snd].
    assert (Hs : sum_sizes (map snd ((d, size) :: rest)) = size + sum_sizes (map snd rest))
      by reflexivity.
    rewrite Hs in *.
    rewrite number_add_exact by lia.
    rewrite (IH (t + size)) by (try assumption; lia).
    change (sum_sizes (size :: map snd rest)) with (size + sum_sizes (map snd rest)).
    f_equal. lia.
Qed.

Lemma forEach_exact (getSize : FsNode -> option spec_float)
    (files : list (string * FsNode)) :
  (forall file child, In (file, child) files ->
     is_directory child = true -> traversable child = true ->
     Forall (fun z => 0 <= z) (file_sizes child) ->
     sum_sizes (file_sizes child) <= 2 ^ 53 ->
     getSize child = Some (number_of_Z (sum_sizes (file_sizes child)))) ->
  traversable (Directory files) = true ->
  Forall (fun z => 0 <= z) (file_sizes (Directory files)) ->
  forall t pending, 0 <= t -> Forall (fun x => 0 <= snd x) pending ->
    t + sum_sizes (map snd pending) + sum_sizes (file_sizes (Directory files)) <= 2 ^ 53 ->
    exists t' pending',
      forEach getSize files (number_of_Z t) (map exact_pending pending)
      = Some (number_of_Z t', map exact_pending pending') /\
      0 <= t' /\ Forall (fun x => 0 <= snd x) pending' /\
      t' + sum_sizes (map snd pending')
      = t + sum_sizes (map snd pending) + sum_sizes (file_sizes (Directory files)).
Proof.
  induction files as [|[file child] rest IH]; intros Hsize Htr Hnn t pending Ht Hp Hsum.
  - exists t, pending. cbn [forEach]. repeat split; auto.
    change (sum_sizes (file_sizes (Directory []))) with 0. lia.
  - rewrite traversable_cons in Htr. apply andb_prop in Htr. destruct Htr as [Hc Hr].
    rewrite file_sizes_cons in Hnn, Hsum. rewrite sum_sizes_app in Hsum.
    apply Forall_app in Hnn. destruct Hnn as [Hnc Hnr].
    pose proof (sum_sizes_nonneg _ Hnc) as H0c.
    pose proof (sum_sizes_nonneg _ Hnr) as H0r.
    assert (H0p : 0 <= sum_sizes (map snd pending)).
    { apply sum_sizes_nonneg. clear -Hp. induction Hp; constructor; auto. }
    assert (Hsize' : forall file0 child0, In (file0, child0) rest ->
               is_directory child0 = true -> traversable child0 = true ->
               Forall (fun z => 0 <= z) (file_sizes child0) ->
               sum_sizes (file_sizes child0) <= 2 ^ 53 ->
               getSize child0 = Some (number_of_Z (sum_sizes (file_sizes child0))))
      by (intros; apply (Hsize file0); auto; now right).
    rewrite file_sizes_cons, sum_sizes_app.
    destruct child as [size|sub| |]; try discriminate.
    + cbn [forEach].
      change (sum_sizes (file_sizes (RegularFile size))) with (size + 0) in *.
      inversion Hnc as [|? ? Hs0 _]; subst.
      rewrite number_add_exact by lia.
      destruct (IH Hsize' Hr Hnr (t + size) pending ltac:(lia) Hp ltac:(lia))
        as (t' & pending' & Hf & Ht' & Hp' & Hs').
      exists t', pending'. repeat split; auto. lia.
    + cbn [forEach].
      rewrite (Hsize file (Directory sub) (or_introl eq_refl) eq_refl Hc Hnc ltac:(lia)).
      set (size := sum_sizes (file_sizes (Directory sub))) in *.
      change (enqueue (depth (Directory sub)) (number_of_Z size) (map exact_pending pending))
        with (enqueue (depth (Directory sub)) (number_of_Z size)
                (map (fun x => (fst x, number_of_Z (snd x))) pending)).
      rewrite <- (enqueue_map number_of_Z).
      destruct (IH Hsize' Hr Hnr t (enqueue (depth (Directory sub)) size pending) Ht
                  (enqueue_Forall _ _ _ _ H0c Hp)
                  ltac:(rewrite enqueue_sum; lia))
        as (t' & pending' & Hf & Ht' & Hp' & Hs').
      exists t', pending'. repeat split; auto. rewrite Hs', enqueue_sum. lia.
Qed.

Lemma forEach_rejects (getSize : FsNode -> option spec_float)
    (files : list (string * FsNode)) :
  (forall file child, In (file, child) files ->
     (getSize child = None <-> is_directory child = false \/ traversable child = false)) ->
  forall totalSize pending,
    forEach getSize files totalSize pending = None <-> traversable (Directory files) = false.
Proof.
  induction files as [|[file child] rest IH]; intros Hsize totalSize pending.
  - cbn. split; discriminate.
  - rewrite traversable_cons.
    assert (Hsize' : forall file0 child0, In (file0, child0) rest ->
               (getSize child0 = None <->
                is_directory child0 = false \/ traversable child0 = false))
      by (intros; apply (Hsize file0); now right).
    pose proof (Hsize file child (or_introl eq_refl)) as Hc.
    destruct child as [size|sub| |]; cbn [forEach].
    + rewrite (IH Hsize'). reflexivity.
    + destruct (getSize (Directory sub)) as [size|] eqn:E.
      * rewrite (IH Hsize').
        destruct (traversable (Directory sub)) eqn:T; [reflexivity|].
        assert (Some size = None) by (apply Hc; now right). discriminate.
      * assert (T : traversable (Directory sub) = false).
        { destruct (proj1 Hc eq_refl) as [H|H]; [discriminate|exact H]. }
        rewrite T. split; reflexivity.
    + destruct (getSize UnreadableDirectory) as [size|] eqn:E.
      * assert (Some size = None) by (apply Hc; now left). discriminate.
      * split; reflexivity.
    + split; reflexivity.
Qed.

Lemma depth_child (file : string) (child : FsNode) (files : list (string * FsNode)) :
  In (file, child) files -> (depth child < depth (Directory files))%nat.
Proof.
  induction files as [|[f0 c0] rest IH]; [contradiction|].
  rewrite depth_cons. intros [E|Hin].
  - injection E as -> ->. lia.
  - specialize (IH Hin). lia.
Qed.

(** The traversal is rejected exactly on a path that is not a directory or
    cannot be walked whole. *)
Lemma getDirectorySize_rejects (n : nat) :
  forall node, (depth node <= n)%nat ->
    (getDirectorySize node = None <->
     is_directory node = false \/ traversable node = false).
Proof.
  induction n as [|n IH]; intros node Hd.
  - destruct node; try (split; auto; fail). simpl in Hd. lia.
  - destruct node as [size|files| |]; try (split; auto; fail).
    cbn [getDirectorySize is_directory].
    assert (Hch : forall file child, In (file, child) files ->
               (getDirectorySize child = None <->
                is_directory child = false \/ traversable child = false)).
    { intros file child Hin. apply IH.
      pose proof (depth_child file child files Hin). lia. }
    pose proof (forEach_rejects getDirectorySize files Hch (S754_zero false) []) as Hr.
    destruct (forEach getDirectorySize files (S754_zero false) []) as [[t p]|].
    + split; [discriminate|]. intros [H|H]; [discriminate|].
      apply Hr in H. discriminate.
    + split; [|reflexivity]. intros _. right. now apply Hr.
Qed.

Lemma getDirectorySize_exact (n : nat) :
  forall node, (depth node <= n)%nat ->
    is_directory node = true -> traversable node = true ->
    Forall (fun z => 0 <= z) (file_sizes node) ->
    sum_sizes (file_sizes node) <= 2 ^ 53 ->
    getDirectorySize node = Some (number_of_Z (sum_sizes (file_sizes node))).
Proof.
  induction n as [|n IH]; intros node Hd Hdir Htr Hnn Hsum.
  - destruct node; try discriminate. simpl in Hd. lia.
  - destruct node as [size|files| |]; try discriminate.
    cbn [getDirectorySize].
    assert (Hch : forall file child, In (file, child) files ->
               is_directory child = true -> traversable child = true ->
               Forall (fun z => 0 <= z) (file_sizes child) ->
               sum_sizes (file_sizes child) <= 2 ^ 53 ->
               getDirectorySize child = Some (number_of_Z (sum_sizes (file_sizes child)))).
    { intros file child Hin. apply IH.
      pose proof (depth_child file child files Hin). lia. }
    destruct (forEach_exact getDirectorySize files Hch Htr Hnn 0 [] ltac:(lia)
                ltac:(constructor) ltac:(change (sum_sizes (map snd [])) with 0; lia))
      as (t' & pending' & Hf & Ht' & Hp' & Hs').
    change (number_of_Z 0) with (S754_zero false) in Hf.
    change (map exact_pending []) with (@nil (nat * spec_float)) in Hf.
    rewrite Hf. f_equal.
    change (sum_sizes (map snd [])) with 0 in Hs'.
    rewrite settle_exact by (try assumption; lia). f_equal. lia.
Qed.

(** X1.  [getDirectorySize] is rejected exactly when the path is not a
    directory, or some directory under it cannot be listed, or some entry
    under it cannot be [statSync]ed.  In every other case it is resolved
    with a number; when no size is negative and the sizes of all the
    entries under the path that are not directories add up to at most
    [2 ^ 53], that number is their sum: every addition is exact, in
    whichever order the callbacks run. *)
Theorem getDirectorySize_sums_files (directoryPath : FsNode) :
  (getDirectorySize directoryPath = None <->
   is_directory directoryPath = false \/ traversable directoryPath = false) /\
  (is_directory directoryPath = true -> traversable directoryPath = true ->
   Forall (fun size => 0 <= size) (file_sizes directoryPath) ->
   sum_sizes (file_sizes directoryPath) <= 2 ^ 53 ->
   exists totalSize,
     getDirectorySize directoryPath = Some totalSize /\
     totalSize = number_of_Z (sum_sizes (file_sizes directoryPath)) /\
     integer_of_number totalSize = Some (sum_sizes (file_sizes directoryPath))).
Proof.
  split.
  - apply (getDirectorySize_rejects (depth directoryPath)). lia.
  - intros Hdir Htr Hnn Hsum. eexists. split; [|split; [reflexivity|]].
    + apply (getDirectorySize_exact (depth directoryPath)); auto.
    + apply integer_of_number_of_Z.
      pose proof (sum_sizes_nonneg _ Hnn). lia.
Qed.




(** ** [getAvailableRemotes] *)

Lemma split_lines_nonempty (s : string) : split_lines s <> [].
Proof.
  destruct s as [|c s]; simpl; [discriminate|].
  destruct (Ascii.eqb c "010"%char); [discriminate|].
  destruct (split_lines s); discriminate.
Qed.

Lemma split_lines_app (a b : string) :
  split_lines (a ^^ LF ^^ b) = split_lines a ++ split_lines b.
Proof.
  induction a as [|c a IH]; [reflexivity|].
  change (String c a ^^ LF ^^ b) with (String c (a ^^ LF ^^ b)).
  cbn [split_lines]. rewrite IH.
  destruct (Ascii.eqb c "010"%char); [reflexivity|].
  destruct (split_lines a) as [|l ls] eqn:E; [|reflexivity].
  now apply split_lines_nonempty in E.
Qed.

Lemma split_lines_one (s : string) :
  has_line_feed s = false -> split_lines s = [s].
Proof.
  induction s as [|c s IH]; [reflexivity|]. simpl.
  destruct (Ascii.eqb c "010"%char); [discriminate|].
  simpl. intros H. now rewrite (IH H).
Qed.

Lemma parse_remotes_app (a b : string) :
  parse_remotes (a ^^ LF ^^ b) = parse_remotes a ++ parse_remotes b.
Proof.
  unfold parse_remotes. now rewrite split_lines_app, filter_app, map_app.
Qed.

Lemma trimStart_all_space (s : string) : all_space s = true -> trimStart s = "".
Proof.
  induction s as [|c s IH]; [reflexivity|]. simpl.
  destruct (is_space c); [exact IH|discriminate].
Qed.

Lemma trimEnd_pad (s pad : string) :
  all_space pad = true -> trimEnd (s ^^ pad) = trimEnd s.
Proof.
  intros Hpad. induction s as [|c s IH].
  - simpl. induction pad as [|p pad IHp]; [reflexivity|].
    simpl in *. apply andb_prop in Hpad. destruct Hpad as [Hp Hpad].
    now rewrite (IHp Hpad), Hp.
  - change (String c s ^^ pad) with (String c (s ^^ pad)).
    cbn [trimEnd]. now rewrite IH.
Qed.

Lemma is_space2_colon (c1 : ascii) : is_space2 c1 ":" = false.
Proof. unfold is_space2. apply andb_false_r. Qed.

Lemma is_space3_colon (c1 c2 : ascii) : is_space3 c1 c2 ":" = false.
Proof.
  unfold is_space3.
  change (Z.of_N (N_of_ascii ":")) with 58.
  change (Ascii.eqb ":" "128") with false. change (Ascii.eqb ":" "159") with false.
  change (Ascii.eqb ":" "168") with false. change (Ascii.eqb ":" "169") with false.
  change (Ascii.eqb ":" "175") with false. change (Ascii.eqb ":" "191") with false.
  change (128 <=? 58) with false.
  cbn [andb orb]. now rewrite !andb_false_r.
Qed.

Lemma is_space3_colon_mid (c1 c3 : ascii) : is_space3 c1 ":" c3 = false.
Proof.
  unfold is_space3.
  change (Ascii.eqb ":" "128") with false. change (Ascii.eqb ":" "129") with false.
  change (Ascii.eqb ":" "154") with false. change (Ascii.eqb ":" "187") with false.
  now rewrite !andb_false_r.
Qed.

(** No white-space code point ends with a colon. *)
Lemma white_space_colon (s : string) : white_space (s ^^ ":") = false.
Proof.
  destruct s as [|c1 [|c2 [|c3 s]]]; cbn [String.append white_space].
  - reflexivity.
  - apply is_space2_colon.
  - apply is_space3_colon.
  - destruct s; reflexivity.
Qed.

Lemma trimEnd_colon (name : string) : trimEnd (name ^^ ":") = name ^^ ":".
Proof.
  induction name as [|c name IH]; [reflexivity|].
  change (String c name ^^ ":") with (String c (name ^^ ":")).
  cbn [trimEnd]. rewrite IH.
  change (String c (name ^^ ":")) with (String c name ^^ ":").
  now rewrite white_space_colon.
Qed.

(** A line that begins with a name begins with no white space. *)
Lemma trimStart_name (name rest : string) :
  begins_with_space name = false ->
  trimStart (name ^^ ":" ^^ rest) = name ^^ ":" ^^ rest.
Proof.
  intros H. destruct name as [|c1 [|c2 [|c3 name]]]; cbn [begins_with_space] in H;
    cbn [String.append trimStart].
  - change (is_space ":") with false. cbv iota.
    destruct rest as [|c2 [|c3 rest]]; reflexivity.
  - rewrite orb_false_r in H. rewrite H, is_space2_colon.
    destruct rest as [|c3 rest]; [reflexivity|]. now rewrite is_space3_colon_mid.
  - apply orb_false_elim in H. destruct H as [H1 H2]. rewrite orb_false_r in H2.
    now rewrite H1, H2, is_space3_colon.
  - apply orb_false_elim in H. destruct H as [H1 H]. apply orb_false_elim in H.
    destruct H as [H2 H3]. now rewrite H1, H2, H3.
Qed.

Lemma strip_colon_colon (name : string) : strip_colon (name ^^ ":") = name.
Proof.
  induction name as [|c name IH]; [reflexivity|].
  change (String c name ^^ ":") with (String c (name ^^ ":")).
  cbn [strip_colon]. rewrite IH. destruct name; reflexivity.
Qed.

Lemma has_line_feed_app (a b : string) :
  has_line_feed (a ^^ b) = has_line_feed a || has_line_feed b.
Proof.
  induction a as [|c a IH]; [reflexivity|]. simpl. rewrite IH. apply orb_assoc.
Qed.

(** One line of the listing yields its name. *)
Lemma parse_remotes_line (name pad : string) :
  listable name = true -> all_space pad = true -> has_line_feed pad = false ->
  parse_remotes (name ^^ ":" ^^ pad) = [name].
Proof.
  intros Hname Hpad Hlf. unfold listable in Hname.
  apply andb_prop in Hname. destruct Hname as [Hnlf Hstart].
  apply negb_true_iff in Hnlf. apply negb_true_iff in Hstart.
  assert (Htrim : trim (name ^^ ":" ^^ pad) = name ^^ ":").
  { unfold trim.
    rewrite (trimStart_name name pad Hstart), <- append_assoc, (trimEnd_pad _ _ Hpad).
    apply trimEnd_colon. }
  unfold parse_remotes. rewrite split_lines_one.
  - cbn [filter map]. rewrite Htrim.
    replace (String.length (name ^^ ":") =? 0)%nat with false
      by (destruct name; reflexivity).
    cbn [negb map]. now rewrite Htrim, strip_colon_colon.
  - rewrite !has_line_feed_app, Hnlf, Hlf. reflexivity.
Qed.

(** X3.  Round trip of the listing: from the output of [rclone listremotes]
    for the remotes [names] (each line a name and a colon, ended by a line
    feed with or without a carriage return or blanks before it),
    [getAvailableRemotes] resolves with [names], in order, provided no name
    holds a line feed or begins with a white-space code point, which
    [trim] would remove. *)
Theorem getAvailableRemotes_round_trip (pad : string) (names : list string) :
  all_space pad = true -> has_line_feed pad = false ->
  forallb listable names = true ->
  parse_remotes (listremotes_output pad names) = names.
Proof.
  intros Hpad Hlf. induction names as [|name rest IH]; intros Hnames.
  - reflexivity.
  - simpl in Hnames. apply andb_prop in Hnames. destruct Hnames as [Hname Hrest].
    cbn [listremotes_output].
    replace (name ^^ ":" ^^ pad ^^ LF ^^ listremotes_output pad rest)
      with ((name ^^ ":" ^^ pad) ^^ LF ^^ listremotes_output pad rest)
      by (now rewrite !append_assoc).
    rewrite parse_remotes_app, (parse_remotes_line name pad Hname Hpad Hlf), (IH Hrest).
    reflexivity.
Qed.

(** Two remotes listed with Windows line ends. *)
Lemma getAvailableRemotes_round_trip_witness :
  parse_remotes (listremotes_output (String "013"%char EmptyString) ["gdrive"; "s3-backup"])
  = ["gdrive"; "s3-backup"].
Proof.
  apply (getAvailableRemotes_round_trip (String "013"%char EmptyString)
           ["gdrive"; "s3-backup"]); reflexivity.
Defined.

Lemma split_lines_all_space (s : string) :
  all_space s = true -> Forall (fun line => all_space line = true) (split_lines s).
Proof.
  induction s as [|c s IH]; intros H; simpl.
  - repeat constructor.
  - simpl in H. apply andb_prop in H. destruct H as [Hc Hs].
    specialize (IH Hs).
    destruct (Ascii.eqb c "010"%char); [constructor; [reflexivity|assumption]|].
    destruct (split_lines s) as [|l ls]; [repeat constructor; simpl; now rewrite Hc|].
    inversion IH as [|? ? Hl Hls]; subst.
    constructor; [simpl; now rewrite Hc, Hl|assumption].
Qed.

(** X4.  [getAvailableRemotes] reads its input line by line: the remotes of
    two outputs joined by a line feed are the remotes of the first followed
    by those of the second; and an output of white space only (empty, or
    blank lines) yields no remote. *)
Theorem getAvailableRemotes_lines (a b : string) :
  parse_remotes (a ^^ LF ^^ b) = parse_remotes a ++ parse_remotes b /\
  (all_space a = true -> parse_remotes a = []).
Proof.
  split; [apply parse_remotes_app|].
  intros Ha. unfold parse_remotes.
  pose proof (split_lines_all_space a Ha) as Hlines.
  set (ls := split_lines a) in *. clearbody ls.
  induction Hlines as [|line lines Hline _ IH]; [reflexivity|].
  assert (Ht : trim line = "") by (unfold trim; now rewrite trimStart_all_space).
  cbn [filter]. rewrite Ht. exact IH.
Qed.

(** Blank lines between and after two remotes. *)
Lemma getAvailableRemotes_lines_witness :
  parse_remotes (("gdrive:" ^^ LF ^^ "  ") ^^ LF ^^ "s3:" ^^ LF) = ["gdrive"; "s3"] /\
  parse_remotes ("  " ^^ LF ^^ " ") = [].
Proof.
  split.
  - rewrite (proj1 (getAvailableRemotes_lines ("gdrive:" ^^ LF ^^ "  ") ("s3:" ^^ LF))).
    reflexivity.
  - apply (proj2 (getAvailableRemotes_lines ("  " ^^ LF ^^ " ") "")). reflexivity.
Defined.

(** ** A remote cycle as a whole *)

Lemma skipn_nth (i : nat) (remotes : list string) :
  (i < List.length remotes)%nat ->
  skipn i remotes = nth i remotes "" :: skipn (S i) remotes.
Proof.
  revert i. induction remotes as [|r rs IH]; intros [|i] H; simpl in *; try lia.
  - reflexivity.
  - apply IH. lia.
Qed.

(** The resumptions of one activation, one result per remote still to
    probe, carry out the rest of the loop and the [finally] block. *)
Lemma size_results_run (tz : Z) (task : nat) (remotes : list string)
    (sizes : list (RcloneSize * (Z * Z * Z))) :
  forall (i : nat) (s : State) (startTime remoteStartTime : Z),
    nth_error (tasks s) task = Some (AwaitSize startTime remotes i remoteStartTime) ->
    (i < List.length remotes)%nat ->
    List.length sizes = (List.length remotes - i)%nat ->
    exists s',
      run tz (map (size_event task) sizes) s = Some s' /\
      tasks s' = remove_nth task (tasks s) /\
      Cache.data (remoteCache s')
      = fst (probe_all (skipn i remotes) sizes remoteStartTime (remoteCacheTemp s)) /\
      Cache.lastUpdated (remoteCache s')
      = Some (snd (probe_all (skipn i remotes) sizes remoteStartTime (remoteCacheTemp s))) /\
      remoteCacheTemp s' = [] /\
      marks_cleared (remoteCache s') /\
      localCache s' = localCache s /\
      localCacheTemp s' = localCacheTemp s /\
      localSizeHistory s' = localSizeHistory s.
Proof.
  induction sizes as [|[result [[remoteEndTime stamp] now]] sizes IH];
    intros i s startTime remoteStartTime Hnth Hi Hlen; simpl in Hlen; [lia|].
  pose proof (nth_error_length _ _ _ Hnth) as Htask.
  cbn [map size_event run step]. unfold resume_size. rewrite Hnth.
  rewrite (skipn_nth i remotes Hi). cbn [probe_all snd].
  set (temp1 := store_size (nth i remotes "") remoteStartTime
                  (result, (remoteEndTime, stamp, now)) (remoteCacheTemp s)).
  match goal with
  | |- context [remote_loop task startTime remotes (S i) now ?t] =>
      set (s1 := t);
      assert (Hs1 : tasks s1 = tasks s /\ remoteCacheTemp s1 = temp1 /\
                    localCache s1 = localCache s /\ localCacheTemp s1 = localCacheTemp s /\
                    localSizeHistory s1 = localSizeHistory s)
        by (subst s1 temp1; unfold store_size;
            destruct result as [sizeInfo|]; [destruct (no_error sizeInfo)|];
            repeat split)
  end.
  destruct Hs1 as (Hts & Htemp & Hl & Hlt & Hh).
  unfold remote_loop. destruct (Nat.ltb_spec (S i) (List.length remotes)) as [Hlt'|Hge].
  - match goal with
    | |- context [run tz _ ?t] => set (s2 := t)
    end.
    destruct (IH (S i) s2 startTime now) as (s' & Hrun & Htasks & Hdata & Hlu & Ht & Hm & Hrest).
    + subst s2. simpl. rewrite Hts. now apply nth_error_replace_nth.
    + exact Hlt'.
    + lia.
    + exists s'. split; [exact Hrun|].
      split; [rewrite Htasks; subst s2; simpl; now rewrite Hts, remove_replace_nth|].
      subst s2. simpl in *. rewrite Htemp in Hdata, Hlu.
      split; [exact Hdata|]. split; [exact Hlu|]. split; [exact Ht|].
      split; [exact Hm|].
      destruct Hrest as (H1 & H2 & H3). rewrite H1, H2, H3. auto.
  - assert (sizes = []) by (destruct sizes; [reflexivity|simpl in Hlen; lia]).
    subst sizes. simpl run.
    assert (Hskip : skipn (S i) remotes = []) by (apply skipn_all2; lia).
    rewrite Hskip. simpl. eexists. split; [reflexivity|]. simpl. unfold JsMap.copy.
    rewrite Hts, Htemp. repeat split; auto.
Qed.

Lemma store_size_get (remote : string) (remoteStartTime : Z)
    (x : RcloneSize * (Z * Z * Z)) (temp : JsMap.t Entry.t) (k : string) :
  (remote ^^ ":" = k -> size_obtained (fst x) = false) ->
  JsMap.get k (store_size remote remoteStartTime x temp) = JsMap.get k temp.
Proof.
  destruct x as [result [[remoteEndTime stamp] now]]. unfold store_size, size_obtained.
  simpl. intros H. destruct result as [sizeInfo|]; [|reflexivity].
  destruct (no_error sizeInfo); [|reflexivity].
  apply JsMapFacts.get_set_other. intros ->. specialize (H eq_refl). discriminate.
Qed.

Lemma store_size_keys (remote : string) (remoteStartTime : Z)
    (x : RcloneSize * (Z * Z * Z)) (temp : JsMap.t Entry.t) (k : string) :
  In k (JsMap.keys temp) -> In k (JsMap.keys (store_size remote remoteStartTime x temp)).
Proof.
  destruct x as [result [[remoteEndTime stamp] now]]. unfold store_size.
  intros H. destruct result as [sizeInfo|]; [|exact H].
  destruct (no_error sizeInfo); [|exact H].
  apply JsMapFacts.keys_set. now right.
Qed.

Lemma store_size_probed (remote : string) (remoteStartTime : Z)
    (x : RcloneSize * (Z * Z * Z)) (temp : JsMap.t Entry.t) (k : string) :
  (exists e, JsMap.get k temp = Some e /\ probed_entry e) \/
  (remote ^^ ":" = k /\ size_obtained (fst x) = true) ->
  exists e, JsMap.get k (store_size remote remoteStartTime x temp) = Some e /\
            probed_entry e.
Proof.
  destruct x as [result [[remoteEndTime stamp] now]]. unfold store_size, size_obtained.
  simpl. intros H.
  destruct result as [sizeInfo|].
  - destruct (no_error sizeInfo).
    + destruct (String.eqb_spec k (remote ^^ ":")) as [->|Hne].
      * rewrite JsMapFacts.get_set_same. eexists. split; [reflexivity|].
        split; [reflexivity|]. eexists. reflexivity.
      * rewrite JsMapFacts.get_set_other by assumption.
        destruct H as [H|[H _]]; [exact H|congruence].
    + destruct H as [H|[_ H]]; [exact H|discriminate].
  - destruct H as [H|[_ H]]; [exact H|discriminate].
Qed.

Lemma probe_all_facts (remotes : list string) :
  forall (sizes : list (RcloneSize * (Z * Z * Z))) (now : Z) (temp : JsMap.t Entry.t),
    let final := fst (probe_all remotes sizes now temp) in
    (forall k, In k (JsMap.keys temp) -> In k (JsMap.keys final)) /\
    (forall k,
        (forall remote x, In (remote, x) (combine remotes sizes) ->
                          remote ^^ ":" = k -> size_obtained (fst x) = false) ->
        JsMap.get k final = JsMap.get k temp) /\
    (forall k,
        (exists e, JsMap.get k temp = Some e /\ probed_entry e) \/
        (exists remote x, In (remote, x) (combine remotes sizes) /\
                          remote ^^ ":" = k /\ size_obtained (fst x) = true) ->
        exists e, JsMap.get k final = Some e /\ probed_entry e).
Proof.
  induction remotes as [|remote remotes IH]; intros sizes now temp final.
  - subst final. simpl. repeat split; auto.
    intros k [H|(r & x & [] & _)]. exact H.
  - destruct sizes as [|x sizes].
    + subst final. simpl. repeat split; auto.
      intros k [H|(r & x & [] & _)]. exact H.
    + subst final. cbn [probe_all combine].
      destruct (IH sizes (snd (snd x)) (store_size remote now x temp)) as (Hk & Hf & Hp).
      split; [|split].
      * intros k Hin. apply Hk. now apply store_size_keys.
      * intros k Hfail. rewrite Hf.
        -- apply store_size_get. intros Heq. apply (Hfail remote x); [now left|exact Heq].
        -- intros r y Hin. apply Hfail. now right.
      * intros k H. apply Hp.
        destruct H as [H|(r & y & [Hin|Hin] & Heq & Hok)].
        -- left. apply store_size_probed. now left.
        -- injection Hin as <- <-. left. apply store_size_probed. now right.
        -- right. eauto.
Qed.

(** X5.  A remote cycle that runs from its start to its end without
    another remote event in between (a timer starts it, the listing names
    [remotes], one result arrives for each) publishes the cache it found,
    overwritten for each remote whose size was obtained: no key is dropped;
    a key that no successful probe wrote maps to what it mapped to before
    (a remote that is not listed, or whose probe failed, keeps its entry);
    a remote whose size was obtained has an entry with that size and no
    error; [lastUpdated] is the time read after the loop; the marks are
    reset and the local cache and the histories are untouched. *)
Theorem remote_cycle_publishes (tz : Z) (s : State) (updateStartTime startTime : Z)
    (stdout : string) (now : Z) (sizes : list (RcloneSize * (Z * Z * Z))) :
  let remotes := parse_remotes stdout in
  let task := List.length (tasks s) in
  let before := Cache.data (remoteCache s) in
  List.length sizes = List.length remotes ->
  exists s',
    run tz (RemoteInterval updateStartTime startTime
            :: ListingSettled task (inr stdout) now
            :: map (size_event task) sizes) s = Some s' /\
    Cache.data (remoteCache s') = fst (probe_all remotes sizes now before) /\
    Cache.lastUpdated (remoteCache s') = Some (snd (probe_all remotes sizes now before)) /\
    tasks s' = tasks s /\
    marks_cleared (remoteCache s') /\
    (forall k, In k (JsMap.keys before) -> In k (JsMap.keys (Cache.data (remoteCache s')))) /\
    (forall k,
        (forall remote x, In (remote, x) (combine remotes sizes) ->
                          remote ^^ ":" = k -> size_obtained (fst x) = false) ->
        JsMap.get k (Cache.data (remoteCache s')) = JsMap.get k before) /\
    (forall remote x,
        In (remote, x) (combine remotes sizes) -> size_obtained (fst x) = true ->
        exists e, JsMap.get (remote ^^ ":") (Cache.data (remoteCache s')) = Some e /\
                  Entry.error e = None /\ exists b, Entry.bytes e = Some b) /\
    localCache s' = localCache s /\
    localSizeHistory s' = localSizeHistory s.
Proof.
  intros remotes task before Hlen.
  set (s0 := start_remote updateStartTime startTime s).
  assert (Hnth : nth_error (tasks s0) task = Some (AwaitListing startTime)).
  { subst s0 task. simpl. rewrite nth_error_app2 by lia. now rewrite Nat.sub_diag. }
  assert (Hrm : remove_nth task (tasks s0) = tasks s).
  { subst s0 task. simpl. clear. induction (tasks s) as [|x l IH]; simpl; [reflexivity|].
    now rewrite IH. }
  pose proof (nth_error_length _ _ _ Hnth) as Htask.
  destruct (probe_all_facts remotes sizes now before) as (Hkeys & Hframe & Hprobed).
  cbn [run step]. fold s0. unfold resume_listing. rewrite Hnth. fold remotes.
  unfold remote_loop. destruct (Nat.ltb_spec 0 (List.length remotes)) as [Hpos|Hzero].
  - match goal with
    | |- context [run tz _ ?t] => set (s1 := t)
    end.
    destruct (size_results_run tz task remotes sizes 0 s1 startTime now)
      as (s' & Hrun & Htasks & Hdata & Hlu & _ & Hm & Hl & _ & Hh).
    + subst s1. simpl. now apply nth_error_replace_nth.
    + exact Hpos.
    + lia.
    + simpl skipn in Hdata, Hlu.
      assert (Htemp : remoteCacheTemp s1 = before) by reflexivity.
      rewrite Htemp in Hdata, Hlu.
      exists s'. split; [exact Hrun|]. split; [exact Hdata|]. split; [exact Hlu|].
      split; [rewrite Htasks; subst s1; simpl; now rewrite remove_replace_nth|].
      split; [exact Hm|]. rewrite Hdata.
      split; [exact Hkeys|]. split; [exact Hframe|].
      split; [|split; [rewrite Hl; reflexivity|rewrite Hh; reflexivity]].
      intros remote x Hin Hok.
      destruct (Hprobed (remote ^^ ":")) as (e & He & Herr & Hb); [right; eauto|eauto].
  - assert (Hnil : remotes = []) by (destruct remotes; [reflexivity|simpl in Hzero; lia]).
    assert (sizes = []) by (destruct sizes; [reflexivity|rewrite Hnil in Hlen; discriminate]).
    subst sizes. rewrite Hnil in *. cbn [map run].
    eexists. split; [reflexivity|].
    change (fst (probe_all [] [] now before)) with before in *.
    change (snd (probe_all [] [] now before)) with now.
    split; [reflexivity|]. split; [reflexivity|].
    split; [exact Hrm|]. split; [split; reflexivity|].
    split; [auto|]. split; [auto|]. split; [|split; reflexivity].
    intros remote x [].
Qed.

(** One remote listed, its size obtained. *)
Lemma remote_cycle_publishes_witness :
  exists s',
    run 0 [RemoteInterval 1000 1001;
           ListingSettled 0 (inr ("gdrive:" ^^ LF)) 1500;
           SizeSettled 0 (SizeObject (SizeInfo.mk None (Some 5368709120) (Some 150)))
                       2500 2501 2502] initial = Some s' /\
    Cache.lastUpdated (remoteCache s') = Some 2502 /\
    exists e, JsMap.get "gdrive:" (Cache.data (remoteCache s')) = Some e /\
              Entry.error e = None.
Proof.
  destruct (remote_cycle_publishes 0 initial 1000 1001 ("gdrive:" ^^ LF) 1500
              [(SizeObject (SizeInfo.mk None (Some 5368709120) (Some 150)),
                (2500, 2501, 2502))] eq_refl)
    as (s' & Hrun & _ & Hlu & _ & _ & _ & _ & Hok & _).
  exists s'. split; [exact Hrun|]. split; [exact Hlu|].
  destruct (Hok "gdrive" _ (or_introl eq_refl) eq_refl) as (e & He & Herr & _).
  exists e. split; [exact He|exact Herr].
Defined.

(** ** The two stores *)

Lemma remote_loop_local (task : nat) (startTime : Z) (remotes : list string) (i : nat)
    (now : Z) (s : State) :
  local_part (remote_loop task startTime remotes i now s) = local_part s.
Proof.
  unfold remote_loop. destruct (i <? List.length remotes)%nat; reflexivity.
Qed.

Lemma remote_step_local (tz : Z) (e : Event) (s s' : State) :
  remote_event e = true -> step tz e s = Some s' -> local_part s' = local_part s.
Proof.
  intros He Hstep. destruct e; try discriminate; simpl in Hstep.
  - injection Hstep as <-. reflexivity.
  - unfold resume_listing in Hstep.
    destruct (nth_error (tasks s) task) as [[startTime|]|]; try discriminate.
    destruct result; injection Hstep as <-; [reflexivity|apply remote_loop_local].
  - unfold resume_size in Hstep.
    destruct (nth_error (tasks s) task) as [[|startTime remotes i remoteStartTime]|];
      try discriminate.
    injection Hstep as <-. rewrite remote_loop_local.
    destruct result as [sizeInfo|]; [destruct (no_error sizeInfo)|]; reflexivity.
Qed.

Lemma local_step_remote (tz : Z) (e : Event) (s s' : State) :
  local_event e = true -> step tz e s = Some s' -> remote_part s' = remote_part s.
Proof.
  intros He Hstep. destruct e; try discriminate; simpl in Hstep; injection Hstep as <-.
  - apply start_local_remote.
  - apply compare_remote.
Qed.

(** X6.  The two stores do not touch each other: an event of the remote
    cycle (its timer, the listing or a size arriving) leaves the local
    cache, its temporary map and the size histories as they are; a local
    cycle or a comparison leaves the remote cache, its temporary map and the
    pending remote activations as they are. *)
Theorem stores_are_independent (tz : Z) (e : Event) (s s' : State) :
  step tz e s = Some s' ->
  (remote_event e = true -> local_part s' = local_part s) /\
  (local_event e = true -> remote_part s' = remote_part s).
Proof.
  intros Hstep. split; intros He.
  - exact (remote_step_local tz e s s' He Hstep).
  - exact (local_step_remote tz e s s' He Hstep).
Qed.

(** The listing arrives while [/data] is cached; a comparison is made
    while the sizes are pending. *)
Lemma stores_are_independent_witness :
  let s1 := start_remote 5000 5001
              (snd (compare 0 LocalScenario.compare_data LocalScenario.first_probe initial)) in
  exists s2 s3,
    step 0 (ListingSettled 0 (inr ("gdrive:" ^^ LF)) 6000) s1 = Some s2 /\
    local_part s2 = local_part s1 /\
    step 0 (CompareRequest LocalScenario.compare_data LocalScenario.second_probe) s2
      = Some s3 /\
    remote_part s3 = remote_part s2.
Proof.
  intros s1. do 2 eexists.
  split; [reflexivity|]. split.
  - refine (proj1 (stores_are_independent 0 (ListingSettled 0 (inr ("gdrive:" ^^ LF)) 6000)
                     s1 _ eq_refl) eq_refl).
  - split; [reflexivity|].
    refine (proj2 (stores_are_independent 0
                     (CompareRequest LocalScenario.compare_data LocalScenario.second_probe)
                     _ _ eq_refl) eq_refl).
Defined.

(** ** The stores at rest *)

Lemma compare_local_rest (tz : Z) (req : Request.t) (obs : CompareObs.t) (s : State) :
  Cache.updateInProgress (localCache (snd (compare tz req obs s)))
  = Cache.updateInProgress (localCache s) /\
  Cache.updateStartTime (localCache (snd (compare tz req obs s)))
  = Cache.updateStartTime (localCache s) /\
  Cache.lastUpdated (localCache (snd (compare tz req obs s)))
  = Cache.lastUpdated (localCache s) /\
  localCacheTemp (snd (compare tz req obs s)) = localCacheTemp s.
Proof.
  unfold compare.
  destruct (missing (Request.remotePath req) || missing (Request.localPath req));
    [repeat split|].
  destruct (negb (CompareObs.existsSync obs)); [repeat split|].
  set (localPath := match Request.localPath req with Some p => p | None => "" end).
  assert (Hres : let s1 := snd (resolve_local localPath obs s) in
                 Cache.updateInProgress (localCache s1)
                 = Cache.updateInProgress (localCache s) /\
                 Cache.updateStartTime (localCache s1)
                 = Cache.updateStartTime (localCache s) /\
                 Cache.lastUpdated (localCache s1) = Cache.lastUpdated (localCache s) /\
                 localCacheTemp s1 = localCacheTemp s).
  { unfold resolve_local, addToLocalCache.
    destruct (JsMap.has localPath (Cache.data (localCache s))); [repeat split|].
    destruct (negb (AddObs.existsSync (CompareObs.add obs)));
      [destruct (CompareObs.getDirectorySize obs); repeat split|].
    destruct (AddObs.getDirectorySize (CompareObs.add obs)); [|repeat split].
    destruct (CompareObs.getDirectorySize obs); repeat split. }
  destruct (resolve_local localPath obs s) as [[m|[d b]] s1]; simpl in *; [exact Hres|].
  destruct (JsMap.get _ (Cache.data (remoteCache s1))); exact Hres.
Qed.

Lemma start_local_rest (time : Z) (obs : LocalObs.t) (s : State) :
  local_at_rest (start_local time obs s).
Proof.
  unfold local_at_rest, start_local. split; [apply updateLocalCache_marks|].
  unfold updateLocalCache.
  match goal with
  | |- context [if ?c then _ else _] => destruct c
  end; reflexivity.
Qed.

Lemma rest_inv_remote_part (s s' : State) :
  remote_part s' = remote_part s -> local_at_rest s' -> rest_inv s -> rest_inv s'.
Proof.
  unfold rest_inv, remote_at_rest, remote_part. intros H Hl [Hr _].
  injection H as -> -> ->. auto.
Qed.

Lemma tasks_after_start (updateStartTime startTime : Z) (s : State) :
  tasks (start_remote updateStartTime startTime s) <> [].
Proof.
  simpl. destruct (tasks s); discriminate.
Qed.

Lemma replace_nth_nil {A} (n : nat) (y : A) (l : list A) :
  replace_nth n y l = [] -> l = [].
Proof. destruct l, n; simpl; congruence. Qed.

Lemma remote_loop_rest (task : nat) (startTime : Z) (remotes : list string) (i : nat)
    (now : Z) (s : State) :
  tasks s <> [] -> local_at_rest s ->
  rest_inv (remote_loop task startTime remotes i now s).
Proof.
  intros Hts Hl. unfold remote_loop.
  destruct (i <? List.length remotes)%nat.
  - split; [|exact Hl]. simpl. intros H. apply replace_nth_nil in H. contradiction.
  - split; [|exact Hl]. intros _. split; [split|]; reflexivity.
Qed.

Lemma step_rest (tz : Z) (e : Event) (s s' : State) :
  step tz e s = Some s' -> rest_inv s -> rest_inv s'.
Proof.
  intros Hstep Hinv. pose proof Hinv as [Hr Hl]. destruct e; simpl in Hstep.
  - injection Hstep as <-. split; [|apply start_local_rest].
    intros H. exfalso.
    pose proof (start_local_remote localTime obs (start_remote remoteTime startTime s)) as Hp.
    unfold remote_part in Hp. injection Hp as _ _ Ht. rewrite Ht in H.
    exact (tasks_after_start remoteTime startTime s H).
  - injection Hstep as <-. split; [|exact Hl].
    intros H. exfalso. exact (tasks_after_start nextUpdateTime startTime s H).
  - injection Hstep as <-.
    apply (rest_inv_remote_part s); [apply start_local_remote|apply start_local_rest|exact Hinv].
  - injection Hstep as <-. unfold refresh.
    set (s1 := if Cache.updateInProgress (remoteCache s) then s
               else start_remote remoteTime startTime s).
    assert (H1 : rest_inv s1).
    { subst s1. destruct (Cache.updateInProgress (remoteCache s)); [exact Hinv|].
      split; [|exact Hl]. intros H. exfalso.
      exact (tasks_after_start remoteTime startTime s H). }
    destruct (Cache.updateInProgress (localCache s1)); [exact H1|].
    destruct (0 <? JsMap.size (Cache.data (localCache s1)))%nat; [|exact H1].
    apply (rest_inv_remote_part s1); [apply start_local_remote|apply start_local_rest|exact H1].
  - injection Hstep as <-.
    apply (rest_inv_remote_part s); [apply compare_remote| |exact Hinv].
    destruct (compare_local_rest tz req obs s) as (H1 & H2 & _ & H4).
    destruct Hl as [[Hf Hs] Ht]. split; [split|]; congruence.
  - unfold resume_listing in Hstep.
    destruct (nth_error (tasks s) task) as [[startTime|]|] eqn:Hnth; try discriminate.
    assert (Hne : tasks s <> []) by (intros E; rewrite E in Hnth; destruct task; discriminate).
    destruct result; injection Hstep as <-.
    + split; [|exact Hl]. intros _. split; [split|]; reflexivity.
    + now apply remote_loop_rest.
  - unfold resume_size in Hstep.
    destruct (nth_error (tasks s) task) as [[|startTime remotes i remoteStartTime]|] eqn:Hnth;
      try discriminate.
    assert (Hne : tasks s <> []) by (intros E; rewrite E in Hnth; destruct task; discriminate).
    injection Hstep as <-. apply remote_loop_rest.
    + destruct result as [sizeInfo|]; [destruct (no_error sizeInfo)|]; exact Hne.
    + destruct result as [sizeInfo|]; [destruct (no_error sizeInfo)|]; exact Hl.
Qed.

Lemma reachable_rest (tz : Z) (s : State) : reachable tz s -> rest_inv s.
Proof.
  intros [es Hrun].
  assert (H : forall es s0, rest_inv s0 -> run tz es s0 = Some s -> rest_inv s).
  { clear. intros es. induction es as [|e es IH]; intros s0 H0 Hrun; simpl in Hrun.
    - now injection Hrun as <-.
    - destruct (step tz e s0) as [s1|] eqn:Hstep; [|discriminate].
      eapply IH; [|exact Hrun]. eapply step_rest; eauto. }
  apply (H es initial); [|exact Hrun].
  repeat split.
Qed.

(** X7.  Between two turns of the event loop the marks are never stuck:
    while the remote cache is marked as being updated an activation of
    [updateRemoteCache] is pending; when none is pending the remote marks
    are reset and [remoteCacheTemp] is empty; and the local cache is never
    seen marked, nor [localCacheTemp] filled. *)
Theorem marks_follow_activations (tz : Z) (s : State) :
  reachable tz s ->
  (Cache.updateInProgress (remoteCache s) = true -> tasks s <> []) /\
  (tasks s = [] ->
   Cache.updateInProgress (remoteCache s) = false /\
   Cache.updateStartTime (remoteCache s) = None /\
   remoteCacheTemp s = []) /\
  Cache.updateInProgress (localCache s) = false /\
  Cache.updateStartTime (localCache s) = None /\
  localCacheTemp s = [].
Proof.
  intros Hreach. destruct (reachable_rest tz s Hreach) as [Hr [[Hlf Hls] Hlt]].
  split; [|split; [|auto]].
  - intros Hflag Hts. destruct (Hr Hts) as [[Hf _] _]. congruence.
  - intros Hts. destruct (Hr Hts) as [[Hf Hs] Ht]. auto.
Qed.

(** After a manual refresh, while the listing is pending. *)
Lemma marks_follow_activations_witness :
  exists s,
    run 0 [RefreshRequest 1000 1001 1002 Scenario.no_dirs] initial = Some s /\
    Cache.updateInProgress (remoteCache s) = true /\
    tasks s <> [] /\
    Cache.updateInProgress (localCache s) = false.
Proof.
  eexists. split; [reflexivity|]. split; [reflexivity|].
  match goal with
  | |- tasks ?s <> [] /\ _ =>
      destruct (marks_follow_activations 0 s
                  (ex_intro _ [RefreshRequest 1000 1001 1002 Scenario.no_dirs] eq_refl))
        as (H1 & _ & H3 & _)
  end.
  split; [apply H1; reflexivity|exact H3].
Defined.

(** ** What a local cycle publishes *)

Lemma is_key_In (k : string) (keys : list string) :
  is_key k keys = true <-> In k keys.
Proof.
  unfold is_key. rewrite existsb_exists. split.
  - intros (x & Hin & Heq). apply String.eqb_eq in Heq. now subst.
  - intros Hin. exists k. split; [assumption|apply String.eqb_refl].
Qed.

Lemma local_dir_temp (obs : string -> DirObs.t) (s : State) (localDir : string) :
  localCacheTemp (local_dir obs s localDir)
  = match probe_result (obs localDir) with
    | Some sizeBytes =>
        JsMap.set localDir (probed_dir_entry (obs localDir) sizeBytes) (localCacheTemp s)
    | None => localCacheTemp s
    end.
Proof.
  unfold local_dir, probe_result.
  destruct (DirObs.existsSync (obs localDir)); [|reflexivity].
  destruct (DirObs.getDirectorySize (obs localDir)); reflexivity.
Qed.

Lemma local_loop_temp (obs : string -> DirObs.t) (localDirs : list string) :
  forall (s : State) (k : string),
    JsMap.get k (localCacheTemp (fold_left (local_dir obs) localDirs s))
    = match probe_result (obs k) with
      | Some sizeBytes =>
          if is_key k localDirs then Some (probed_dir_entry (obs k) sizeBytes)
          else JsMap.get k (localCacheTemp s)
      | None => JsMap.get k (localCacheTemp s)
      end.
Proof.
  induction localDirs as [|d ds IH]; intros s k.
  - simpl. destruct (probe_result (obs k)); reflexivity.
  - cbn [fold_left]. rewrite IH, local_dir_temp.
    unfold is_key. cbn [existsb]. fold (is_key k ds).
    destruct (String.eqb_spec k d) as [->|Hne].
    + destruct (probe_result (obs d)) as [sizeBytes|]; [|reflexivity].
      rewrite JsMapFacts.get_set_same. destruct (is_key d ds); reflexivity.
    + assert (Hget : JsMap.get k
                       match probe_result (obs d) with
                       | Some sizeBytes =>
                           JsMap.set d (probed_dir_entry (obs d) sizeBytes) (localCacheTemp s)
                       | None => localCacheTemp s
                       end = JsMap.get k (localCacheTemp s)).
      { destruct (probe_result (obs d)); [|reflexivity].
        now apply JsMapFacts.get_set_other. }
      rewrite Hget. reflexivity.
Qed.

(** X8.  What a local cycle publishes, in every state of the service: a
    tracked directory that is there and is measured gets a fresh entry
    (its size, no count, the time of the probe and its duration, no error);
    every other path has no entry afterwards, tracked or not; [lastUpdated]
    becomes the end time, except that a cycle over an empty cache leaves it
    as it was. *)
Theorem local_cycle_publishes (tz : Z) (obs : LocalObs.t) (s : State) :
  reachable tz s ->
  let before := Cache.data (localCache s) in
  let after := localCache (updateLocalCache obs s) in
  (forall k sizeBytes,
      In k (JsMap.keys before) ->
      probe_result (LocalObs.dir obs k) = Some sizeBytes ->
      JsMap.get k (Cache.data after)
      = Some (probed_dir_entry (LocalObs.dir obs k) sizeBytes)) /\
  (forall k,
      ~ In k (JsMap.keys before) \/ probe_result (LocalObs.dir obs k) = None ->
      JsMap.get k (Cache.data after) = None) /\
  Cache.lastUpdated after
  = (if (JsMap.size before =? 0)%nat then Cache.lastUpdated (localCache s)
     else Some (LocalObs.endTime obs)).
Proof.
  intros Hreach before after.
  pose proof (reachable_localCacheTemp tz s Hreach) as Htemp.
  assert (Hdata : forall k,
             JsMap.get k (Cache.data after)
             = match probe_result (LocalObs.dir obs k) with
               | Some sizeBytes =>
                   if is_key k (JsMap.keys before)
                   then Some (probed_dir_entry (LocalObs.dir obs k) sizeBytes)
                   else None
               | None => None
               end).
  { intros k. subst after. unfold updateLocalCache. fold before.
    destruct (JsMap.size before =? 0)%nat eqn:Hsize.
    - simpl. unfold JsMap.copy. rewrite Htemp.
      assert (before = []) by (destruct before; [reflexivity|discriminate]).
      rewrite H. simpl. destruct (probe_result (LocalObs.dir obs k)); reflexivity.
    - simpl. unfold JsMap.copy. rewrite local_loop_temp, Htemp. reflexivity. }
  split; [|split].
  - intros k sizeBytes Hin Hp. rewrite Hdata, Hp.
    apply is_key_In in Hin. now rewrite Hin.
  - intros k H. rewrite Hdata.
    destruct (probe_result (LocalObs.dir obs k)) as [sizeBytes|]; [|reflexivity].
    destruct (is_key k (JsMap.keys before)) eqn:Hk; [|reflexivity].
    apply is_key_In in Hk. destruct H as [H|H]; [contradiction|discriminate].
  - subst after. unfold updateLocalCache. fold before.
    destruct (JsMap.size before =? 0)%nat; reflexivity.
Qed.

(** [/data] is tracked and measured at 250 bytes by the next cycle. *)
Lemma local_cycle_publishes_witness :
  exists s,
    run 0 [CompareRequest LocalScenario.compare_data LocalScenario.first_probe] initial
      = Some s /\
    JsMap.get "/data"
      (Cache.data (localCache
         (updateLocalCache
            (LocalObs.mk 4000 (fun _ => DirObs.mk 4001 true (inr 250) 4011 4012 4013) 4020)
            s)))
    = Some (Entry.mk (Some 250) None 4012 (Some 10) None).
Proof.
  eexists. split; [reflexivity|].
  match goal with
  | |- JsMap.get _ (Cache.data (localCache (updateLocalCache ?o ?s))) = _ =>
      destruct (local_cycle_publishes 0 o s
                  (ex_intro _ [CompareRequest LocalScenario.compare_data
                                              LocalScenario.first_probe] eq_refl))
        as (Hok & _)
  end.
  apply (Hok "/data" 250); [simpl; auto|reflexivity].
Defined.

(** ** Cache and history *)

Lemma lastEntry_last (history : list Sample.t) (e : Sample.t) :
  lastEntry (history ++ [e]) = Some e.
Proof.
  unfold lastEntry. rewrite length_app. simpl.
  rewrite nth_error_app2 by lia.
  replace (List.length history + 1 - 1 - List.length history)%nat with 0%nat by lia.
  reflexivity.
Qed.

Lemma history_of_ensure (k k' : string) (h : JsMap.t (list Sample.t)) :
  history_of k' (ensure_history k h) = history_of k' h.
Proof.
  unfold ensure_history, history_of.
  destruct (JsMap.has k h) eqn:Hhas; [reflexivity|].
  apply JsMapFacts.has_false_get in Hhas.
  destruct (String.eqb_spec k' k) as [->|Hne].
  - now rewrite JsMapFacts.get_set_same, Hhas.
  - now rewrite JsMapFacts.get_set_other.
Qed.

Lemma history_of_set (k k' : string) (l : list Sample.t) (h : JsMap.t (list Sample.t)) :
  history_of k' (JsMap.set k l h) = if String.eqb k' k then l else history_of k' h.
Proof.
  unfold history_of. destruct (String.eqb_spec k' k) as [->|Hne].
  - now rewrite JsMapFacts.get_set_same.
  - now rewrite JsMapFacts.get_set_other.
Qed.

Lemma record_size_other (k k' : string) (currentTime sizeBytes : Z)
    (h : JsMap.t (list Sample.t)) :
  k' <> k -> history_of k' (record_size k currentTime sizeBytes h) = history_of k' h.
Proof.
  intros Hne. unfold record_size.
  destruct (size_changed (history_of k (ensure_history k h)) sizeBytes).
  - rewrite history_of_set. apply String.eqb_neq in Hne. rewrite Hne.
    apply history_of_ensure.
  - apply history_of_ensure.
Qed.

Lemma record_size_last (k : string) (currentTime sizeBytes : Z)
    (h : JsMap.t (list Sample.t)) :
  last_bytes (history_of k (record_size k currentTime sizeBytes h)) = Some sizeBytes.
Proof.
  unfold record_size. rewrite (history_of_ensure k k h).
  destruct (size_changed (history_of k h) sizeBytes) eqn:Hc.
  - rewrite history_of_set, String.eqb_refl. unfold filteredHistory.
    rewrite filter_app. cbn [filter Sample.timestamp].
    replace (currentTime - thirtyDays <? currentTime) with true
      by (symmetry; apply Z.ltb_lt; unfold thirtyDays; lia).
    unfold last_bytes. now rewrite lastEntry_last.
  - rewrite history_of_ensure. unfold size_changed in Hc. unfold last_bytes.
    destruct (lastEntry (history_of k h)) as [e|]; [|discriminate].
    simpl. apply negb_false_iff, Z.eqb_eq in Hc. now rewrite Hc.
Qed.

Lemma push_size_other (k k' : string) (time sizeBytes : Z) (h : JsMap.t (list Sample.t)) :
  k' <> k -> history_of k' (push_size k time sizeBytes h) = history_of k' h.
Proof.
  intros Hne. unfold push_size. rewrite history_of_set.
  apply String.eqb_neq in Hne. rewrite Hne. apply history_of_ensure.
Qed.

Lemma push_size_same (k : string) (time sizeBytes : Z) (h : JsMap.t (list Sample.t)) :
  history_of k (push_size k time sizeBytes h)
  = history_of k h ++ [Sample.mk time sizeBytes].
Proof.
  unfold push_size. now rewrite history_of_set, String.eqb_refl, history_of_ensure.
Qed.

Lemma push_size_last (k : string) (time sizeBytes : Z) (h : JsMap.t (list Sample.t)) :
  last_bytes (history_of k (push_size k time sizeBytes h)) = Some sizeBytes.
Proof.
  rewrite push_size_same. unfold last_bytes. now rewrite lastEntry_last.
Qed.

Lemma local_dir_agrees (obs : string -> DirObs.t) (s : State) (localDir : string) :
  history_agrees (localCacheTemp s) (localSizeHistory s) ->
  history_agrees (localCacheTemp (local_dir obs s localDir))
                 (localSizeHistory (local_dir obs s localDir)).
Proof.
  intros Hinv. unfold local_dir.
  destruct (negb (DirObs.existsSync (obs localDir))); [exact Hinv|].
  destruct (DirObs.getDirectorySize (obs localDir)) as [message|sizeBytes]; [exact Hinv|].
  simpl. intros k e b Hget Hb.
  destruct (String.eqb_spec k localDir) as [->|Hne].
  - rewrite JsMapFacts.get_set_same in Hget. injection Hget as <-. simpl in Hb.
    injection Hb as <-. apply record_size_last.
  - rewrite JsMapFacts.get_set_other in Hget by assumption.
    rewrite record_size_other by assumption. now apply (Hinv k e b).
Qed.

Lemma local_loop_agrees (obs : string -> DirObs.t) (localDirs : list string) (s : State) :
  history_agrees (localCacheTemp s) (localSizeHistory s) ->
  let s' := fold_left (local_dir obs) localDirs s in
  history_agrees (localCacheTemp s') (localSizeHistory s').
Proof.
  revert s. induction localDirs as [|d ds IH]; intros s Hinv; [exact Hinv|].
  simpl. apply IH. now apply local_dir_agrees.
Qed.

Lemma updateLocalCache_history (obs : LocalObs.t) (s : State) :
  localCacheTemp s = [] -> history_inv (updateLocalCache obs s).
Proof.
  intros Htemp.
  assert (Hnil : forall h, history_agrees [] h) by (intros h k e b H; discriminate).
  unfold updateLocalCache.
  destruct (JsMap.size (Cache.data (localCache s)) =? 0)%nat.
  - split; [|reflexivity]. simpl. unfold JsMap.copy. rewrite Htemp. apply Hnil.
  - split; [|reflexivity]. simpl. unfold JsMap.copy.
    apply (local_loop_agrees (LocalObs.dir obs)). rewrite Htemp. apply Hnil.
Qed.

Lemma resolve_local_history (localPath : string) (obs : CompareObs.t) (s : State) :
  history_inv s ->
  history_inv (snd (resolve_local localPath obs s)) /\
  (forall d b s', resolve_local localPath obs s = (inr (d, b), s') ->
                  sized_inv s ->
                  exists sizeBytes, b = Some sizeBytes /\
                    last_bytes (history_of localPath (localSizeHistory s'))
                    = Some sizeBytes).
Proof.
  intros [Hagree Htemp]. unfold resolve_local.
  destruct (JsMap.has localPath (Cache.data (localCache s))) eqn:Hhas.
  - split; [split; assumption|].
    intros d b s' H (_ & _ & Hl & _). injection H as <- <- <-.
    apply JsMapFacts.has_get in Hhas. destruct Hhas as [e He]. rewrite He.
    destruct (values_get sized _ _ _ Hl He) as [sizeBytes Hb].
    exists sizeBytes. split; [exact Hb|]. now apply (Hagree localPath e).
  - apply JsMapFacts.has_false_get in Hhas. unfold addToLocalCache.
    assert (Hfall : forall r : string + Z,
               history_inv
                 (snd match r with
                      | inl message => (inl message, s)
                      | inr localSizeBytes =>
                          (inr (@None Entry.t, Some localSizeBytes),
                           with_localSizeHistory
                             (push_size localPath (CompareObs.pushTime obs) localSizeBytes
                                        (localSizeHistory s)) s)
                      end) /\
               (forall d b s',
                   match r with
                   | inl message => (inl message, s)
                   | inr localSizeBytes =>
                       (inr (@None Entry.t, Some localSizeBytes),
                        with_localSizeHistory
                          (push_size localPath (CompareObs.pushTime obs) localSizeBytes
                                     (localSizeHistory s)) s)
                   end = (inr (d, b), s') ->
                   sized_inv s ->
                   exists sizeBytes, b = Some sizeBytes /\
                     last_bytes (history_of localPath (localSizeHistory s'))
                     = Some sizeBytes)).
    { intros [message|sizeBytes].
      - split; [split; assumption|]. intros d b s' H. discriminate.
      - split.
        + split; [|exact Htemp]. simpl. intros k e b Hget Hb.
          destruct (String.eqb_spec k localPath) as [->|Hne]; [congruence|].
          rewrite push_size_other by assumption. now apply (Hagree k e b).
        + intros d b s' H _. injection H as <- <- <-.
          exists sizeBytes. split; [reflexivity|]. simpl. apply push_size_last. }
    destruct (negb (AddObs.existsSync (CompareObs.add obs))); [apply Hfall|].
    destruct (AddObs.getDirectorySize (CompareObs.add obs)) as [message|sizeBytes];
      [apply Hfall|].
    split.
    + split; [|exact Htemp]. simpl. intros k e b Hget Hb.
      destruct (String.eqb_spec k localPath) as [->|Hne].
      * rewrite JsMapFacts.get_set_same in Hget. injection Hget as <-.
        simpl in Hb. injection Hb as <-. apply push_size_last.
      * rewrite JsMapFacts.get_set_other in Hget by assumption.
        rewrite push_size_other by assumption. now apply (Hagree k e b).
    + intros d b s' H _. injection H as <- <- <-.
      exists sizeBytes. split; [reflexivity|]. simpl. apply push_size_last.
Qed.

Lemma compare_history (tz : Z) (req : Request.t) (obs : CompareObs.t) (s : State) :
  history_inv s -> history_inv (snd (compare tz req obs s)).
Proof.
  intros Hinv. unfold compare.
  destruct (missing (Request.remotePath req) || missing (Request.localPath req));
    [exact Hinv|].
  destruct (negb (CompareObs.existsSync obs)); [exact Hinv|].
  set (localPath := match Request.localPath req with Some p => p | None => "" end).
  destruct (resolve_local_history localPath obs s Hinv) as [H _].
  destruct (resolve_local localPath obs s) as [[m|[d b]] s1]; simpl in *; [exact H|].
  destruct (JsMap.get _ (Cache.data (remoteCache s1))); exact H.
Qed.

Lemma history_inv_local_part (s s' : State) :
  local_part s' = local_part s -> history_inv s -> history_inv s'.
Proof.
  unfold local_part, history_inv. intros H. injection H as -> -> ->. auto.
Qed.

Lemma start_local_history (time : Z) (obs : LocalObs.t) (s : State) :
  history_inv s -> history_inv (start_local time obs s).
Proof.
  intros [_ Htemp]. unfold start_local. apply updateLocalCache_history. exact Htemp.
Qed.

Lemma step_history (tz : Z) (e : Event) (s s' : State) :
  step tz e s = Some s' -> history_inv s -> history_inv s'.
Proof.
  intros Hstep Hinv.
  destruct (remote_event e) eqn:He.
  { apply (history_inv_local_part s); [|exact Hinv].
    exact (remote_step_local tz e s s' He Hstep). }
  destruct e; try discriminate; simpl in Hstep; injection Hstep as <-.
  - apply start_local_history.
    apply (history_inv_local_part s); [reflexivity|exact Hinv].
  - now apply start_local_history.
  - unfold refresh.
    set (s1 := if Cache.updateInProgress (remoteCache s) then s
               else start_remote remoteTime startTime s).
    assert (H1 : history_inv s1).
    { subst s1. destruct (Cache.updateInProgress (remoteCache s)); [exact Hinv|].
      apply (history_inv_local_part s); [reflexivity|exact Hinv]. }
    destruct (Cache.updateInProgress (localCache s1)); [exact H1|].
    destruct (0 <? JsMap.size (Cache.data (localCache s1)))%nat; [|exact H1].
    now apply start_local_history.
  - now apply compare_history.
Qed.

Lemma reachable_history (tz : Z) (s : State) : reachable tz s -> history_inv s.
Proof.
  intros [es Hrun].
  assert (H : forall es s0, history_inv s0 -> run tz es s0 = Some s -> history_inv s).
  { clear. intros es. induction es as [|e es IH]; intros s0 H0 Hrun; simpl in Hrun.
    - now injection Hrun as <-.
    - destruct (step tz e s0) as [s1|] eqn:Hstep; [|discriminate].
      eapply IH; [|exact Hrun]. eapply step_history; eauto. }
  apply (H es initial); [|exact Hrun].
  split; [|reflexivity]. intros k e b Hget. discriminate.
Qed.

(** X9.  In every state of the service, the entry cached for a local
    directory carries the byte count of the newest sample of its size
    history: the record is never empty for a cached directory, and its
    last sample is the size the cache reports. *)
Theorem cached_size_is_newest_sample (tz : Z) (s : State) (k : string) (e : Entry.t) :
  reachable tz s ->
  JsMap.get k (Cache.data (localCache s)) = Some e ->
  exists history newest,
    JsMap.get k (localSizeHistory s) = Some history /\
    lastEntry history = Some newest /\
    Entry.bytes e = Some (Sample.bytes newest).
Proof.
  intros Hreach Hget.
  destruct (reachable_history tz s Hreach) as [Hagree _].
  destruct (reachable_sized tz s Hreach) as (_ & _ & Hl & _).
  destruct (values_get sized _ _ _ Hl Hget) as [b Hb].
  pose proof (Hagree k e b Hget Hb) as Hlast.
  unfold last_bytes, history_of in Hlast.
  destruct (JsMap.get k (localSizeHistory s)) as [history|]; [|discriminate].
  destruct (lastEntry history) as [newest|] eqn:Hn; [|discriminate].
  simpl in Hlast. injection Hlast as <-.
  exists history, newest. auto.
Qed.

(** After the first comparison of [/data]. *)
Lemma cached_size_is_newest_sample_witness :
  exists history newest,
    JsMap.get "/data"
      (localSizeHistory
         (snd (compare 0 LocalScenario.compare_data LocalScenario.first_probe initial)))
    = Some history /\
    lastEntry history = Some newest /\
    Sample.bytes newest = 100.
Proof.
  destruct (cached_size_is_newest_sample 0
              (snd (compare 0 LocalScenario.compare_data LocalScenario.first_probe initial))
              "/data" (Entry.mk (Some 100) None 3010 (Some 10) None)
              (ex_intro _ [CompareRequest LocalScenario.compare_data
                                          LocalScenario.first_probe] eq_refl)
              eq_refl)
    as (history & newest & Hh & Hn & Hb).
  exists history, newest. split; [exact Hh|]. split; [exact Hn|].
  simpl in Hb. now injection Hb as <-.
Defined.

(** ** The answers of the compare handler *)

Lemma local_resolves_b_spec (localPath : string) (obs : CompareObs.t) (s : State) :
  local_resolves_b localPath obs s = true <-> local_resolves localPath obs s.
Proof.
  unfold local_resolves_b, local_resolves, add_succeeds.
  destruct (JsMap.has localPath (Cache.data (localCache s))); [simpl; tauto|].
  destruct (AddObs.existsSync (CompareObs.add obs)),
           (AddObs.getDirectorySize (CompareObs.add obs)) as [m|sz],
           (CompareObs.getDirectorySize obs) as [m'|sz']; simpl; split; intros H;
    try reflexivity; try discriminate; eauto 6;
    destruct H as [H|[[H1 [x H2]]|[x H]]]; discriminate.
Qed.

(** The handler once the request has passed its checks. *)
Lemma compare_checked (tz : Z) (req : Request.t) (obs : CompareObs.t) (s : State) :
  missing (Request.remotePath req) || missing (Request.localPath req) = false ->
  CompareObs.existsSync obs = true ->
  let remotePath := path_of (Request.remotePath req) in
  let localPath := path_of (Request.localPath req) in
  match resolve_local localPath obs s with
  | (inl message, s1) => compare tz req obs s = (Status500 message, s1)
  | (inr (d, b), s1) =>
      snd (compare tz req obs s) = s1 /\
      status_code (fst (compare tz req obs s))
      = (if JsMap.has remotePath (Cache.data (remoteCache s)) then 200 else 404) /\
      lastModified_fields (fst (compare tz req obs s))
      = Some (getLastModified tz (localSizeHistory s1) localPath,
              formatDateToLocal tz (getLastModified tz (localSizeHistory s1) localPath))
  end.
Proof.
  intros Hm Hex remotePath localPath. unfold compare. rewrite Hm, Hex. simpl negb.
  cbv iota. fold (path_of (Request.localPath req)). fold localPath.
  fold (path_of (Request.remotePath req)). fold remotePath.
  destruct (resolve_local_remote localPath obs s) as (H1 & _ & _).
  destruct (resolve_local localPath obs s) as [[message|[d b]] s1]; [reflexivity|].
  simpl in H1. rewrite H1. unfold JsMap.has.
  destruct (JsMap.get remotePath (Cache.data (remoteCache s))); repeat split.
Qed.

Lemma formatDateToLocal_Some (tz t : Z) : exists f, formatDateToLocal tz (Some t) = Some f.
Proof.
  unfold formatDateToLocal.
  destruct (civil_of_days ((t + tz) / msPerDay)) as [[y m] d]. eauto.
Qed.

Lemma getLastModified_nonempty (tz : Z) (h : JsMap.t (list Sample.t)) (k : string)
    (sizeBytes : Z) :
  last_bytes (history_of k h) = Some sizeBytes ->
  exists t, getLastModified tz h k = Some t.
Proof.
  unfold last_bytes, history_of, getLastModified. intros H.
  destruct (JsMap.get k h) as [history|]; [|discriminate].
  destruct (lastModified_of tz history) as [t|] eqn:E; [eauto|].
  apply lastModified_of_None in E. subst. discriminate.
Qed.

(** X10.  In every state of the service, an answer with status 200 or 404
    carries a last-modified time and its display form: neither is [null],
    and the time is at the start of an hour of the host's local time. *)
Theorem answers_carry_lastModified (tz : Z) (req : Request.t) (obs : CompareObs.t)
    (s : State) :
  reachable tz s ->
  match lastModified_fields (fst (compare tz req obs s)) with
  | Some (lastModified, lastModifiedFormatted) =>
      exists t f,
        lastModified = Some t /\ lastModifiedFormatted = Some f /\
        (t + tz) mod (60 * 60 * 1000) = 0
  | None =>
      status_code (fst (compare tz req obs s)) = 400 \/
      status_code (fst (compare tz req obs s)) = 500
  end.
Proof.
  intros Hreach.
  destruct (missing (Request.remotePath req) || missing (Request.localPath req)) eqn:Hm.
  { unfold compare. rewrite Hm. simpl. auto. }
  destruct (CompareObs.existsSync obs) eqn:Hex.
  2:{ unfold compare. rewrite Hm, Hex. simpl. auto. }
  pose proof (compare_checked tz req obs s Hm Hex) as Hc. cbv zeta in Hc.
  destruct (resolve_local_history (path_of (Request.localPath req)) obs s
              (reachable_history tz s Hreach)) as [_ Hlast].
  destruct (resolve_local (path_of (Request.localPath req)) obs s)
    as [[message|[d b]] s1] eqn:Hres.
  - rewrite Hc. simpl. auto.
  - destruct Hc as (_ & _ & Hf). rewrite Hf.
    destruct (Hlast d b s1 eq_refl (reachable_sized tz s Hreach)) as (sizeBytes & _ & Hl).
    destruct (getLastModified_nonempty tz _ _ _ Hl) as [t Ht].
    destruct (formatDateToLocal_Some tz t) as [f Hfmt].
    exists t, f. rewrite Ht. split; [reflexivity|]. split; [exact Hfmt|].
    apply (getLastModified_truncated tz _ _ _ Ht).
Qed.

(** The first comparison of [/data], at UTC. *)
Lemma answers_carry_lastModified_witness :
  exists t f,
    lastModified_fields
      (fst (compare 0 LocalScenario.compare_data LocalScenario.first_probe initial))
    = Some (Some t, Some f) /\ t mod (60 * 60 * 1000) = 0.
Proof.
  pose proof (answers_carry_lastModified 0 LocalScenario.compare_data
                LocalScenario.first_probe initial (ex_intro _ [] eq_refl)) as H.
  destruct (lastModified_fields
              (fst (compare 0 LocalScenario.compare_data LocalScenario.first_probe initial)))
    as [[lm lmf]|] eqn:E; [|discriminate E].
  destruct H as (t & f & -> & -> & Ht).
  exists t, f. split; [reflexivity|]. now rewrite Z.add_0_r in Ht.
Defined.

(** X11.  How the compare handler picks its status: 400 when a path is
    missing or empty, or the local path does not exist; otherwise 500 when
    no local size can be obtained (the path is not cached, the on-demand
    insertion fails and so does the direct computation); otherwise 200 when
    the remote path is a key of the remote cache and 404 when it is not.
    [forceDirect] has no part in it: two requests with the same paths get
    the same answer and leave the same state. *)
Theorem compare_status (tz : Z) (req : Request.t) (obs : CompareObs.t) (s : State) :
  status_code (fst (compare tz req obs s))
  = (if missing (Request.remotePath req) || missing (Request.localPath req) then 400
     else if negb (CompareObs.existsSync obs) then 400
     else if negb (local_resolves_b (path_of (Request.localPath req)) obs s) then 500
     else if JsMap.has (path_of (Request.remotePath req)) (Cache.data (remoteCache s))
          then 200 else 404) /\
  (forall req',
      Request.remotePath req' = Request.remotePath req ->
      Request.localPath req' = Request.localPath req ->
      compare tz req' obs s = compare tz req obs s).
Proof.
  split.
  - destruct (missing (Request.remotePath req) || missing (Request.localPath req)) eqn:Hm.
    { unfold compare. now rewrite Hm. }
    destruct (CompareObs.existsSync obs) eqn:Hex.
    2:{ unfold compare. now rewrite Hm, Hex. }
    pose proof (compare_checked tz req obs s Hm Hex) as Hc. cbv zeta in Hc.
    simpl negb. cbv iota.
    destruct (local_resolves_b (path_of (Request.localPath req)) obs s) eqn:Hb.
    + apply local_resolves_b_spec in Hb.
      destruct (resolve_local_resolves _ _ _ Hb) as (d & b & s1 & Hr).
      rewrite Hr in Hc. destruct Hc as (_ & Hst & _). exact Hst.
    + assert (Hn : ~ local_resolves (path_of (Request.localPath req)) obs s).
      { intros H. apply local_resolves_b_spec in H. congruence. }
      destruct (resolve_local_fails _ _ _ Hn) as (message & _ & Hr).
      rewrite Hr in Hc. now rewrite Hc.
  - intros req' Hrp Hlp. unfold compare. now rewrite Hrp, Hlp.
Qed.

Lemma addToLocalCache_frame (path : string) (o : AddObs.t) (s : State) :
  let s' := snd (addToLocalCache path o s) in
  (forall message, fst (addToLocalCache path o s) = inl message -> s' = s) /\
  (forall k, k <> path ->
     JsMap.get k (Cache.data (localCache s')) = JsMap.get k (Cache.data (localCache s)) /\
     history_of k (localSizeHistory s') = history_of k (localSizeHistory s)) /\
  (forall dirInfo, fst (addToLocalCache path o s) = inr dirInfo ->
     exists sizeBytes,
       AddObs.getDirectorySize o = inr sizeBytes /\
       dirInfo = Entry.mk (Some sizeBytes) None (AddObs.endTime o)
                          (Some (AddObs.endTime o - AddObs.startTime o)) None /\
       JsMap.get path (Cache.data (localCache s')) = Some dirInfo /\
       history_of path (localSizeHistory s')
       = history_of path (localSizeHistory s) ++ [Sample.mk (AddObs.endTime o) sizeBytes]).
Proof.
  unfold addToLocalCache.
  destruct (negb (AddObs.existsSync o)).
  { simpl. repeat split; auto. intros dirInfo H. discriminate. }
  destruct (AddObs.getDirectorySize o) as [message|sizeBytes].
  { simpl. repeat split; auto. intros dirInfo H. discriminate. }
  simpl. split; [intros message H; discriminate|]. split.
  - intros k Hne. split.
    + now apply JsMapFacts.get_set_other.
    + now apply push_size_other.
  - intros dirInfo H. injection H as <-. exists sizeBytes.
    split; [reflexivity|]. split; [reflexivity|].
    split; [apply JsMapFacts.get_set_same|apply push_size_same].
Qed.

(** X12.  [addToLocalCache] either throws and changes nothing, or inserts:
    the directory then maps to the entry it returns (the measured size, no
    count, the end time and the duration of the probe), every other
    directory maps to what it did, and the size history of the directory
    is its former record with one sample appended, whatever that record
    was. *)
Theorem addToLocalCache_inserts (directoryPath : string) (obs : AddObs.t) (s : State) :
  let result := fst (addToLocalCache directoryPath obs s) in
  let s' := snd (addToLocalCache directoryPath obs s) in
  (forall message, result = inl message -> s' = s) /\
  (result = inl ("Directory does not exist: " ^^ directoryPath) \/
   AddObs.existsSync obs = true) /\
  (forall dirInfo, result = inr dirInfo ->
     exists sizeBytes,
       AddObs.getDirectorySize obs = inr sizeBytes /\
       dirInfo = Entry.mk (Some sizeBytes) None (AddObs.endTime obs)
                          (Some (AddObs.endTime obs - AddObs.startTime obs)) None /\
       JsMap.get directoryPath (Cache.data (localCache s')) = Some dirInfo /\
       JsMap.has directoryPath (Cache.data (localCache s')) = true /\
       history_of directoryPath (localSizeHistory s')
       = history_of directoryPath (localSizeHistory s)
         ++ [Sample.mk (AddObs.endTime obs) sizeBytes] /\
       (forall k, k <> directoryPath ->
          JsMap.get k (Cache.data (localCache s'))
          = JsMap.get k (Cache.data (localCache s)) /\
          history_of k (localSizeHistory s') = history_of k (localSizeHistory s))).
Proof.
  intros result s'.
  destruct (addToLocalCache_frame directoryPath obs s) as (Hfail & Hother & Hok).
  split; [exact Hfail|]. split.
  - subst result. unfold addToLocalCache.
    destruct (AddObs.existsSync obs); [now right|now left].
  - intros dirInfo Hr. destruct (Hok dirInfo Hr) as (sizeBytes & H1 & H2 & H3 & H4).
    exists sizeBytes. repeat split; auto.
    + unfold JsMap.has. subst s'. now rewrite H3.
    + now apply Hother.
    + now apply Hother.
Qed.

(** [/data] is inserted next to [/other]. *)
Lemma addToLocalCache_inserts_witness :
  let s := snd (addToLocalCache "/other" (AddObs.mk true 10 (inr 7) 20) initial) in
  let s' := snd (addToLocalCache "/data" (AddObs.mk true 3000 (inr 100) 3010) s) in
  JsMap.get "/data" (Cache.data (localCache s'))
  = Some (Entry.mk (Some 100) None 3010 (Some 10) None) /\
  JsMap.get "/other" (Cache.data (localCache s'))
  = JsMap.get "/other" (Cache.data (localCache s)).
Proof.
  intros s s'.
  destruct (addToLocalCache_inserts "/data" (AddObs.mk true 3000 (inr 100) 3010) s)
    as (_ & _ & Hok).
  destruct (Hok _ eq_refl) as (sizeBytes & Hsz & _ & Hget & _ & _ & Hother).
  split; [exact Hget|].
  apply (Hother "/other"). discriminate.
Defined.

Lemma resolve_local_frame (localPath : string) (obs : CompareObs.t) (s : State) :
  let s' := snd (resolve_local localPath obs s) in
  (forall message, fst (resolve_local localPath obs s) = inl message -> s' = s) /\
  (JsMap.has localPath (Cache.data (localCache s)) = true -> s' = s) /\
  (forall k, k <> localPath ->
     JsMap.get k (Cache.data (localCache s')) = JsMap.get k (Cache.data (localCache s)) /\
     history_of k (localSizeHistory s') = history_of k (localSizeHistory s)) /\
  (history_of localPath (localSizeHistory s') = history_of localPath (localSizeHistory s) \/
   exists sample,
     history_of localPath (localSizeHistory s')
     = history_of localPath (localSizeHistory s) ++ [sample]).
Proof.
  unfold resolve_local.
  destruct (JsMap.has localPath (Cache.data (localCache s))).
  { simpl. repeat split; auto. }
  destruct (addToLocalCache_frame localPath (CompareObs.add obs) s) as (Hfail & Hother & Hok).
  destruct (addToLocalCache localPath (CompareObs.add obs) s) as [[m|dirInfo] s1] eqn:Hadd;
    simpl in *.
  - specialize (Hfail m eq_refl). subst s1.
    destruct (CompareObs.getDirectorySize obs) as [message|sizeBytes]; simpl.
    + repeat split; auto.
    + split; [intros message H; discriminate|]. split; [discriminate|]. split.
      * intros k Hne. split; [reflexivity|now apply push_size_other].
      * right. eexists. apply push_size_same.
  - split; [intros message H; discriminate|]. split; [discriminate|].
    split; [exact Hother|].
    destruct (Hok dirInfo eq_refl) as (sizeBytes & _ & _ & _ & Hh). right. eauto.
Qed.

(** X13.  What a comparison may change: nothing of the remote store, of the
    marks and [lastUpdated] of the local cache, or of any other directory;
    at most the cache entry of the local path it names and the size history
    of that path, which only grows, by at most one sample.  A request whose
    local path is cached changes nothing at all, and neither does a request
    answered with status 400 or 500. *)
Theorem compare_frame (tz : Z) (req : Request.t) (obs : CompareObs.t) (s : State) :
  let s' := snd (compare tz req obs s) in
  let localPath := path_of (Request.localPath req) in
  remote_part s' = remote_part s /\
  Cache.lastUpdated (localCache s') = Cache.lastUpdated (localCache s) /\
  Cache.updateInProgress (localCache s') = Cache.updateInProgress (localCache s) /\
  (forall k, k <> localPath ->
     JsMap.get k (Cache.data (localCache s')) = JsMap.get k (Cache.data (localCache s)) /\
     history_of k (localSizeHistory s') = history_of k (localSizeHistory s)) /\
  (history_of localPath (localSizeHistory s') = history_of localPath (localSizeHistory s) \/
   exists sample,
     history_of localPath (localSizeHistory s')
     = history_of localPath (localSizeHistory s) ++ [sample]) /\
  (JsMap.has localPath (Cache.data (localCache s)) = true -> s' = s) /\
  (status_code (fst (compare tz req obs s)) = 400 \/
   status_code (fst (compare tz req obs s)) = 500 -> s' = s).
Proof.
  intros s' localPath.
  split; [apply compare_remote|].
  destruct (compare_local_rest tz req obs s) as (Hf & _ & Hlu & _).
  split; [exact Hlu|]. split; [exact Hf|].
  destruct (missing (Request.remotePath req) || missing (Request.localPath req)) eqn:Hm.
  { assert (Hs : s' = s) by (subst s'; unfold compare; now rewrite Hm).
    rewrite Hs. repeat split; auto. }
  destruct (CompareObs.existsSync obs) eqn:Hex.
  2:{ assert (Hs : s' = s) by (subst s'; unfold compare; now rewrite Hm, Hex).
      rewrite Hs. repeat split; auto. }
  pose proof (compare_checked tz req obs s Hm Hex) as Hc. cbv zeta in Hc.
  fold localPath in Hc.
  destruct (resolve_local_frame localPath obs s) as (Hfail & Hcached & Hother & Hgrow).
  destruct (resolve_local localPath obs s) as [[message|[d b]] s1] eqn:Hres; simpl in *.
  - specialize (Hfail message eq_refl). subst s1.
    assert (Hs : s' = s) by (subst s'; now rewrite Hc). rewrite Hs. repeat split; auto.
  - destruct Hc as (Hs1 & Hst & _). fold s' in Hs1. rewrite Hs1.
    split; [exact Hother|]. split; [exact Hgrow|]. split; [exact Hcached|].
    rewrite Hst. destruct (JsMap.has _ (Cache.data (remoteCache s)));
      intros [H|H]; discriminate.
Qed.

(** ** The display form of a time *)

Lemma hour_split (L : Z) :
  let L' := L - L mod msPerHour in
  L' / msPerDay = L / msPerDay /\
  (L' mod msPerDay) / msPerHour = (L mod msPerDay) / msPerHour /\
  0 <= (L mod msPerDay) / msPerHour < 24.
Proof.
  intros L'. subst L'. unfold msPerDay, msPerHour.
  change (24 * (60 * 60 * 1000)) with 86400000. change (60 * 60 * 1000) with 3600000.
  pose proof (Z.div_mod L 86400000 ltac:(lia)) as Hd.
  pose proof (Z.mod_pos_bound L 86400000 ltac:(lia)) as Hdb.
  set (q := L / 86400000) in *. set (r := L mod 86400000) in *.
  pose proof (Z.div_mod r 3600000 ltac:(lia)) as Hh.
  pose proof (Z.mod_pos_bound r 3600000 ltac:(lia)) as Hhb.
  set (h := r / 3600000) in *. set (m := r mod 3600000) in *.
  assert (Hh24 : 0 <= h < 24) by lia.
  assert (Hm : L mod 3600000 = m).
  { symmetry. apply (Z.mod_unique L 3600000 (24 * q + h) m); lia. }
  rewrite Hm.
  assert (Hq' : (L - m) / 86400000 = q).
  { symmetry. apply (Z.div_unique (L - m) 86400000 q (3600000 * h)); lia. }
  assert (Hr' : (L - m) mod 86400000 = 3600000 * h).
  { symmetry. apply (Z.mod_unique (L - m) 86400000 q (3600000 * h)); lia. }
  rewrite Hq', Hr'.
  split; [reflexivity|]. split; [|exact Hh24].
  rewrite Z.mul_comm. apply Z.div_mul. lia.
Qed.

(** X14.  The display form shows the hour and nothing finer: an instant
    and the start of its hour (what [getLastModified] returns) are
    displayed alike; the display ends with the hour in twelve-hour form, a
    number from 1 to 12, followed by [AM] before noon and [PM] from noon
    on, in the host's local time. *)
Theorem formatDateToLocal_shows_hour (tz t : Z) :
  formatDateToLocal tz (Some (setMinutes000 tz t)) = formatDateToLocal tz (Some t) /\
  exists date,
    formatDateToLocal tz (Some t)
    = Some (date ^^ " " ^^ string_of_Z (hour12 (local_hour tz t))
                 ^^ (if 12 <=? local_hour tz t then "PM" else "AM")) /\
    0 <= local_hour tz t < 24 /\
    1 <= hour12 (local_hour tz t) <= 12.
Proof.
  destruct (hour_split (t + tz)) as (Hday & Hhour & Hrange). cbv zeta in *.
  split.
  - unfold formatDateToLocal, setMinutes000.
    replace (t - (t + tz) mod msPerHour + tz)
      with ((t + tz) - (t + tz) mod msPerHour) by lia.
    now rewrite Hday, Hhour.
  - unfold formatDateToLocal. fold (local_hour tz t).
    destruct (civil_of_days ((t + tz) / msPerDay)) as [[fullYear month] day].
    exists (padStart2 day ^^ "/" ^^ padStart2 month ^^ "/"
            ^^ slice_last2 (string_of_Z fullYear)).
    split.
    + f_equal. rewrite !append_assoc. reflexivity.
    + split; [exact Hrange|]. unfold hour12.
      pose proof (Z.mod_pos_bound (local_hour tz t) 12 ltac:(lia)).
      destruct (Z.eqb_spec (local_hour tz t mod 12) 0); lia.
Qed.

(** ** A manual refresh *)

(** X15.  After a manual refresh the remote cache is always marked as
    being updated.  When it was marked already, nothing of the remote store
    changes: no activation is added.  When it was not, exactly one
    activation of [updateRemoteCache] is added, the temporary map is seeded
    with the cache, and the cache itself and [lastUpdated] stay.  The local
    cycle runs only when the local cache is not marked and tracks at least
    one directory. *)
Theorem refresh_starts_at_most_one (remoteTime startTime localTime : Z)
    (obs : LocalObs.t) (s : State) :
  let s' := refresh remoteTime startTime localTime obs s in
  Cache.updateInProgress (remoteCache s') = true /\
  (Cache.updateInProgress (remoteCache s) = true -> remote_part s' = remote_part s) /\
  (Cache.updateInProgress (remoteCache s) = false ->
   tasks s' = tasks s ++ [AwaitListing startTime] /\
   remoteCacheTemp s' = Cache.data (remoteCache s) /\
   Cache.updateStartTime (remoteCache s') = Some remoteTime /\
   Cache.data (remoteCache s') = Cache.data (remoteCache s) /\
   Cache.lastUpdated (remoteCache s') = Cache.lastUpdated (remoteCache s)) /\
  (Cache.updateInProgress (localCache s) = true \/
   JsMap.size (Cache.data (localCache s)) = 0%nat ->
   local_part s' = local_part s) /\
  (Cache.updateInProgress (localCache s) = false ->
   JsMap.size (Cache.data (localCache s)) <> 0%nat ->
   local_part s' = local_part (start_local localTime obs s)).
Proof.
  intros s'. subst s'. unfold refresh.
  set (s1 := if Cache.updateInProgress (remoteCache s) then s
             else start_remote remoteTime startTime s).
  assert (Hl1 : local_part s1 = local_part s)
    by (subst s1; destruct (Cache.updateInProgress (remoteCache s)); reflexivity).
  assert (Hrp : remote_part
                  (if Cache.updateInProgress (localCache s1) then s1
                   else if (0 <? JsMap.size (Cache.data (localCache s1)))%nat
                        then start_local localTime obs s1 else s1)
                = remote_part s1).
  { destruct (Cache.updateInProgress (localCache s1)); [reflexivity|].
    destruct (0 <? JsMap.size (Cache.data (localCache s1)))%nat; [|reflexivity].
    apply start_local_remote. }
  unfold remote_part in Hrp. injection Hrp as Hc Ht Hk.
  unfold local_part in Hl1. injection Hl1 as Hlc Hlt Hlh.
  split; [|split; [|split; [|split]]].
  - rewrite Hc. subst s1.
    destruct (Cache.updateInProgress (remoteCache s)) eqn:E; [exact E|reflexivity].
  - intros E. unfold remote_part. rewrite Hc, Ht, Hk. subst s1. now rewrite E.
  - intros E. rewrite Hc, Ht, Hk. subst s1. rewrite E. repeat split.
  - intros H. rewrite Hlc.
    destruct H as [H|H].
    + rewrite H. unfold local_part. now rewrite Hlc, Hlt, Hlh.
    + destruct (Cache.updateInProgress (localCache s));
        [unfold local_part; now rewrite Hlc, Hlt, Hlh|].
      rewrite H. simpl. unfold local_part. now rewrite Hlc, Hlt, Hlh.
  - intros E Hne. rewrite Hlc, E.
    replace (0 <? JsMap.size (Cache.data (localCache s)))%nat with true
      by (symmetry; apply Nat.ltb_lt; lia).
    unfold start_local, local_part.
    assert (Hdep : forall a b : State,
               localCache a = localCache b -> localCacheTemp a = localCacheTemp b ->
               localSizeHistory a = localSizeHistory b ->
               local_part (updateLocalCache obs a) = local_part (updateLocalCache obs b)).
    { clear. intros a b H1 H2 H3. unfold updateLocalCache. rewrite H1.
      assert (Hfold : forall dirs a b,
                 local_part a = local_part b ->
                 local_part (fold_left (local_dir (LocalObs.dir obs)) dirs a)
                 = local_part (fold_left (local_dir (LocalObs.dir obs)) dirs b)).
      { clear. induction dirs as [|d ds IH]; intros a b H; [exact H|].
        simpl. apply IH. unfold local_part in *. injection H as H1 H2 H3.
        unfold local_dir, mark_error.
        destruct (negb (DirObs.existsSync (LocalObs.dir obs d))); simpl;
          [now rewrite H1, H2, H3|].
        destruct (DirObs.getDirectorySize (LocalObs.dir obs d)); simpl;
          now rewrite H1, H2, H3. }
      destruct (JsMap.size (Cache.data (localCache b)) =? 0)%nat.
      - unfold local_part. simpl. now rewrite H1, H2, H3.
      - specialize (Hfold (JsMap.keys (Cache.data (localCache b))) a b).
        unfold local_part in Hfold at 1 2. rewrite H1, H2, H3 in Hfold.
        specialize (Hfold eq_refl). unfold local_part in Hfold.
        injection Hfold as F1 F2 F3. unfold local_part. simpl.
        now rewrite F1, F2, F3. }
    apply Hdep; simpl; congruence.
Qed.

(** ** More on [getLastModified] *)

Lemma scan_change_sample (tz : Z) (history : list Sample.t) (i : nat) (t : Z) :
  scan_change tz history i = Some t ->
  exists sample, In sample history /\ t = setMinutes000 tz (Sample.timestamp sample).
Proof.
  induction i as [|i IH]; [discriminate|]. cbn [scan_change].
  destruct (nth_error history (S i)) as [cur|] eqn:Hc; [|exact IH].
  destruct (nth_error history i) as [prev|]; [|exact IH].
  destruct (negb (Sample.bytes cur =? Sample.bytes prev)); [|exact IH].
  intros H. injection H as <-. exists cur. split; [|reflexivity].
  eapply nth_error_In; eauto.
Qed.

(** X16.  The time [getLastModified] returns is always that of a sample of
    the record of the path, brought back to the start of its hour: it is
    never later than that sample and less than an hour before it. *)
Theorem getLastModified_is_a_sample_hour (tz : Z) (h : JsMap.t (list Sample.t))
    (directoryPath : string) (t : Z) :
  getLastModified tz h directoryPath = Some t ->
  exists history sample,
    JsMap.get directoryPath h = Some history /\
    In sample history /\
    t = setMinutes000 tz (Sample.timestamp sample) /\
    t <= Sample.timestamp sample < t + 60 * 60 * 1000.
Proof.
  unfold getLastModified, lastModified_of.
  destruct (JsMap.get directoryPath h) as [history|]; [|discriminate].
  destruct (List.length history =? 0)%nat; [discriminate|].
  assert (Hfin : forall sample, In sample history ->
                 t = setMinutes000 tz (Sample.timestamp sample) ->
                 exists history0 sample0,
                   Some history = Some history0 /\ In sample0 history0 /\
                   t = setMinutes000 tz (Sample.timestamp sample0) /\
                   t <= Sample.timestamp sample0 < t + 60 * 60 * 1000).
  { intros sample Hin Ht. exists history, sample.
    split; [reflexivity|]. split; [exact Hin|]. split; [exact Ht|].
    rewrite Ht. apply (setMinutes000_hour tz (Sample.timestamp sample)). }
  destruct (scan_change tz history (List.length history - 1)) as [t1|] eqn:Hscan.
  - intros H. injection H as <-.
    destruct (scan_change_sample _ _ _ _ Hscan) as (sample & Hin & Ht). eauto.
  - destruct history as [|first rest]; [discriminate|].
    intros H. injection H as <-. apply (Hfin first); [now left|reflexivity].
Qed.

(** A single sample taken at 01:01:40.000 UTC. *)
Lemma getLastModified_is_a_sample_hour_witness :
  exists history sample,
    JsMap.get "/data" [("/data", [Sample.mk 3700000 100])] = Some history /\
    In sample history /\
    3600000 = setMinutes000 0 (Sample.timestamp sample).
Proof.
  destruct (getLastModified_is_a_sample_hour 0 [("/data", [Sample.mk 3700000 100])]
              "/data" 3600000 eq_refl) as (history & sample & H1 & H2 & H3 & _).
  exists history, sample. auto.
Defined.

(** X17.  A size change found by a local cycle is what [getLastModified]
    reports from then on: when the size measured at [currentTime] differs
    from the last one recorded, and that last sample is less than thirty
    days old (or there is none), the record kept by [updateLocalCache]
    gives the hour of [currentTime] as the last-modified time. *)
Theorem size_change_is_reported (tz : Z) (localDir : string) (currentTime sizeBytes : Z)
    (h : JsMap.t (list Sample.t)) :
  size_changed (history_of localDir h) sizeBytes = true ->
  (forall last, lastEntry (history_of localDir h) = Some last ->
                currentTime - thirtyDays < Sample.timestamp last) ->
  getLastModified tz (record_size localDir currentTime sizeBytes h) localDir
  = Some (setMinutes000 tz currentTime).
Proof.
  intros Hchanged Hkept.
  assert (Hget : JsMap.get localDir (record_size localDir currentTime sizeBytes h)
                 = Some (filteredHistory currentTime
                           (history_of localDir h ++ [Sample.mk currentTime sizeBytes]))).
  { unfold record_size. rewrite (history_of_ensure localDir localDir h), Hchanged.
    apply JsMapFacts.get_set_same. }
  unfold getLastModified. rewrite Hget. unfold filteredHistory.
  rewrite filter_app. cbn [filter Sample.timestamp].
  replace (currentTime - thirtyDays <? currentTime) with true
    by (symmetry; apply Z.ltb_lt; unfold thirtyDays; lia).
  destruct (history_of localDir h) as [|x old _] using rev_ind.
  - simpl. apply (lastModified_of_constant tz (Sample.mk currentTime sizeBytes) []).
    constructor.
  - rewrite lastEntry_last in Hkept. specialize (Hkept x eq_refl).
    unfold size_changed in Hchanged. rewrite lastEntry_last in Hchanged.
    apply negb_true_iff, Z.eqb_neq in Hchanged.
    rewrite filter_app. cbn [filter].
    replace (currentTime - thirtyDays <? Sample.timestamp x) with true
      by (symmetry; now apply Z.ltb_lt).
    rewrite <- app_assoc. cbn [app].
    apply (lastModified_of_change tz _ x (Sample.mk currentTime sizeBytes) []).
    + exact Hchanged.
    + constructor.
Qed.

(** [/data] grew from 100 to 250 bytes between two cycles. *)
Lemma size_change_is_reported_witness :
  getLastModified 0 (record_size "/data" 7300000 250 [("/data", [Sample.mk 3700000 100])])
                  "/data"
  = Some 7200000.
Proof.
  apply (size_change_is_reported 0 "/data" 7300000 250 [("/data", [Sample.mk 3700000 100])]).
  - reflexivity.
  - intros last H. injection H as <-. unfold thirtyDays. simpl. lia.
Defined.

(** ** The size histories after a local cycle *)

Lemma record_size_twice (k : string) (t sizeBytes : Z) (h : JsMap.t (list Sample.t)) :
  history_of k (record_size k t sizeBytes (record_size k t sizeBytes h))
  = history_of k (record_size k t sizeBytes h).
Proof.
  set (h1 := record_size k t sizeBytes h).
  pose proof (record_size_last k t sizeBytes h) as Hlast. fold h1 in Hlast.
  unfold record_size. rewrite (history_of_ensure k k h1).
  assert (Hc : size_changed (history_of k h1) sizeBytes = false).
  { unfold size_changed. unfold last_bytes in Hlast.
    destruct (lastEntry (history_of k h1)) as [e|]; [|discriminate].
    simpl in Hlast. injection Hlast as ->. now rewrite Z.eqb_refl. }
  rewrite Hc. apply history_of_ensure.
Qed.

Lemma local_dir_history (obs : string -> DirObs.t) (s : State) (localDir : string) :
  localSizeHistory (local_dir obs s localDir)
  = match probe_result (obs localDir) with
    | Some sizeBytes =>
        record_size localDir (DirObs.currentTime (obs localDir)) sizeBytes
                    (localSizeHistory s)
    | None => localSizeHistory s
    end.
Proof.
  unfold local_dir, probe_result.
  destruct (DirObs.existsSync (obs localDir)); [|reflexivity].
  destruct (DirObs.getDirectorySize (obs localDir)); reflexivity.
Qed.

Lemma local_loop_history (obs : string -> DirObs.t) (localDirs : list string) :
  forall (s : State) (k : string),
    history_of k (localSizeHistory (fold_left (local_dir obs) localDirs s))
    = match probe_result (obs k) with
      | Some sizeBytes =>
          if is_key k localDirs
          then history_of k (record_size k (DirObs.currentTime (obs k)) sizeBytes
                                         (localSizeHistory s))
          else history_of k (localSizeHistory s)
      | None => history_of k (localSizeHistory s)
      end.
Proof.
  induction localDirs as [|d ds IH]; intros s k.
  - simpl. destruct (probe_result (obs k)); reflexivity.
  - cbn [fold_left]. rewrite IH, local_dir_history.
    unfold is_key. cbn [existsb]. fold (is_key k ds).
    destruct (String.eqb_spec k d) as [->|Hne].
    + destruct (probe_result (obs d)) as [sizeBytes|]; [|reflexivity].
      simpl. rewrite record_size_twice. destruct (is_key d ds); reflexivity.
    + simpl.
      assert (Hsame : forall sizeBytes0 t0,
                 history_of k
                   (record_size k t0 sizeBytes0
                      match probe_result (obs d) with
                      | Some sizeBytes =>
                          record_size d (DirObs.currentTime (obs d)) sizeBytes
                                      (localSizeHistory s)
                      | None => localSizeHistory s
                      end)
                 = history_of k (record_size k t0 sizeBytes0 (localSizeHistory s))).
      { intros sz t0. destruct (probe_result (obs d)) as [szd|]; [|reflexivity].
        unfold record_size at 1 3.
        rewrite !(history_of_ensure k k), (record_size_other d k) by assumption.
        destruct (size_changed (history_of k (localSizeHistory s)) sz).
        - now rewrite !history_of_set, String.eqb_refl.
        - rewrite !history_of_ensure. now apply record_size_other. }
      assert (Hother : history_of k
                         match probe_result (obs d) with
                         | Some sizeBytes =>
                             record_size d (DirObs.currentTime (obs d)) sizeBytes
                                         (localSizeHistory s)
                         | None => localSizeHistory s
                         end
                       = history_of k (localSizeHistory s)).
      { destruct (probe_result (obs d)); [now apply record_size_other|reflexivity]. }
      destruct (probe_result (obs k)) as [sz|]; [|exact Hother].
      destruct (is_key k ds); [apply Hsame|exact Hother].
Qed.

(** X18.  What a local cycle does to the size histories: the record of a
    tracked directory that was measured is left as it is when the size
    equals that of its last sample, and otherwise gets the new sample
    appended and is then cut down to the samples strictly newer than thirty
    days before the probe; the record of every other path, tracked or not,
    is left as it is. *)
Theorem local_cycle_records_changes (obs : LocalObs.t) (s : State) (k : string) :
  let before := history_of k (localSizeHistory s) in
  let after := history_of k (localSizeHistory (updateLocalCache obs s)) in
  (forall sizeBytes,
      In k (JsMap.keys (Cache.data (localCache s))) ->
      probe_result (LocalObs.dir obs k) = Some sizeBytes ->
      let currentTime := DirObs.currentTime (LocalObs.dir obs k) in
      after = if size_changed before sizeBytes
              then filter (fun e => currentTime - thirtyDays <? Sample.timestamp e)
                          (before ++ [Sample.mk currentTime sizeBytes])
              else before) /\
  (~ In k (JsMap.keys (Cache.data (localCache s))) \/
   probe_result (LocalObs.dir obs k) = None ->
   after = before).
Proof.
  intros before after.
  assert (Hafter : after
                   = match probe_result (LocalObs.dir obs k) with
                     | Some sizeBytes =>
                         if is_key k (JsMap.keys (Cache.data (localCache s)))
                         then history_of k
                                (record_size k (DirObs.currentTime (LocalObs.dir obs k))
                                             sizeBytes (localSizeHistory s))
                         else before
                     | None => before
                     end).
  { subst after before. unfold updateLocalCache.
    destruct (JsMap.size (Cache.data (localCache s)) =? 0)%nat eqn:Hsize.
    - assert (Cache.data (localCache s) = [])
        by (destruct (Cache.data (localCache s)); [reflexivity|discriminate]).
      rewrite H. simpl. destruct (probe_result (LocalObs.dir obs k)); reflexivity.
    - simpl. apply local_loop_history. }
  split.
  - intros sizeBytes Hin Hp currentTime. rewrite Hafter, Hp.
    apply is_key_In in Hin. rewrite Hin.
    destruct (record_size_dedup_prune k currentTime sizeBytes (localSizeHistory s))
      as [Hsame Hnew].
    cbv zeta in Hsame, Hnew. subst before currentTime.
    destruct (size_changed (history_of k (localSizeHistory s)) sizeBytes).
    + destruct (Hnew eq_refl) as [Heq _]. exact Heq.
    + exact (Hsame eq_refl).
  - intros H. rewrite Hafter.
    destruct (probe_result (LocalObs.dir obs k)) as [sizeBytes|]; [|reflexivity].
    destruct (is_key k (JsMap.keys (Cache.data (localCache s)))) eqn:Hk; [|reflexivity].
    apply is_key_In in Hk. destruct H as [H|H]; [contradiction|discriminate].
Qed.

(** [/data] is tracked at 100 bytes and measured at 100 bytes again: its
    record stays. *)
Lemma local_cycle_records_changes_witness :
  let s := snd (compare 0 LocalScenario.compare_data LocalScenario.first_probe initial) in
  let obs := LocalObs.mk 4000 (fun _ => DirObs.mk 4001 true (inr 100) 4011 4012 4013) 4020 in
  history_of "/data" (localSizeHistory (updateLocalCache obs s)) = [Sample.mk 3010 100].
Proof.
  intros s obs.
  destruct (local_cycle_records_changes obs s "/data") as [Hok _].
  rewrite (Hok 100); [reflexivity|simpl; auto|reflexivity].
Defined.
